(** * denkwerk flow editor and flow engine: a shallow embedding

    The first part embeds the TypeScript front end of the repository: the
    flow document types (frontend/src/types.ts), node creation
    (frontend/src/utils/flowNodes.ts), the canvas (frontend/src/components/
    CanvasArea.tsx, unnamed/part_005), the application state
    (frontend/src/utils/flowConfig.ts, unnamed/part_009, unnamed/part_010),
    the API client (frontend/src/services/apiClient.ts) and the YAML export
    (unnamed/part_008).  JavaScript strings are modelled as [string]
    (sequences of code units below 256), arrays as lists, optional
    properties as [option], and untyped objects as association lists in
    property enumeration order. *)

From Stdlib Require Import String Ascii List ZArith Lia Bool Arith.
From stdpp Require Import base option list strings pretty gmap.
Import ListNotations.
Local Open Scope string_scope.
Local Open Scope list_scope.

(** ** frontend/src/types.ts *)

(** JavaScript numbers are carried around by the functions below but never
    computed on; they are represented by integers. *)
Definition number := Z.

Record RetryPolicy := {
  retry_max : number;
  retry_backoff_ms : option number;
}.

Record CallSettings := {
  cs_model : option string;
  cs_temperature : option number;
  cs_top_p : option number;
  cs_max_tokens : option number;
  cs_timeout_ms : option number;
  cs_retry : option RetryPolicy;
}.

Record FlowMetadata := {
  meta_name : option string;
  meta_description : option string;
  meta_tags : option (list string);
}.

Record AgentDefinition := {
  agent_id : string;
  agent_model : string;
  agent_name : option string;
  agent_description : option string;
  agent_system_prompt : option string;
  agent_tools : option (list string);
  agent_defaults : option CallSettings;
}.

Record ToolDefinition := {
  tool_id : string;
  tool_kind : string;
  tool_description : option string;
  tool_spec : option string;
  tool_function : option string;
}.

Record PromptDefinition := {
  prompt_id : string;
  prompt_file : string;
  prompt_description : option string;
}.

Record FlowEdge := {
  edge_from : string;
  edge_to : string;
  edge_condition : option string;
  edge_label : option string;
}.

Record NodeInput := { input_from : string }.

Record NodeOutput := {
  output_label : string;
  output_condition : option string;
}.

Record NodeLayout := { layout_x : number; layout_y : number }.

Record NodeBase := {
  node_id : string;
  node_name : option string;
  node_description : option string;
  node_inputs : option (list NodeInput);
  node_outputs : option (list NodeOutput);
  node_layout : option NodeLayout;
}.

Inductive DecisionStrategy := StrategyLlm | StrategyRule.

(** [FlowNode["kind"]]: the nine interfaces InputNode ... SubflowNode, one
    constructor each, with the interface's fields as arguments. *)
Inductive NodeKind :=
| InputNode
| OutputNode
| AgentNode (agent : string) (prompt : option string)
            (tools : option (list string)) (parameters : option CallSettings)
| DecisionNode (prompt : option string) (strategy : option DecisionStrategy)
| ToolNode (tool : string)
| MergeNode
| ParallelNode (converge : option bool)
| LoopNode (max_iterations : option number) (condition : option string)
| SubflowNode (flow : string).

Record FlowNode := { base : NodeBase; kind : NodeKind }.

(** [FlowNodeKindType = FlowNode["kind"]["type"]], the union of the nine
    string literal types. *)
Inductive FlowNodeKindType :=
| TInput | TOutput | TAgent | TDecision | TTool | TMerge | TParallel | TLoop
| TSubflow.

(** The [type] property of a kind object. *)
Definition kind_type (k : NodeKind) : FlowNodeKindType :=
  match k with
  | InputNode => TInput
  | OutputNode => TOutput
  | AgentNode _ _ _ _ => TAgent
  | DecisionNode _ _ => TDecision
  | ToolNode _ => TTool
  | MergeNode => TMerge
  | ParallelNode _ => TParallel
  | LoopNode _ _ => TLoop
  | SubflowNode _ => TSubflow
  end.

(** The string literal of each tag. *)
Definition type_literal (t : FlowNodeKindType) : string :=
  match t with
  | TInput => "input"
  | TOutput => "output"
  | TAgent => "agent"
  | TDecision => "decision"
  | TTool => "tool"
  | TMerge => "merge"
  | TParallel => "parallel"
  | TLoop => "loop"
  | TSubflow => "subflow"
  end.

Definition node_tag (n : FlowNode) : string := type_literal (kind_type (kind n)).

Definition all_kind_types : list FlowNodeKindType :=
  [TInput; TOutput; TAgent; TDecision; TTool; TMerge; TParallel; TLoop; TSubflow].

Record FlowDefinition := {
  flow_id : string;
  flow_entry : string;
  flow_nodes : list FlowNode;
  flow_edges : list FlowEdge;
}.

Record FlowDocument := {
  doc_version : string;
  doc_metadata : option FlowMetadata;
  doc_agents : list AgentDefinition;
  doc_tools : list ToolDefinition;
  doc_prompts : list PromptDefinition;
  doc_flows : list FlowDefinition;
}.

(** Number of declared input and output slots of a node ([inputs] and
    [outputs] are optional arrays). *)
Definition declared_inputs (n : FlowNode) : list NodeInput :=
  default [] (node_inputs (base n)).

Definition declared_outputs (n : FlowNode) : list NodeOutput :=
  default [] (node_outputs (base n)).

(** ** frontend/src/utils/flowNodes.ts *)

(** [uid]: the prefix, an underscore and four hexadecimal digits drawn from
    [Math.random()]; the digits are an input of the model. *)
Definition uid (rnd : string) (prefix : string) : string :=
  prefix +:+ "_" +:+ rnd.

Definition mk_base (id : string) (inputs : list NodeInput)
    (outputs : list NodeOutput) : NodeBase :=
  {| node_id := id; node_name := None; node_description := None;
     node_inputs := Some inputs; node_outputs := Some outputs;
     node_layout := None |}.

Definition out_slot : NodeOutput :=
  {| output_label := "out"; output_condition := None |}.

Definition empty_input : NodeInput := {| input_from := "" |}.

Definition createFlowNode (rnd : string) (type : FlowNodeKindType)
    (id : option string) : FlowNode :=
  let id' := default (uid rnd (type_literal type)) id in
  let base := mk_base id' [] [out_slot] in
  match type with
  | TInput => {| base := mk_base id' [] [out_slot]; kind := InputNode |}
  | TOutput => {| base := mk_base id' [empty_input] []; kind := OutputNode |}
  | TAgent => {| base := base; kind := AgentNode "" None None None |}
  | TDecision =>
      {| base := mk_base id' [] []; kind := DecisionNode None (Some StrategyLlm) |}
  | TTool => {| base := base; kind := ToolNode "" |}
  | TMerge =>
      {| base := mk_base id' [empty_input; empty_input] [out_slot];
         kind := MergeNode |}
  | TParallel =>
      {| base := mk_base id' [] [out_slot]; kind := ParallelNode (Some true) |}
  | TLoop =>
      {| base := mk_base id' [] [out_slot]; kind := LoopNode (Some 3%Z) None |}
  | TSubflow => {| base := base; kind := SubflowNode "" |}
  end.

Definition getDefaultOutput (nodes : list FlowNode) (sourceId : string) : string :=
  match List.find (fun n => String.eqb (node_id (base n)) sourceId) nodes with
  | Some sourceNode =>
      match node_outputs (base sourceNode) with
      | Some (o :: _) => output_label o
      | _ => "out"
      end
  | None => "out"
  end.

(** The arity rule of the two terminal kinds. *)
Definition terminal_arity_ok (n : FlowNode) : Prop :=
  match kind n with
  | InputNode =>
      List.length (declared_inputs n) = 0 /\ List.length (declared_outputs n) = 1
  | OutputNode =>
      1 <= List.length (declared_inputs n) /\ List.length (declared_outputs n) = 0
  | _ => True
  end.

(** ** frontend/src/components/CanvasArea.tsx *)

(** A reactflow [Connection]: every field is [string | null]. *)
Record Connection := {
  conn_source : option string;
  conn_target : option string;
  conn_sourceHandle : option string;
  conn_targetHandle : option string;
}.

(** The fields of a reactflow [Edge] that [mapEdges] computes from the flow
    edge; the remaining ones (style, label style) are constants. *)
Record RFEdge := {
  rf_id : string;
  rf_source : string;
  rf_target : string;
  rf_sourceHandle : option string;
  rf_label : option string;
}.

(** [!s] for a [string | null]: null and the empty string are falsy. *)
Definition falsy (s : option string) : bool :=
  match s with
  | None => true
  | Some s' => String.eqb s' ""
  end.

(** [s.split(sep)] for a separator of one code unit.  The result of
    [split] is never empty: it is returned as its first element and the
    list of the others. *)
Fixpoint split (sep : ascii) (s : string) : string * list string :=
  match s with
  | EmptyString => (EmptyString, [])
  | String c s' =>
      let '(h, t) := split sep s' in
      if Ascii.eqb c sep then (EmptyString, h :: t) else (String c h, t)
  end.

Definition slash : ascii := "/"%char.

(** Whether a code unit occurs in a string. *)
Fixpoint occurs (c : ascii) (s : string) : bool :=
  match s with
  | EmptyString => false
  | String c' s' => Ascii.eqb c' c || occurs c s'
  end.

(** The output label [handleConnect] puts after the slash:
    [connection.sourceHandle ?? defaultOutput]. *)
Definition connect_label (flow : FlowDefinition) (source : string)
    (sourceHandle : option string) : string :=
  default (getDefaultOutput (flow_nodes flow) source) sourceHandle.

Definition with_edges (flow : FlowDefinition) (edges : list FlowEdge) : FlowDefinition :=
  {| flow_id := flow_id flow; flow_entry := flow_entry flow;
     flow_nodes := flow_nodes flow; flow_edges := edges |}.

(** [handleConnect] returns the flow it hands to [onUpdateFlow], or [None]
    when it returns early. *)
Definition handleConnect (flow : FlowDefinition) (connection : Connection)
    : option FlowDefinition :=
  if falsy (conn_source connection) || falsy (conn_target connection) then None
  else
    match conn_source connection, conn_target connection with
    | Some source, Some target =>
        let defaultOutput := getDefaultOutput (flow_nodes flow) source in
        let from :=
          source +:+ "/" +:+ default defaultOutput (conn_sourceHandle connection) in
        let to := target in
        Some (with_edges flow
                (flow_edges flow ++
                 [{| edge_from := from; edge_to := to;
                     edge_condition := None; edge_label := None |}]))
    | _, _ => None
    end.

Definition mapEdges (edges : list FlowEdge) : list RFEdge :=
  imap (fun idx edge =>
          let '(source, rest) := split slash (edge_from edge) in
          let sourceHandle := head rest in
          let '(target, _) := split slash (edge_to edge) in
          {| rf_id := edge_from edge +:+ "-" +:+ edge_to edge +:+ "-" +:+ pretty idx;
             rf_source := source;
             rf_target := target;
             rf_sourceHandle := sourceHandle;
             rf_label := edge_label edge |})
       edges.

(** The node an edge leaves and the node it enters, as [mapEdges] reads
    them off the edge. *)
Definition edge_source (e : FlowEdge) : string := fst (split slash (edge_from e)).
Definition edge_target (e : FlowEdge) : string := fst (split slash (edge_to e)).

(** The labels a node declares as outputs. *)
Definition declared_labels (n : FlowNode) : list string :=
  map output_label (declared_outputs n).

Definition find_node (nodes : list FlowNode) (id : string) : option FlowNode :=
  List.find (fun n => String.eqb (node_id (base n)) id) nodes.

(** [label] is a declared output of the node named [source], or the
    implicit output "out" when that node declares no output (or when no
    node of the flow has that id). *)
Definition declared_or_implicit (nodes : list FlowNode) (source label : string) : Prop :=
  match find_node nodes source with
  | Some n =>
      In label (declared_labels n) \/ (declared_labels n = [] /\ label = "out")
  | None => label = "out"
  end.

(** ** The application state

    [App] in frontend/src/utils/flowConfig.ts and unnamed/part_010. *)

Record AppState := {
  flowDoc : FlowDocument;
  activeFlowId : string;
  selectedNodeId : option string;
}.

Definition with_flows (doc : FlowDocument) (flows : list FlowDefinition) : FlowDocument :=
  {| doc_version := doc_version doc; doc_metadata := doc_metadata doc;
     doc_agents := doc_agents doc; doc_tools := doc_tools doc;
     doc_prompts := doc_prompts doc; doc_flows := flows |}.

(** [flowDoc.flows.find((f) => f.id === activeFlowId) ?? flowDoc.flows[0]] *)
Definition activeFlow (st : AppState) : option FlowDefinition :=
  match List.find (fun f => String.eqb (flow_id f) (activeFlowId st))
                  (doc_flows (flowDoc st)) with
  | Some f => Some f
  | None => head (doc_flows (flowDoc st))
  end.

Definition updateFlow (flowId : string) (next : FlowDefinition) (doc : FlowDocument)
    : FlowDocument :=
  with_flows doc
    (map (fun f => if String.eqb (flow_id f) flowId then next else f) (doc_flows doc)).

(** The flow [removeNode] hands to [updateFlow]. *)
Definition removeNode_flow (activeFlow : FlowDefinition) (nodeId : string)
    : FlowDefinition :=
  let remainingNodes :=
    List.filter (fun n => negb (String.eqb (node_id (base n)) nodeId))
                (flow_nodes activeFlow) in
  {| flow_id := flow_id activeFlow;
     flow_entry := flow_entry activeFlow;
     flow_nodes := remainingNodes;
     flow_edges :=
       List.filter (fun e => negb (String.prefix nodeId (edge_from e))
                             && negb (String.prefix nodeId (edge_to e)))
                   (flow_edges activeFlow) |}.

Definition removeNode (st : AppState) (nodeId : string) : AppState :=
  match activeFlow st with
  | None => st
  | Some active =>
      let next := removeNode_flow active nodeId in
      {| flowDoc := updateFlow (flow_id active) next (flowDoc st);
         activeFlowId := activeFlowId st;
         selectedNodeId := option_map (fun n => node_id (base n)) (head (flow_nodes next)) |}
  end.

(** ** JavaScript values

    JSON-like values as the untyped functions of utils/yaml.ts and the
    request payloads see them.  An object is the list of its own properties
    in enumeration order, as [Object.entries], [Object.keys] and the spread
    see it; its prototype is not represented. *)

#[local] Unset Elimination Schemes.
Inductive JValue :=
| JUndefined
| JNull
| JBool (b : bool)
| JNum (n : number)
| JStr (s : string)
| JArr (items : list JValue)
| JObj (props : list (string * JValue)).
#[local] Set Elimination Schemes.

Definition JProps := list (string * JValue).

(** [o[key]] for an own property. *)
Fixpoint obj_get (o : JProps) (key : string) : option JValue :=
  match o with
  | [] => None
  | (k, v) :: o' => if String.eqb k key then Some v else obj_get o' key
  end.

(** [o[key] = val]: an existing property keeps its place, a new one is
    added last. *)
Fixpoint obj_set (o : JProps) (key : string) (val : JValue) : JProps :=
  match o with
  | [] => [(key, val)]
  | (k, v) :: o' =>
      if String.eqb k key then (k, val) :: o' else (k, v) :: obj_set o' key val
  end.

(** [{ ...target, ...source }]: the properties of [source] are assigned in
    order on top of [target]. *)
Definition spread (target source : JProps) : JProps :=
  fold_left (fun acc kv => obj_set acc (fst kv) (snd kv)) source target.

(** ** The YAML export (unnamed/part_008) *)

(** White space as [String.prototype.trim] sees it, among the code units
    below 256: TAB, LF, VT, FF, CR, SP and NBSP. *)
Definition is_whitespace (c : ascii) : bool :=
  let n := nat_of_ascii c in
  ((9 <=? n) && (n <=? 13) || (n =? 32) || (n =? 160))%nat.

Fixpoint trim_start (s : string) : string :=
  match s with
  | EmptyString => EmptyString
  | String c s' => if is_whitespace c then trim_start s' else s
  end.

Fixpoint trim_end (s : string) : string :=
  match s with
  | EmptyString => EmptyString
  | String c s' =>
      match trim_end s' with
      | EmptyString => if is_whitespace c then EmptyString else String c EmptyString
      | t => String c t
      end
  end.

Definition trim (s : string) : string := trim_end (trim_start s).

(** [typeof value === "object" && value !== null && !Array.isArray(value)];
    the tests [Array.isArray] and [isPlainObject] of [shouldDrop] and
    [deepClean] are the [JArr] and [JObj] cases below. *)
Definition isPlainObject (value : JValue) : bool :=
  match value with
  | JObj _ => true
  | _ => false
  end.

Definition shouldDrop (value : JValue) : bool :=
  match value with
  | JUndefined | JNull => true
  | JStr s => String.eqb (trim s) ""
  | JArr items => (List.length items =? 0)%nat
  | JObj props => (List.length (map fst props) =? 0)%nat
  | _ => false
  end.

(** The key that an ordinary object inherits from [Object.prototype] as
    an accessor. *)
Definition proto_key : string := "__proto__".

(** [acc[key] = val] on an object made by [{}]: the assignment to
    "__proto__" goes to the inherited setter, which sets the prototype when
    [val] is an object and does nothing otherwise; it creates no own
    property.  (The prototype it sets is a cleaned object or array, which
    inherits the same accessor and has no setter of its own, so the later
    assignments create own properties as before.) *)
Definition assign (acc : JProps) (key : string) (val : JValue) : JProps :=
  if String.eqb key proto_key then acc else obj_set acc key val.

(** [entries.reduce((acc, [key, val]) => { acc[key] = val; return acc; }, {})] *)
Definition from_entries (entries : JProps) : JProps :=
  fold_left (fun acc kv => assign acc (fst kv) (snd kv)) entries [].

Fixpoint deepClean (value : JValue) : JValue :=
  match value with
  | JArr items =>
      let cleaned :=
        List.filter (fun item => negb (shouldDrop item)) (map deepClean items) in
      JArr cleaned
  | JObj props =>
      let entries :=
        List.filter (fun kv => negb (shouldDrop (snd kv)))
                    (map (fun kv => (fst kv, deepClean (snd kv))) props) in
      JObj (from_entries entries)
  | _ => value
  end.

(** What a call can produce: a value, or a thrown [TypeError]. *)
Inductive Outcome (A : Type) :=
| Ok (a : A)
| TypeError.
Arguments Ok {A} a.
Arguments TypeError {A}.

(** [doc.version?.trim() || "0.1"]: an absent, undefined or null version
    gives "0.1", a string its trimmed form unless that is empty; any other
    value has no [trim] method and the call throws. *)
Definition normalized_version (doc : JProps) : Outcome string :=
  match obj_get doc "version" with
  | None | Some JUndefined | Some JNull => Ok "0.1"
  | Some (JStr s) => Ok (if String.eqb (trim s) "" then "0.1" else trim s)
  | Some _ => TypeError
  end.

(** The document is the object [doc] of its own properties. *)
Definition normalizeDocument (doc : JProps) : Outcome JValue :=
  match normalized_version doc with
  | Ok version =>
      let cleaned := deepClean (JObj (obj_set (spread [] doc) "version" (JStr version))) in
      Ok cleaned
  | TypeError => TypeError
  end.

(** The values [deepClean] removes from arrays and objects: undefined,
    null, whitespace-only strings, empty arrays and empty objects. *)
Definition whitespace_only (s : string) : Prop :=
  Forall (fun c => is_whitespace c = true) (list_ascii_of_string s).

Definition empty_value (v : JValue) : Prop :=
  v = JUndefined \/ v = JNull \/ (exists s, v = JStr s /\ whitespace_only s) \/
  v = JArr [] \/ v = JObj [].

(** [inside x v]: [x] is an element or property value of [v], at any depth. *)
Inductive inside : JValue -> JValue -> Prop :=
| inside_item (x : JValue) (items : list JValue) :
    In x items -> inside x (JArr items)
| inside_prop (k : string) (x : JValue) (props : JProps) :
    In (k, x) props -> inside x (JObj props)
| inside_deeper (x y z : JValue) : inside x y -> inside y z -> inside x z.

(** A value on which [deepClean] has nothing to do: no element or property
    value is dropped, at any depth, and no object lists a key twice or has
    an own key "__proto__". *)
Fixpoint settled (v : JValue) : bool :=
  match v with
  | JArr items => forallb (fun x => negb (shouldDrop x) && settled x) items
  | JObj props =>
      bool_decide (NoDup (map fst props)) &&
      forallb (fun kv => negb (String.eqb (fst kv) proto_key) &&
                         (negb (shouldDrop (snd kv)) && settled (snd kv))) props
  | _ => true
  end.

(** ** The typed node records as JavaScript objects

    An optional field that is absent contributes no property. *)

Definition opt_prop {A : Type} (key : string) (enc : A -> JValue) (o : option A)
    : JProps :=
  match o with
  | Some a => [(key, enc a)]
  | None => []
  end.

Definition json_strings (l : list string) : JValue := JArr (map JStr l).

Definition json_of_retry (r : RetryPolicy) : JValue :=
  JObj (("max", JNum (retry_max r)) :: opt_prop "backoff_ms" JNum (retry_backoff_ms r)).

Definition json_of_settings (c : CallSettings) : JValue :=
  JObj (opt_prop "model" JStr (cs_model c) ++
        opt_prop "temperature" JNum (cs_temperature c) ++
        opt_prop "top_p" JNum (cs_top_p c) ++
        opt_prop "max_tokens" JNum (cs_max_tokens c) ++
        opt_prop "timeout_ms" JNum (cs_timeout_ms c) ++
        opt_prop "retry" json_of_retry (cs_retry c)).

Definition json_of_input (i : NodeInput) : JValue :=
  JObj [("from", JStr (input_from i))].

Definition json_of_output (o : NodeOutput) : JValue :=
  JObj (("label", JStr (output_label o)) ::
        opt_prop "condition" JStr (output_condition o)).

Definition json_of_layout (l : NodeLayout) : JValue :=
  JObj [("x", JNum (layout_x l)); ("y", JNum (layout_y l))].

Definition json_of_strategy (s : DecisionStrategy) : JValue :=
  match s with
  | StrategyLlm => JStr "llm"
  | StrategyRule => JStr "rule"
  end.

(** The own properties of [n.base]. *)
Definition props_of_base (b : NodeBase) : JProps :=
  ("id", JStr (node_id b)) ::
  opt_prop "name" JStr (node_name b) ++
  opt_prop "description" JStr (node_description b) ++
  opt_prop "inputs" (fun l => JArr (map json_of_input l)) (node_inputs b) ++
  opt_prop "outputs" (fun l => JArr (map json_of_output l)) (node_outputs b) ++
  opt_prop "layout" json_of_layout (node_layout b).

(** The own properties of [n.kind]. *)
Definition props_of_kind (k : NodeKind) : JProps :=
  ("type", JStr (type_literal (kind_type k))) ::
  match k with
  | InputNode | OutputNode | MergeNode => []
  | AgentNode agent prompt tools parameters =>
      ("agent", JStr agent) ::
      opt_prop "prompt" JStr prompt ++
      opt_prop "tools" json_strings tools ++
      opt_prop "parameters" json_of_settings parameters
  | DecisionNode prompt strategy =>
      opt_prop "prompt" JStr prompt ++
      opt_prop "strategy" json_of_strategy strategy
  | ToolNode tool => [("tool", JStr tool)]
  | ParallelNode converge => opt_prop "converge" JBool converge
  | LoopNode max_iterations condition =>
      opt_prop "max_iterations" JNum max_iterations ++
      opt_prop "condition" JStr condition
  | SubflowNode flow => [("flow", JStr flow)]
  end.

(** ** frontend/src/services/apiClient.ts *)

(** A flow and a document of the backend format: nodes are flat objects. *)
Record BackendFlow := {
  bf_id : string;
  bf_entry : string;
  bf_nodes : list JProps;
  bf_edges : list FlowEdge;
}.

Record BackendDocument := {
  bd_version : string;
  bd_metadata : option FlowMetadata;
  bd_agents : list AgentDefinition;
  bd_tools : list ToolDefinition;
  bd_prompts : list PromptDefinition;
  bd_flows : list BackendFlow;
}.

(** The object [executeFlow] serializes as the request body. *)
Record ExecuteBody := {
  body_flow : BackendDocument;
  body_input : string;
  body_context : option JProps;
}.

(** [{ ...n.base, ...n.kind }] *)
Definition flatten_node (n : FlowNode) : JProps :=
  spread (spread [] (props_of_base (base n))) (props_of_kind (kind n)).

Definition backendFlow (flow : FlowDocument) : BackendDocument :=
  {| bd_version := doc_version flow;
     bd_metadata := doc_metadata flow;
     bd_agents := doc_agents flow;
     bd_tools := doc_tools flow;
     bd_prompts := doc_prompts flow;
     bd_flows :=
       map (fun f =>
              {| bf_id := flow_id f;
                 bf_entry := flow_entry f;
                 bf_nodes := map flatten_node (flow_nodes f);
                 bf_edges := flow_edges f |})
           (doc_flows flow) |}.

(** The body of the POST request to /flows/execute. *)
Definition executeFlow (flow : FlowDocument) (input : string)
    (context : option JProps) : ExecuteBody :=
  {| body_flow := backendFlow flow; body_input := input; body_context := context |}.

(** ** The node editor (unnamed/part_005, the Subflow case) *)

(** The flow the editor takes the edited node to belong to: the first flow
    with a node of that id. *)
Definition owner_flow (availableFlows : list FlowDefinition) (b : NodeBase)
    : option FlowDefinition :=
  List.find (fun af => existsb (fun n => String.eqb (node_id (base n)) (node_id b))
                               (flow_nodes af))
            availableFlows.

(** The flows offered as target of a Subflow node: all but the one the node
    belongs to ("simple cycle prevention check (imperfect but helpful)"). *)
Definition subflowOptions (availableFlows : list FlowDefinition) (b : NodeBase)
    : list string :=
  map flow_id
      (List.filter
         (fun f => negb match owner_flow availableFlows b with
                        | Some o => String.eqb (flow_id f) (flow_id o)
                        | None => false
                        end)
         availableFlows).

(** ** Auxiliary notions and sample values for the front end *)

(** A value deepClean keeps inside an array or an object. *)
Definition kept (v : JValue) : Prop := negb (shouldDrop v) && settled v = true.

(** The entries that become own properties when they are assigned one by
    one: all but one with the key "__proto__". *)
Definition own_entries (entries : JProps) : JProps :=
  List.filter (fun kv => negb (String.eqb (fst kv) proto_key)) entries.

(** The entries of an object that deepClean does not drop, and those of
    them that become properties of its result. *)
Definition kept_entries (props : JProps) : JProps :=
  List.filter (fun kv => negb (shouldDrop (snd kv)))
              (map (fun kv => (fst kv, deepClean (snd kv))) props).

Definition clean_entries (props : JProps) : JProps :=
  own_entries (kept_entries props).

(** A flow with one agent node [a] declaring the output "out", and a
    connection from [a] to [b]. *)
Definition ex_agent_a : FlowNode := createFlowNode "" TAgent (Some "a").

Definition ex_flow_a : FlowDefinition :=
  {| flow_id := "f"; flow_entry := "a"; flow_nodes := [ex_agent_a];
     flow_edges := [] |}.

Definition ex_conn (handle : option string) : Connection :=
  {| conn_source := Some "a"; conn_target := Some "b";
     conn_sourceHandle := handle; conn_targetHandle := None |}.

(** A flow in which one node id is a prefix of another. *)
Definition ex_prefix_flow : FlowDefinition :=
  {| flow_id := "f"; flow_entry := "a";
     flow_nodes := [createFlowNode "" TInput (Some "a");
                    createFlowNode "" TAgent (Some "ab");
                    createFlowNode "" TOutput (Some "c")];
     flow_edges := [{| edge_from := "a/out"; edge_to := "ab";
                       edge_condition := None; edge_label := None |};
                    {| edge_from := "ab/out"; edge_to := "c";
                       edge_condition := None; edge_label := None |}] |}.

(** A document object and its normal form. *)
Definition ex_doc : JProps :=
  [("version", JStr "  1.0 ");
   ("agents", JArr []);
   ("flows", JArr [JObj [("id", JStr "main"); ("entry", JStr "start");
                         ("nodes", JArr [JObj [("id", JStr "start");
                                               ("name", JStr " ");
                                               ("inputs", JArr [])]]);
                         ("edges", JArr [])]])].

Definition ex_doc_normalized : JValue :=
  JObj [("version", JStr "1.0");
        ("flows", JArr [JObj [("id", JStr "main"); ("entry", JStr "start");
                              ("nodes", JArr [JObj [("id", JStr "start")]])]])].

(** * The flow execution engine

    The front end above is a caller of the engine ([executeFlow] posts the
    document to it); the engine itself is the backend, whose code is not part
    of the front end.  The definitions of this part are modelled from
    sections 3 to 7 of the specification: the execution context, the node
    handlers, the interpreter loop with its join rule, the loop bodies, the
    parallel regions and the subflow call stack.  What the specification
    leaves to external collaborators (the orchestration strategy that
    produces an agent's turn, the tool registry, the evaluation of condition
    expressions) is an interface, [Collaborators].

    Where the specification leaves a choice, the model takes the reading
    its own sentences support and says so at the definition: a declared input
    of a branch that was not taken is not waited for (the end-to-end scenario
    of section 8); the body of a loop is the chain of single successors
    behind its output (4.6); branches of a Parallel node without converge
    have each to reach an Output node (the safe implementation of 4.4). *)

(** Modelled from the spec: a value produced at a node output; a Merge
    produces the ordered collection of its input values (4.4). *)
#[local] Unset Elimination Schemes.
Inductive Value :=
| VText (text : string)
| VList (items : list Value).
#[local] Set Elimination Schemes.

(** Modelled from the spec: a conversational turn of the transcript. *)
Record Turn := {
  turn_node : string;
  turn_speaker : string;
  turn_text : string;
}.

(** Modelled from the spec: the audit trail records every call the engine
    makes to the model provider (through a strategy) or to the tool
    registry, and every subflow invocation: the request of a Subflow node,
    the entry into the target flow and the return from it (sections 1
    and 6). *)
Inductive Event :=
| ModelCall (node : string)
| ToolCall (node tool : string)
| SubflowCall (node target : string)
| SubflowEntered (target : string)
| SubflowLeft (target : string).

(** Modelled from the spec: the error taxonomy of section 7. *)
Inductive FlowError :=
| UnknownFlow (flow : string)
| UnknownNode (node : string)
| UnknownAgent (node agent : string)
| UnknownTool (node tool : string)
| DeadEnd (flow : string)
| CycleDetected (flow : string)
| ProviderError (node cause : string)
| ToolError (node tool cause : string)
| DecisionNoMatch (node : string)
| DecisionUnlisted (node label : string).

(** Modelled from the spec: the ExecutionContext of section 3: the ordered
    transcript, the bindings from "<nodeId>/<outputLabel>" to the value
    produced there, the call stack of in-flight flow ids, the iteration
    counter of each loop node; and the audit trail of the run. *)
Record ExecutionContext := {
  transcript : list Turn;
  bindings : gmap string Value;
  call_stack : list string;
  iterations : gmap string nat;
  events : list Event;
}.

(** Modelled from the spec: what an external collaborator answers: a text,
    or an error with its cause (section 6). *)
Inductive Reply :=
| Answer (text : string)
| Refusal (cause : string).

(** Modelled from the spec: the external collaborators of section 6 and
    the parts of the handlers that sections 4.2 to 4.5 delegate to them.
    [agent_turn] is the orchestration strategy asked for the next turn of an
    agent (with the prompt override, the tool subset and the effective call
    settings); [classify] is the classification call of an LLM decision,
    constrained to the declared labels; [invoke] is the tool registry;
    [eval_condition] evaluates a condition expression against the bindings
    and the transcript. *)
Class Collaborators := {
  agent_turn : AgentDefinition -> option string -> list string -> CallSettings ->
               list Turn -> Reply;
  classify : option string -> list string -> list Turn -> Reply;
  invoke : ToolDefinition -> list Value -> Reply;
  eval_condition : string -> gmap string Value -> list Turn -> bool;
}.

(** Modelled from the spec: the options of [run]: the engine-wide default
    call settings (section 6). *)
Record Options := { default_settings : CallSettings }.

(** Modelled from the spec: call settings are layered, node over agent
    default over engine default (section 3). *)
Definition layer {A : Type} (over under : option A) : option A :=
  match over with
  | Some a => Some a
  | None => under
  end.

(** Modelled from the spec: the layering of section 3, field by field. *)
Definition layer_settings (over under : CallSettings) : CallSettings :=
  {| cs_model := layer (cs_model over) (cs_model under);
     cs_temperature := layer (cs_temperature over) (cs_temperature under);
     cs_top_p := layer (cs_top_p over) (cs_top_p under);
     cs_max_tokens := layer (cs_max_tokens over) (cs_max_tokens under);
     cs_timeout_ms := layer (cs_timeout_ms over) (cs_timeout_ms under);
     cs_retry := layer (cs_retry over) (cs_retry under) |}.

(** Modelled from the spec: the effective settings of an agent call:
    node-level over agent-default over engine-default (section 3). *)
Definition effective_settings (node : option CallSettings)
    (agent : option CallSettings) (engine : CallSettings) : CallSettings :=
  let under := match agent with
               | Some a => layer_settings a engine
               | None => engine
               end in
  match node with
  | Some n => layer_settings n under
  | None => under
  end.

(** ** Context updates *)

(** Modelled from the spec: a handler writes the value produced at an
    output into the bindings of the context (section 3). *)
Definition bind_output (key : string) (v : Value) (ctx : ExecutionContext)
    : ExecutionContext :=
  {| transcript := transcript ctx;
     bindings := <[key := v]> (bindings ctx);
     call_stack := call_stack ctx;
     iterations := iterations ctx;
     events := events ctx |}.

(** Modelled from the spec: the transcript is append-only (section 5). *)
Definition append_turns (turns : list Turn) (ctx : ExecutionContext)
    : ExecutionContext :=
  {| transcript := transcript ctx ++ turns;
     bindings := bindings ctx;
     call_stack := call_stack ctx;
     iterations := iterations ctx;
     events := events ctx |}.

(** Modelled from the spec: the audit trail grows with every call made
    (section 2). *)
Definition log_events (evs : list Event) (ctx : ExecutionContext)
    : ExecutionContext :=
  {| transcript := transcript ctx;
     bindings := bindings ctx;
     call_stack := call_stack ctx;
     iterations := iterations ctx;
     events := events ctx ++ evs |}.

(** Modelled from the spec: the per-loop-node iteration counter of the
    context (section 3). *)
Definition set_iterations (node : string) (n : nat) (ctx : ExecutionContext)
    : ExecutionContext :=
  {| transcript := transcript ctx;
     bindings := bindings ctx;
     call_stack := call_stack ctx;
     iterations := <[node := n]> (iterations ctx);
     events := events ctx |}.

(** Modelled from the spec: the key "<nodeId>/<outputLabel>" of an output. *)
Definition output_key (n : FlowNode) (label : string) : string :=
  node_id (base n) +:+ "/" +:+ label.

(** Modelled from the spec: the single output of a node: its first
    declared output, or the implicit one when none is declared (section 3). *)
Definition sole_output (n : FlowNode) : string :=
  match declared_outputs n with
  | o :: _ => output_label o
  | [] => "out"
  end.

(** Whether an id is in a list of ids. *)
Definition mem (id : string) (l : list string) : bool :=
  existsb (String.eqb id) l.

(** The ids of [l] that are not in [seen], each once, in their order. *)
Fixpoint dedupe (seen l : list string) : list string :=
  match l with
  | [] => []
  | x :: l' => if mem x seen then dedupe seen l' else x :: dedupe (x :: seen) l'
  end.

(** ** The graph of a flow (section 3) *)

(** Modelled from the spec: an edge's [from] is "<nodeId>/<outputLabel>";
    without a slash it names the implicit single output. *)
Definition edge_output (e : FlowEdge) : option string :=
  match snd (split slash (edge_from e)) with
  | [] => None
  | parts => Some (String.concat "/" parts)
  end.

(** Modelled from the spec: the edges that leave a node and the edges that
    lead to it, in edge declaration order (section 3). *)
Definition out_edges (f : FlowDefinition) (id : string) : list FlowEdge :=
  List.filter (fun e => String.eqb (edge_source e) id) (flow_edges f).

Definition in_edges (f : FlowDefinition) (id : string) : list FlowEdge :=
  List.filter (fun e => String.eqb (edge_to e) id) (flow_edges f).

(** Modelled from the spec: the key "<nodeId>/<outputLabel>" of the output
    an edge leaves. *)
Definition edge_key (f : FlowDefinition) (e : FlowEdge) : string :=
  edge_source e +:+ "/" +:+
  match edge_output e with
  | Some l => l
  | None =>
      match find_node (flow_nodes f) (edge_source e) with
      | Some n => sole_output n
      | None => "out"
      end
  end.

(** Modelled from the spec: a node of a loop body: the body is the "single
    successor chain" of the loop node (4.6), so a node of it does one piece
    of work (an agent, a tool, a subflow) and has exactly one outgoing
    edge. *)
Definition chainable (f : FlowDefinition) (n : FlowNode) : bool :=
  match kind n with
  | AgentNode _ _ _ _ | ToolNode _ | SubflowNode _ =>
      (List.length (out_edges f (node_id (base n))) =? 1)%nat
  | _ => false
  end.

(** Modelled from the spec: the chain of single successors that starts at
    node [id], and whether it comes back to the loop node [loop] (the graph
    is "acyclic except through Loop nodes", 4.1). *)
Fixpoint chain_from (fuel : nat) (f : FlowDefinition) (loop id : string)
    : list FlowNode * bool :=
  match fuel with
  | 0 => ([], false)
  | S fuel' =>
      if String.eqb id loop then ([], true)
      else
        match find_node (flow_nodes f) id with
        | Some n =>
            if chainable f n then
              match out_edges f id with
              | e :: _ =>
                  let '(rest, closed) := chain_from fuel' f loop (edge_to e) in
                  (n :: rest, closed)
              | [] => ([], false)
              end
            else ([], false)
        | None => ([], false)
        end
  end.

(** Modelled from the spec: whether the chain behind an edge comes back
    to the loop node, and whether an id names a Loop node (4.1, 4.6). *)
Definition closes (f : FlowDefinition) (loop : string) (e : FlowEdge) : bool :=
  snd (chain_from (List.length (flow_nodes f)) f loop (edge_to e)).

Definition is_loop (f : FlowDefinition) (id : string) : bool :=
  match find_node (flow_nodes f) id with
  | Some n => match kind n with LoopNode _ _ => true | _ => false end
  | None => false
  end.

(** Modelled from the spec: an edge that leads a loop node into its body:
    the chain behind it comes back to the loop node.  These are the edges
    that close the cycles a valid flow may have. *)
Definition enters_body (f : FlowDefinition) (e : FlowEdge) : bool :=
  is_loop f (edge_source e) && closes f (edge_source e) e.

(** Modelled from the spec: the body of a loop node, "reachable through its
    single output" (section 3): the chain that comes back to the loop node,
    when there is one (the other edges of the output then leave the loop);
    otherwise the chain behind the only outgoing edge, after whose last node
    the flow goes on.  The flag tells the first case. *)
Definition loop_body (f : FlowDefinition) (loop : FlowNode)
    : list FlowNode * bool :=
  let id := node_id (base loop) in
  let fuel := List.length (flow_nodes f) in
  match List.find (closes f id) (out_edges f id) with
  | Some e => (fst (chain_from fuel f id (edge_to e)), true)
  | None =>
      match out_edges f id with
      | [e] => (fst (chain_from fuel f id (edge_to e)), false)
      | _ => ([], false)
      end
  end.

(** ** What arrives at a node *)

(** Modelled from the spec: the outputs a node takes its input values
    from: those its incoming edges leave, in edge declaration order (4.4),
    then those of its declared inputs that no edge delivers. *)
Definition input_keys (f : FlowDefinition) (n : FlowNode) : list string :=
  dedupe [] (map (edge_key f) (in_edges f (node_id (base n)))
             ++ map input_from (declared_inputs n)).

(** Modelled from the spec: the input values that have been produced, in
    that order. *)
Definition arriving (f : FlowDefinition) (ctx : ExecutionContext) (n : FlowNode)
    : list Value :=
  omap (fun key => bindings ctx !! key) (input_keys f n).

(** Modelled from the spec: the value arriving at a node: that of its
    single input, or the ordered collection of the values of its inputs. *)
Definition incoming (vs : list Value) : Value :=
  match vs with
  | [v] => v
  | _ => VList vs
  end.

(** Modelled from the spec: the value a node that only selects a path
    passes on: what arrives at its inputs (4.3, 4.4). *)
Definition passed (f : FlowDefinition) (ctx : ExecutionContext) (n : FlowNode)
    : Value :=
  incoming (arriving f ctx n).

(** Modelled from the spec: an optional guard condition holds when it is
    absent or evaluates to true against the current context (4.1). *)
Definition holds `{Collaborators} (condition : option string)
    (ctx : ExecutionContext) : bool :=
  match condition with
  | Some c => eval_condition c (bindings ctx) (transcript ctx)
  | None => true
  end.

(** ** Node handlers (4.2 to 4.7) *)

(** Modelled from the spec: the outgoing edges a handler selects: those of
    its declared output label, or every outgoing edge for a Parallel node. *)
Inductive Selection :=
| SelLabel (label : string)
| SelAll.

(** Modelled from the spec: the outcome of a node handler: the node fired,
    and the outgoing edges of [from] at the selected output are to be
    resolved ([from] is the node itself, or the last node of the body of a
    loop); the node is an Output and was reached with its value; or the node
    failed. *)
Inductive HandlerResult :=
| Fired (from : FlowNode) (sel : Selection) (ctx : ExecutionContext)
| Finished (value : Value) (ctx : ExecutionContext)
| Failed (err : FlowError) (ctx : ExecutionContext).

(** Modelled from the spec: whether an edge leaves the node at the output
    its handler selected (4.1); an edge into the body of a loop is followed
    by the loop handler only. *)
Definition resolves (f : FlowDefinition) (e : FlowEdge) (n : FlowNode)
    (sel : Selection) : bool :=
  String.eqb (edge_source e) (node_id (base n)) && negb (enters_body f e) &&
  match sel with
  | SelAll => true
  | SelLabel l =>
      match edge_output e with
      | Some l' => String.eqb l' l
      | None => String.eqb l (sole_output n)
      end
  end.

(** Modelled from the spec: Input, the flow's start: the task input is
    produced at its single output. *)
Definition handle_input (task : string) (n : FlowNode) (ctx : ExecutionContext)
    : HandlerResult :=
  Fired n (SelLabel (sole_output n))
        (bind_output (output_key n (sole_output n)) (VText task) ctx).

(** Modelled from the spec: Output, a terminal: it is reached with the
    value that arrives (4.1). *)
Definition handle_output (f : FlowDefinition) (n : FlowNode)
    (ctx : ExecutionContext) : HandlerResult :=
  Finished (passed f ctx n) ctx.

(** Modelled from the spec: Agent (4.2): resolve the agent definition, layer
    the call settings, ask the strategy for the turn; on success the turn
    joins the transcript and the text is bound to the node's sole output, on
    failure the run gets a provider failure. *)
Definition handle_agent `{Collaborators} (doc : FlowDocument) (opts : Options)
    (n : FlowNode) (agent : string) (prompt : option string)
    (tools : option (list string)) (parameters : option CallSettings)
    (ctx : ExecutionContext) : HandlerResult :=
  let id := node_id (base n) in
  match List.find (fun a => String.eqb (agent_id a) agent) (doc_agents doc) with
  | None => Failed (UnknownAgent id agent) ctx
  | Some a =>
      let settings :=
        effective_settings parameters (agent_defaults a) (default_settings opts) in
      let subset := default (default [] (agent_tools a)) tools in
      let ctx1 := log_events [ModelCall id] ctx in
      match agent_turn a prompt subset settings (transcript ctx) with
      | Answer text =>
          let turn := {| turn_node := id; turn_speaker := agent; turn_text := text |} in
          Fired n (SelLabel (sole_output n))
                (bind_output (output_key n (sole_output n)) (VText text)
                   (append_turns [turn] ctx1))
      | Refusal cause => Failed (ProviderError id cause) ctx1
      end
  end.

(** Modelled from the spec: Decision (4.3): choose exactly one declared
    output label.  Rule strategy: the first output, in declared order, whose
    condition is true (an output without condition is the catch-all).  LLM
    strategy: a classification call among the declared labels, whose turn is
    recorded; a label that is not declared is a failure.  Only the chosen
    output is produced. *)
Definition handle_decision `{Collaborators} (f : FlowDefinition) (n : FlowNode)
    (prompt : option string) (strategy : option DecisionStrategy)
    (ctx : ExecutionContext) : HandlerResult :=
  let id := node_id (base n) in
  match strategy with
  | Some StrategyRule =>
      match List.find (fun o => holds (output_condition o) ctx) (declared_outputs n) with
      | Some o =>
          Fired n (SelLabel (output_label o))
                (bind_output (output_key n (output_label o)) (passed f ctx n) ctx)
      | None => Failed (DecisionNoMatch id) ctx
      end
  | _ =>
      let ctx1 := log_events [ModelCall id] ctx in
      match classify prompt (declared_labels n) (transcript ctx) with
      | Answer label =>
          if mem label (declared_labels n) then
            let turn := {| turn_node := id; turn_speaker := id; turn_text := label |} in
            Fired n (SelLabel label)
                  (bind_output (output_key n label) (passed f ctx n)
                     (append_turns [turn] ctx1))
          else Failed (DecisionUnlisted id label) ctx1
      | Refusal cause => Failed (ProviderError id cause) ctx1
      end
  end.

(** Modelled from the spec: Tool (4.5): resolve the tool, invoke the
    registry on the values that arrive, bind the result to the node's
    output; a tool failure is a failure of its own kind. *)
Definition handle_tool `{Collaborators} (doc : FlowDocument) (f : FlowDefinition)
    (n : FlowNode) (tool : string) (ctx : ExecutionContext) : HandlerResult :=
  let id := node_id (base n) in
  match List.find (fun t => String.eqb (tool_id t) tool) (doc_tools doc) with
  | None => Failed (UnknownTool id tool) ctx
  | Some t =>
      let ctx1 := log_events [ToolCall id tool] ctx in
      match invoke t (arriving f ctx n) with
      | Answer text =>
          Fired n (SelLabel (sole_output n))
                (bind_output (output_key n (sole_output n)) (VText text) ctx1)
      | Refusal cause => Failed (ToolError id tool cause) ctx1
      end
  end.

(** Modelled from the spec: Merge (4.4): a structural join.  Its output
    binding is the ordered collection of the input values, in edge
    declaration order; it calls no model.  That it fires only once its
    inputs are satisfied is the join rule of the interpreter (4.1). *)
Definition handle_merge (f : FlowDefinition) (n : FlowNode) (ctx : ExecutionContext)
    : HandlerResult :=
  Fired n (SelLabel (sole_output n))
        (bind_output (output_key n (sole_output n)) (VList (arriving f ctx n)) ctx).

(** Modelled from the spec: Parallel (4.4): fans out along every outgoing
    edge whose guard is true; what arrives is passed on at each declared
    output.  The branches are run by the interpreter; what the converge flag
    asks for is its matter too. *)
Definition handle_parallel (f : FlowDefinition) (n : FlowNode)
    (ctx : ExecutionContext) : HandlerResult :=
  let labels := match declared_labels n with [] => ["out"] | ls => ls end in
  Fired n SelAll
        (fold_right (fun l c => bind_output (output_key n l) (passed f ctx n) c)
                    ctx labels).

(** ** The state of the interpreter (4.1) *)

(** Modelled from the spec: what the driver loop keeps of a flow run: the
    targets of resolved edges that have not fired since ([triggered], seeded
    with the entry node; those whose inputs are satisfied form the ready
    set), the nodes that fired, the Output nodes reached with their values,
    the edges that resolved (source and target), the branches spawned by
    Parallel nodes without converge, and the execution context. *)
Record Machine := {
  triggered : list string;
  fired : list string;
  reached : list (string * Value);
  resolved : list (string * string);
  detached : list string;
  ctx : ExecutionContext;
}.

(** Modelled from the spec: the result of a run: success at an Output node,
    or a typed failure; both with the final state, which holds the
    transcript and the audit trail (section 6, [run]). *)
Inductive RunResult :=
| Completed (m : Machine)
| Aborted (err : FlowError) (m : Machine).

(** Modelled from the spec: the terminal output value of a run: the value
    of the Output node reached last. *)
Definition final_output (m : Machine) : Value :=
  match last (reached m) with
  | Some (_, v) => v
  | None => VList []
  end.

(** Modelled from the spec: a state with another execution context;
    only handlers change the context (section 3). *)
Definition with_ctx (m : Machine) (c : ExecutionContext) : Machine :=
  {| triggered := triggered m; fired := fired m; reached := reached m;
     resolved := resolved m; detached := detached m; ctx := c |}.

(** ** Subflow (4.7) *)

(** Modelled from the spec: flows are stored by id in a lookup table
    (section 9). *)
Definition find_flow (doc : FlowDocument) (id : string) : option FlowDefinition :=
  List.find (fun f => String.eqb (flow_id f) id) (doc_flows doc).

(** Modelled from the spec: the child context of a subflow run: the
    transcript is seeded from the parent's, the target flow id is pushed on
    the call stack, bindings and counters are fresh (4.7). *)
Definition child_context (target : string) (c : ExecutionContext)
    : ExecutionContext :=
  {| transcript := transcript c;
     bindings := ∅;
     call_stack := target :: call_stack c;
     iterations := ∅;
     events := events c ++ [SubflowEntered target] |}.

(** Modelled from the spec: when the child run is over, what it wrote
    reaches the parent: its transcript, which was seeded from the parent's,
    and its audit trail; the bindings and counters of the child are
    discarded (section 3, 4.7). *)
Definition adopt (child parent : ExecutionContext) : ExecutionContext :=
  {| transcript := transcript child;
     bindings := bindings parent;
     call_stack := call_stack parent;
     iterations := iterations parent;
     events := events child |}.

(** Modelled from the spec: Subflow (4.7): if the target flow id is
    already on the call stack the run fails at once with a cycle-detected
    error rather than recursing; otherwise the target flow runs in a child
    context, and when it completes its output is bound in the parent's
    context.  [sub] is the nested run; it answers [None] when it is out of
    fuel. *)
Definition handle_subflow
    (sub : FlowDefinition -> ExecutionContext -> option RunResult)
    (doc : FlowDocument) (n : FlowNode) (target : string) (c : ExecutionContext)
    : option HandlerResult :=
  let c1 := log_events [SubflowCall (node_id (base n)) target] c in
  if mem target (call_stack c) then Some (Failed (CycleDetected target) c1)
  else
    match find_flow doc target with
    | None => Some (Failed (UnknownFlow target) c1)
    | Some child =>
        match sub child (child_context target c1) with
        | None => None
        | Some (Completed cm) =>
            Some (Fired n (SelLabel (sole_output n))
                        (bind_output (output_key n (sole_output n)) (final_output cm)
                           (log_events [SubflowLeft target] (adopt (ctx cm) c1))))
        | Some (Aborted err cm) => Some (Failed err (adopt (ctx cm) c1))
        end
    end.

(** ** Loop (4.6) *)

(** Modelled from the spec: the outcome of the body of a loop. *)
Inductive BodyResult :=
| BodyDone (c : ExecutionContext)
| BodyFailed (err : FlowError) (c : ExecutionContext).

(** Modelled from the spec: the handler of a node of a loop body. *)
Definition exec_chain_node `{Collaborators}
    (sub : FlowDefinition -> ExecutionContext -> option RunResult)
    (doc : FlowDocument) (opts : Options) (f : FlowDefinition)
    (n : FlowNode) (c : ExecutionContext) : option HandlerResult :=
  match kind n with
  | AgentNode agent prompt tools parameters =>
      Some (handle_agent doc opts n agent prompt tools parameters c)
  | ToolNode tool => Some (handle_tool doc f n tool c)
  | SubflowNode target => handle_subflow sub doc n target c
  | _ => Some (Failed (DeadEnd (flow_id f)) c)
  end.

(** Modelled from the spec: one pass over the body: its nodes are executed
    in order; the edge to the next node has to resolve (4.1), or the pass is
    a dead end.  The edge behind the last node of a body that does not come
    back to the loop is resolved by the interpreter when the loop is left. *)
Fixpoint run_chain `{Collaborators}
    (exec : FlowNode -> ExecutionContext -> option HandlerResult)
    (f : FlowDefinition) (closed : bool) (body : list FlowNode)
    (c : ExecutionContext) : option BodyResult :=
  match body with
  | [] => Some (BodyDone c)
  | n :: rest =>
      match exec n c with
      | None => None
      | Some (Fired from sel c') =>
          let leaves := match rest with [] => negb closed | _ => false end in
          if leaves
             || existsb (fun e => resolves f e from sel && holds (edge_condition e) c')
                        (out_edges f (node_id (base n)))
          then run_chain exec f closed rest c'
          else Some (BodyFailed (DeadEnd (flow_id f)) c')
      | Some (Finished _ c') => Some (BodyFailed (DeadEnd (flow_id f)) c')
      | Some (Failed err c') => Some (BodyFailed err c')
      end
  end.

(** Modelled from the spec: Loop (4.6): run the body until the break
    condition holds against the context after an iteration or the iteration
    count reaches the maximum, whichever comes first; reaching the maximum is
    a normal exit.  [remaining] iterations are left, [done] have been made;
    the counter lives in the context. *)
Fixpoint iterate `{Collaborators}
    (exec : FlowNode -> ExecutionContext -> option HandlerResult)
    (f : FlowDefinition) (closed : bool) (body : list FlowNode)
    (remaining done : nat) (loop : FlowNode) (condition : option string)
    (c : ExecutionContext) : option BodyResult :=
  match remaining with
  | 0 => Some (BodyDone c)
  | S remaining' =>
      match run_chain exec f closed body c with
      | None => None
      | Some (BodyFailed err c') => Some (BodyFailed err c')
      | Some (BodyDone c1) =>
          let c2 := set_iterations (node_id (base loop)) (S done) c1 in
          if match condition with
             | Some cond => eval_condition cond (bindings c2) (transcript c2)
             | None => false
             end
          then Some (BodyDone c2)
          else iterate exec f closed body remaining' (S done) loop condition c2
      end
  end.

(** Modelled from the spec: the Loop handler (4.6): the counter is reset
    when the loop node is entered, and what arrives is passed to the body at
    the output of the loop node; a loop without maximum makes no iteration.
    When the loop is left, the flow goes on behind the loop node or, for a
    body that does not come back to it, behind the last node of the body. *)
Definition handle_loop `{Collaborators}
    (exec : FlowNode -> ExecutionContext -> option HandlerResult)
    (f : FlowDefinition) (n : FlowNode) (max_iterations : option number)
    (condition : option string) (c : ExecutionContext) : option HandlerResult :=
  let '(body, closed) := loop_body f n in
  let c0 :=
    bind_output (output_key n (sole_output n)) (passed f c n)
      (set_iterations (node_id (base n)) 0 c) in
  match iterate exec f closed body (Z.to_nat (default 0%Z max_iterations)) 0
                n condition c0 with
  | None => None
  | Some (BodyFailed err c') => Some (Failed err c')
  | Some (BodyDone c') =>
      let from := if closed then n else default n (last body) in
      Some (Fired from (SelLabel (sole_output from)) c')
  end.

(** Modelled from the spec: handlers dispatch by the tag of the node
    (section 9). *)
Definition exec_node `{Collaborators}
    (sub : FlowDefinition -> ExecutionContext -> option RunResult)
    (doc : FlowDocument) (opts : Options) (task : string) (f : FlowDefinition)
    (n : FlowNode) (c : ExecutionContext) : option HandlerResult :=
  match kind n with
  | InputNode => Some (handle_input task n c)
  | OutputNode => Some (handle_output f n c)
  | AgentNode agent prompt tools parameters =>
      Some (handle_agent doc opts n agent prompt tools parameters c)
  | DecisionNode prompt strategy => Some (handle_decision f n prompt strategy c)
  | ToolNode tool => Some (handle_tool doc f n tool c)
  | MergeNode => Some (handle_merge f n c)
  | ParallelNode _ => Some (handle_parallel f n c)
  | LoopNode max_iterations condition =>
      handle_loop (exec_chain_node sub doc opts f) f n max_iterations condition c
  | SubflowNode target => handle_subflow sub doc n target c
  end.

(** ** The join rule (4.1) *)

(** Modelled from the spec: an input is satisfied when a value has been
    produced at the output it names (4.1). *)

Definition bound (c : ExecutionContext) (key : string) : bool :=
  bool_decide (is_Some (bindings c !! key)).

(** Modelled from the spec: an edge is dead when nothing can come along
    it any more: its source fired without producing the output the edge
    leaves (a Decision chose another output, 4.3), or its source is itself
    on a branch that was not taken.  An edge whose guard is false is not
    dead: the output it leaves was produced, and what lies behind the edge
    keeps waiting (the withheld input of section 8, the dead end of 4.1). *)
Definition dead_edge (f : FlowDefinition) (m : Machine) (skip : list string)
    (e : FlowEdge) : bool :=
  mem (edge_source e) skip
  || (mem (edge_source e) (fired m) && negb (bound (ctx m) (edge_key f e))).

(** Modelled from the spec: one round of the propagation of branches
    that were not taken: the nodes that did not fire and all of whose
    incoming edges are dead. *)
Definition skip_step (f : FlowDefinition) (m : Machine) (skip : list string)
    : list string :=
  map (fun n => node_id (base n))
      (List.filter
         (fun n =>
            let id := node_id (base n) in
            negb (mem id (fired m))
            && negb (List.length (in_edges f id) =? 0)%nat
            && forallb (dead_edge f m skip) (in_edges f id))
         (flow_nodes f)).

(** Modelled from the spec: the nodes on branches that were not taken: the
    end-to-end scenario of section 8 has a rule Decision take one of three
    branches and the Merge behind them fire all the same. *)
Definition skipped (f : FlowDefinition) (m : Machine) : list string :=
  Nat.iter (List.length (flow_nodes f)) (skip_step f m) [].

(** Modelled from the spec: an input is excused when it has not been
    produced and cannot be any more: its source fired without producing it,
    or is on a branch that was not taken. *)
Definition excused (f : FlowDefinition) (m : Machine) (key : string) : bool :=
  negb (bound (ctx m) key)
  && (mem (fst (split slash key)) (fired m)
      || mem (fst (split slash key)) (skipped f m)).

(** Modelled from the spec: the join rule: a target becomes ready once
    all of its declared inputs are satisfied (4.1): each has produced a
    value, but for those of branches that were not taken. *)
Definition satisfied (f : FlowDefinition) (m : Machine) (n : FlowNode) : bool :=
  forallb (fun i => bound (ctx m) (input_from i) || excused f m (input_from i))
          (declared_inputs n).

(** ** Parallel regions (4.4) *)

(** Modelled from the spec: the nodes an edge leads to from a node, the
    entry into a loop body apart, and those one step further. *)

Definition successors (f : FlowDefinition) (id : string) : list string :=
  map edge_to
      (List.filter (fun e => String.eqb (edge_source e) id && negb (enters_body f e))
                   (flow_edges f)).

Definition grow (f : FlowDefinition) (ids : list string) : list string :=
  ids ++ dedupe ids (flat_map (successors f) ids).

(** Modelled from the spec: the nodes that can be reached from a node
    along one edge or more: what lies behind it (4.4). *)
Definition descendants (f : FlowDefinition) (id : string) : list string :=
  Nat.iter (List.length (flow_nodes f)) (grow f) (dedupe [] (successors f id)).

Definition reaches (f : FlowDefinition) (a b : string) : bool :=
  mem b (descendants f a).

(** Modelled from the spec: whether an id names a Parallel node whose
    converge flag is set (4.4). *)
Definition converges (f : FlowDefinition) (id : string) : bool :=
  match find_node (flow_nodes f) id with
  | Some n => match kind n with ParallelNode (Some true) => true | _ => false end
  | None => false
  end.

(** Modelled from the spec: under converge the engine must not advance
    past the join of the branches until every spawned branch has completed
    (4.4): a node behind a Parallel node with converge that fired is held
    while another node of that region, from which it can be reached, is
    still to fire. *)
Definition held (f : FlowDefinition) (m : Machine) (id : string) : bool :=
  existsb
    (fun p =>
       converges f p
       && existsb (fun x => negb (String.eqb x id) && reaches f p x && reaches f x id)
                  (triggered m))
    (fired m).

(** Modelled from the spec: the ready set: the triggered nodes whose
    inputs are satisfied and that no region holds back. *)
Definition eligible (f : FlowDefinition) (m : Machine) (id : string) : bool :=
  match find_node (flow_nodes f) id with
  | Some n => satisfied f m n && negb (held f m id)
  | None => true
  end.

(** Modelled from the spec: the ready node the driver loop pops: the
    first one, in the order in which the nodes were triggered (4.1). *)
Definition pick (f : FlowDefinition) (m : Machine) : option string :=
  List.find (eligible f m) (triggered m).

(** Modelled from the spec: a Parallel node without converge detaches its
    branches (4.4). *)
Definition detaches (n : FlowNode) : bool :=
  match kind n with
  | ParallelNode (Some true) => false
  | ParallelNode _ => true
  | _ => false
  end.

(** Modelled from the spec: the nodes a branch has come to along
    resolved edges (4.4). *)
Definition trail_step (pairs : list (string * string)) (ids : list string)
    : list string :=
  ids ++ dedupe ids
           (map snd (List.filter (fun p => mem (fst p) ids) pairs)).

Definition trail (m : Machine) (root : string) : list string :=
  Nat.iter (List.length (resolved m)) (trail_step (resolved m)) [root].

(** Modelled from the spec: "the safe implementation treats every detached
    branch as still required to reach some Output before the overall run is
    considered complete" (4.4). *)
Definition branch_closed (m : Machine) (root : string) : bool :=
  existsb (fun o => mem o (trail m root)) (map fst (reached m)).

(** ** The interpreter (4.1) *)

(** Modelled from the spec: one round of the driver loop either goes on
    or ends the run (4.1). *)
Inductive Step :=
| Continue (m : Machine)
| Stop (r : RunResult).

(** Modelled from the spec: reaching an Output node ends the run
    successfully (4.1), once every detached branch has reached one (4.4). *)
Definition conclude (m : Machine) : Step :=
  if negb (List.length (reached m) =? 0)%nat && forallb (branch_closed m) (detached m)
  then Stop (Completed m)
  else Continue m.

(** Modelled from the spec: the edges a fired node resolves: its outgoing
    edges at the selected output whose guard is true (4.1). *)
Definition resolved_edges `{Collaborators} (f : FlowDefinition) (from : FlowNode)
    (sel : Selection) (c : ExecutionContext) : list FlowEdge :=
  List.filter (fun e => resolves f e from sel && holds (edge_condition e) c)
              (flow_edges f).

(** The ids of a list other than [id]. *)
Definition without (id : string) (ids : list string) : list string :=
  List.filter (fun t => negb (String.eqb t id)) ids.

(** Modelled from the spec: what the driver loop does with the result of
    the handler of node [id]: a failure aborts the run; an Output node is
    reached; the targets of the edges a fired node resolves are triggered
    (4.1), and are detached branches behind a Parallel node without
    converge (4.4). *)
Definition fire `{Collaborators} (f : FlowDefinition) (m : Machine) (id : string)
    (n : FlowNode) (r : HandlerResult) : Step :=
  match r with
  | Failed err c' => Stop (Aborted err (with_ctx m c'))
  | Finished value c' =>
      conclude
        {| triggered := without id (triggered m);
           fired := fired m ++ [id];
           reached := reached m ++ [(id, value)];
           resolved := resolved m;
           detached := detached m;
           ctx := c' |}
  | Fired from sel c' =>
      let targets := map edge_to (resolved_edges f from sel c') in
      let rest := without id (triggered m) in
      conclude
        {| triggered := rest ++ dedupe rest targets;
           fired := fired m ++ [id];
           reached := reached m;
           resolved := resolved m ++ map (fun t => (id, t)) targets;
           detached := detached m ++ (if detaches n then targets else []);
           ctx := c' |}
  end.

(** Modelled from the spec: one round of the driver loop: pop a ready node
    and invoke its handler; no ready node is a dead end.  [None] is a nested
    run out of fuel. *)
Definition step `{Collaborators}
    (sub : FlowDefinition -> ExecutionContext -> option RunResult)
    (doc : FlowDocument) (opts : Options) (task : string) (f : FlowDefinition)
    (m : Machine) : option Step :=
  match pick f m with
  | None => Some (Stop (Aborted (DeadEnd (flow_id f)) m))
  | Some id =>
      match find_node (flow_nodes f) id with
      | None => Some (Stop (Aborted (UnknownNode id) m))
      | Some n =>
          match exec_node sub doc opts task f n (ctx m) with
          | None => None
          | Some r => Some (fire f m id n r)
          end
      end
  end.

(** Modelled from the spec: the driver loop.  [None] is out of fuel. *)
Fixpoint drive `{Collaborators} (fuel : nat)
    (sub : FlowDefinition -> ExecutionContext -> option RunResult)
    (doc : FlowDocument) (opts : Options) (task : string) (f : FlowDefinition)
    (m : Machine) : option RunResult :=
  match fuel with
  | 0 => None
  | S fuel' =>
      match step sub doc opts task f m with
      | None => None
      | Some (Stop r) => Some r
      | Some (Continue m') => drive fuel' sub doc opts task f m'
      end
  end.

(** Modelled from the spec: the ready set is seeded with the entry node
    (4.1). *)
Definition initial_machine (f : FlowDefinition) (c : ExecutionContext) : Machine :=
  {| triggered := [flow_entry f]; fired := []; reached := []; resolved := [];
     detached := []; ctx := c |}.

(** Modelled from the spec: a flow run.  [depth] bounds the nesting of
    subflow runs. *)
Fixpoint run_flow `{Collaborators} (depth fuel : nat) (doc : FlowDocument)
    (opts : Options) (task : string) (f : FlowDefinition) (c : ExecutionContext)
    : option RunResult :=
  match depth with
  | 0 => None
  | S depth' =>
      drive fuel (run_flow depth' fuel doc opts task) doc opts task f
            (initial_machine f c)
  end.

(** Modelled from the spec: the context created at the start of a run
    (section 3); the flow itself is in flight. *)
Definition initial_context (flowId : string) : ExecutionContext :=
  {| transcript := []; bindings := ∅; call_stack := [flowId];
     iterations := ∅; events := [] |}.

(** Modelled from the spec: the engine entry point
    [run(flowDocument, flowId, taskInput, options)].  Nested subflow runs are
    at most as deep as the document has flows. *)
Definition run `{Collaborators} (fuel : nat) (doc : FlowDocument) (flowId : string)
    (taskInput : string) (options : Options) : option RunResult :=
  match find_flow doc flowId with
  | None =>
      Some (Aborted (UnknownFlow flowId)
              {| triggered := []; fired := []; reached := []; resolved := [];
                 detached := []; ctx := initial_context flowId |})
  | Some f =>
      run_flow (S (List.length (doc_flows doc))) fuel doc options taskInput f
               (initial_context flowId)
  end.

(** ** Validity of a document (sections 3 and 4.1) *)

(** Modelled from the spec: "the graph must be acyclic except through Loop
    and Subflow nodes" (4.1): the nodes can be ranked so that every edge goes
    up, but for the edges that lead a loop node into its body. *)
Definition acyclic (f : FlowDefinition) : Prop :=
  exists rank : string -> nat,
    forall e, In e (flow_edges f) -> enters_body f e = false ->
              rank (edge_source e) < rank (edge_to e).

(** Modelled from the spec: a node is reachable from the entry node along
    the edges of the flow (4.1). *)
Inductive reachable (f : FlowDefinition) : string -> Prop :=
| reach_entry : reachable f (flow_entry f)
| reach_edge (e : FlowEdge) :
    In e (flow_edges f) -> reachable f (edge_source e) -> reachable f (edge_to e).

(** Modelled from the spec: a valid flow: node ids are unique, the entry
    names an existing node and has no incoming edge, every edge's source and
    target name existing nodes, every node is reachable from the entry, and
    the graph is acyclic except through Loop nodes (sections 3, 4.1
    and 7). *)
Record valid_flow (f : FlowDefinition) : Prop := {
  valid_ids : List.NoDup (map (fun n => node_id (base n)) (flow_nodes f));
  valid_entry : is_Some (find_node (flow_nodes f) (flow_entry f));
  valid_root : forall e, In e (flow_edges f) -> edge_to e <> flow_entry f;
  valid_edges :
    forall e, In e (flow_edges f) ->
      is_Some (find_node (flow_nodes f) (edge_source e)) /\
      is_Some (find_node (flow_nodes f) (edge_to e));
  valid_reachable :
    forall n, In n (flow_nodes f) -> reachable f (node_id (base n));
  valid_acyclic : acyclic f;
}.

(** Modelled from the spec: a valid document: flow ids are unique and every
    flow is valid. *)
Definition valid_document (doc : FlowDocument) : Prop :=
  List.NoDup (map flow_id (doc_flows doc)) /\
  forall f, In f (doc_flows doc) -> valid_flow f.

(** Modelled from the spec: flow [a] invokes flow [b]: it has a Subflow
    node that references [b] (section 3). *)
Definition invokes (doc : FlowDocument) (a b : string) : Prop :=
  exists fa n,
    In fa (doc_flows doc) /\ flow_id fa = a /\
    In n (flow_nodes fa) /\ kind n = SubflowNode b.

(** Modelled from the spec: a flow invokes another directly or
    transitively (section 3). *)
Inductive invokes_transitively (doc : FlowDocument) : string -> string -> Prop :=
| invokes_directly (a b : string) :
    invokes doc a b -> invokes_transitively doc a b
| invokes_through (a b c : string) :
    invokes doc a b -> invokes_transitively doc b c ->
    invokes_transitively doc a c.

(** ** Sample documents and sample collaborators *)

(** Collaborators that always answer: an agent with its id, a classifier
    with the first label, a tool with a fixed result; a condition holds when
    it is the text "true" or the text of the task input as bound at
    "start/out". *)
Definition sample_collaborators : Collaborators :=
  {| agent_turn a _ _ _ _ := Answer ("reply of " +:+ agent_id a);
     classify _ labels _ := Answer (List.hd "" labels);
     invoke _ _ := Answer "result";
     eval_condition c b _ :=
       String.eqb c "true" ||
       match b !! "start/out" with
       | Some (VText t) => String.eqb c t
       | _ => false
       end |}.

Definition sample_node (id : string) (inputs outputs : list string) (k : NodeKind)
    : FlowNode :=
  {| base :=
       {| node_id := id; node_name := None; node_description := None;
          node_inputs := Some (map (fun s => {| input_from := s |}) inputs);
          node_outputs :=
            Some (map (fun l => {| output_label := l; output_condition := None |})
                      outputs);
          node_layout := None |};
     kind := k |}.

Definition sample_edge (from to : string) : FlowEdge :=
  {| edge_from := from; edge_to := to; edge_condition := None; edge_label := None |}.

Definition guarded_edge (from to condition : string) : FlowEdge :=
  {| edge_from := from; edge_to := to; edge_condition := Some condition;
     edge_label := None |}.

Definition sample_agent (id : string) : AgentDefinition :=
  {| agent_id := id; agent_model := "openai/gpt-4o"; agent_name := None;
     agent_description := None; agent_system_prompt := None;
     agent_tools := None; agent_defaults := None |}.

Definition sample_document (flows : list FlowDefinition) : FlowDocument :=
  {| doc_version := "0.1"; doc_metadata := None;
     doc_agents := [sample_agent "writer"; sample_agent "tech";
                    sample_agent "billing"; sample_agent "general"];
     doc_tools := []; doc_prompts := []; doc_flows := flows |}.

Definition sample_options : Options :=
  {| default_settings :=
       {| cs_model := None; cs_temperature := None; cs_top_p := None;
          cs_max_tokens := None; cs_timeout_ms := None; cs_retry := None |} |}.

Definition writer (id : string) (inputs : list string) : FlowNode :=
  sample_node id inputs ["out"] (AgentNode "writer" None None None).

(** A Merge of the outputs of two agents. *)
Definition join_node : FlowNode :=
  sample_node "join" ["a/out"; "b/out"] ["out"] MergeNode.

(** Input, then two agents side by side under converge, joined by a Merge,
    then Output. *)
Definition sample_flow : FlowDefinition :=
  {| flow_id := "main"; flow_entry := "start";
     flow_nodes :=
       [sample_node "start" [] ["out"] InputNode;
        sample_node "fork" ["start/out"] ["left"; "right"] (ParallelNode (Some true));
        sample_node "a" ["fork/left"] ["out"] (AgentNode "tech" None None None);
        sample_node "b" ["fork/right"] ["out"] (AgentNode "billing" None None None);
        join_node;
        sample_node "finish" ["join/out"] [] OutputNode];
     flow_edges :=
       [sample_edge "start/out" "fork";
        sample_edge "fork/left" "a"; sample_edge "fork/right" "b";
        sample_edge "b/out" "join"; sample_edge "a/out" "join";
        sample_edge "join/out" "finish"] |}.

Definition sample_doc : FlowDocument := sample_document [sample_flow].

(** The end-to-end scenario of section 8: a rule Decision on the category
    of the task, three agent branches, a Merge of the three, an Output. *)
Definition triage_flow : FlowDefinition :=
  {| flow_id := "main"; flow_entry := "start";
     flow_nodes :=
       [sample_node "start" [] ["out"] InputNode;
        {| base :=
             {| node_id := "triage"; node_name := None; node_description := None;
                node_inputs := Some [{| input_from := "start/out" |}];
                node_outputs :=
                  Some [{| output_label := "tech"; output_condition := Some "tech" |};
                        {| output_label := "billing";
                           output_condition := Some "billing" |};
                        {| output_label := "general"; output_condition := None |}];
                node_layout := None |};
           kind := DecisionNode None (Some StrategyRule) |};
        sample_node "tech_agent" ["triage/tech"] ["out"]
                    (AgentNode "tech" None None None);
        sample_node "billing_agent" ["triage/billing"] ["out"]
                    (AgentNode "billing" None None None);
        sample_node "general_agent" ["triage/general"] ["out"]
                    (AgentNode "general" None None None);
        sample_node "join" ["tech_agent/out"; "billing_agent/out"; "general_agent/out"]
                    ["out"] MergeNode;
        sample_node "finish" ["join/out"] [] OutputNode];
     flow_edges :=
       [sample_edge "start/out" "triage";
        sample_edge "triage/tech" "tech_agent";
        sample_edge "triage/billing" "billing_agent";
        sample_edge "triage/general" "general_agent";
        sample_edge "tech_agent/out" "join";
        sample_edge "billing_agent/out" "join";
        sample_edge "general_agent/out" "join";
        sample_edge "join/out" "finish"] |}.

(** A Parallel node whose right branch is not spawned (the guard of its
    edge is false), in front of a Merge of both branches: the right input of
    the Merge is withheld. *)
Definition withheld_flow : FlowDefinition :=
  {| flow_id := "main"; flow_entry := "start";
     flow_nodes := flow_nodes sample_flow;
     flow_edges :=
       [sample_edge "start/out" "fork";
        sample_edge "fork/left" "a"; guarded_edge "fork/right" "b" "false";
        sample_edge "a/out" "join"; sample_edge "b/out" "join";
        sample_edge "join/out" "finish"] |}.

(** A Merge that declares an input no edge delivers. *)
Definition undelivered_flow : FlowDefinition :=
  {| flow_id := "main"; flow_entry := "start";
     flow_nodes := flow_nodes sample_flow;
     flow_edges :=
       [sample_edge "start/out" "fork";
        sample_edge "fork/left" "a"; sample_edge "fork/right" "b";
        sample_edge "a/out" "join";
        sample_edge "join/out" "finish"] |}.

(** A Parallel node with one Output node behind each of its two branches. *)
Definition two_outputs_flow (converge : option bool) : FlowDefinition :=
  {| flow_id := "main"; flow_entry := "start";
     flow_nodes :=
       [sample_node "start" [] ["out"] InputNode;
        sample_node "fork" ["start/out"] ["left"; "right"] (ParallelNode converge);
        writer "a" ["fork/left"]; writer "b" ["fork/right"];
        sample_node "o1" ["a/out"] [] OutputNode;
        sample_node "o2" ["b/out"] [] OutputNode];
     flow_edges :=
       [sample_edge "start/out" "fork";
        sample_edge "fork/left" "a"; sample_edge "fork/right" "b";
        sample_edge "a/out" "o1"; sample_edge "b/out" "o2"] |}.

(** A loop whose body, one agent, comes back to the loop node; the loop is
    left towards the Output node. *)
Definition loop_back_flow (max_iterations : option number) (condition : option string)
    : FlowDefinition :=
  {| flow_id := "main"; flow_entry := "start";
     flow_nodes :=
       [sample_node "start" [] ["out"] InputNode;
        sample_node "again" ["start/out"] ["out"] (LoopNode max_iterations condition);
        writer "work" ["again/out"];
        sample_node "finish" ["again/out"] [] OutputNode];
     flow_edges :=
       [sample_edge "start/out" "again"; sample_edge "again/out" "work";
        sample_edge "work/out" "again"; sample_edge "again/out" "finish"] |}.

(** A loop whose body is the chain behind its only edge. *)
Definition loop_chain_flow (max_iterations : option number) (condition : option string)
    : FlowDefinition :=
  {| flow_id := "main"; flow_entry := "start";
     flow_nodes :=
       [sample_node "start" [] ["out"] InputNode;
        sample_node "again" ["start/out"] ["out"] (LoopNode max_iterations condition);
        writer "work" ["again/out"];
        sample_node "finish" ["work/out"] [] OutputNode];
     flow_edges :=
       [sample_edge "start/out" "again"; sample_edge "again/out" "work";
        sample_edge "work/out" "finish"] |}.

(** A flow that calls an agent and then invokes itself, and a flow that
    invokes it. *)
Definition recursive_flow : FlowDefinition :=
  {| flow_id := "inner"; flow_entry := "start";
     flow_nodes :=
       [sample_node "start" [] ["out"] InputNode;
        writer "work" ["start/out"];
        sample_node "again" ["work/out"] ["out"] (SubflowNode "inner");
        sample_node "finish" ["again/out"] [] OutputNode];
     flow_edges :=
       [sample_edge "start/out" "work"; sample_edge "work/out" "again";
        sample_edge "again/out" "finish"] |}.

Definition calling_flow (target : string) : FlowDefinition :=
  {| flow_id := "outer"; flow_entry := "start";
     flow_nodes :=
       [sample_node "start" [] ["out"] InputNode;
        sample_node "call" ["start/out"] ["out"] (SubflowNode target);
        sample_node "finish" ["call/out"] [] OutputNode];
     flow_edges :=
       [sample_edge "start/out" "call"; sample_edge "call/out" "finish"] |}.

(** A flow with one agent between Input and Output. *)
Definition worker_flow : FlowDefinition :=
  {| flow_id := "worker"; flow_entry := "start";
     flow_nodes :=
       [sample_node "start" [] ["out"] InputNode;
        writer "work" ["start/out"];
        sample_node "finish" ["work/out"] [] OutputNode];
     flow_edges :=
       [sample_edge "start/out" "work"; sample_edge "work/out" "finish"] |}.

(** Two flows, the second of which invokes the first. *)
Definition flow_a : FlowDefinition :=
  {| flow_id := "A"; flow_entry := "start";
     flow_nodes := [sample_node "start" [] ["out"] InputNode;
                    sample_node "call_b" ["start/out"] ["out"] (SubflowNode "")];
     flow_edges := [sample_edge "start/out" "call_b"] |}.

Definition flow_b : FlowDefinition :=
  {| flow_id := "B"; flow_entry := "begin";
     flow_nodes := [sample_node "begin" [] ["out"] InputNode;
                    sample_node "call_a" ["begin/out"] ["out"] (SubflowNode "A")];
     flow_edges := [sample_edge "begin/out" "call_a"] |}.

(** A Merge behind an edge whose guard is false: its declared input is
    produced, the edge that leads to it does not resolve. *)
Definition guarded_join_flow : FlowDefinition :=
  {| flow_id := "main"; flow_entry := "start";
     flow_nodes :=
       [sample_node "start" [] ["out"] InputNode;
        writer "work" ["start/out"];
        sample_node "join" ["work/out"] ["out"] MergeNode;
        sample_node "finish" ["join/out"] [] OutputNode];
     flow_edges :=
       [sample_edge "start/out" "work"; guarded_edge "work/out" "join" "false";
        sample_edge "join/out" "finish"] |}.

(** Collaborators whose model provider is not available to the agent
    "billing". *)
Definition strict_collaborators : Collaborators :=
  {| agent_turn a _ _ _ _ :=
       if String.eqb (agent_id a) "billing" then Refusal "unavailable"
       else Answer ("reply of " +:+ agent_id a);
     classify _ labels _ := Answer (List.hd "" labels);
     invoke _ _ := Answer "result";
     eval_condition c _ _ := String.eqb c "true" |}.

(** A Parallel node without converge with a short branch, one agent in
    front of an Output node, and a long one, two agents in front of
    another. *)
Definition uneven_branches_flow : FlowDefinition :=
  {| flow_id := "main"; flow_entry := "start";
     flow_nodes :=
       [sample_node "start" [] ["out"] InputNode;
        sample_node "fork" ["start/out"] ["left"; "right"] (ParallelNode None);
        writer "a" ["fork/left"];
        writer "x" ["fork/right"];
        sample_node "b" ["x/out"] ["out"] (AgentNode "billing" None None None);
        sample_node "o1" ["a/out"] [] OutputNode;
        sample_node "o2" ["b/out"] [] OutputNode];
     flow_edges :=
       [sample_edge "start/out" "fork";
        sample_edge "fork/left" "a"; sample_edge "fork/right" "x";
        sample_edge "a/out" "o1"; sample_edge "x/out" "b";
        sample_edge "b/out" "o2"] |}.

(** ** Auxiliary notions for the properties of the engine model *)

Definition result_machine (res : RunResult) : Machine :=
  match res with
  | Completed m | Aborted _ m => m
  end.

Definition result_error (res : RunResult) : option FlowError :=
  match res with
  | Completed _ => None
  | Aborted err _ => Some err
  end.

Definition handler_ctx (r : HandlerResult) : ExecutionContext :=
  match r with
  | Fired _ _ c | Finished _ c | Failed _ c => c
  end.

Definition handler_error (r : HandlerResult) : option FlowError :=
  match r with
  | Failed err _ => Some err
  | _ => None
  end.

Definition body_ctx (r : BodyResult) : ExecutionContext :=
  match r with
  | BodyDone c | BodyFailed _ c => c
  end.

Definition body_error (r : BodyResult) : option FlowError :=
  match r with
  | BodyDone _ => None
  | BodyFailed err _ => Some err
  end.

Definition step_machine (s : Step) : Machine :=
  match s with
  | Continue m => m
  | Stop r => result_machine r
  end.

Definition step_error (s : Step) : option FlowError :=
  match s with
  | Continue _ => None
  | Stop r => result_error r
  end.

(** An error other than the rejection of a subflow cycle. *)
Definition plain (err : FlowError) : Prop := forall t, err <> CycleDetected t.

(** The states the driver loop goes through, the first one first. *)
Fixpoint visited `{Collaborators} (fuel : nat)
    (sub : FlowDefinition -> ExecutionContext -> option RunResult)
    (doc : FlowDocument) (opts : Options) (task : string) (f : FlowDefinition)
    (m : Machine) : list Machine :=
  match fuel with
  | 0 => []
  | S fuel' =>
      m :: match step sub doc opts task f m with
           | Some (Continue m') => visited fuel' sub doc opts task f m'
           | _ => []
           end
  end.

(** The states the driver loop goes through in the run of the flow
    [flowId] itself. *)
Definition run_states `{Collaborators} (fuel : nat) (doc : FlowDocument)
    (flowId : string) (taskInput : string) (options : Options) : list Machine :=
  match find_flow doc flowId with
  | None => []
  | Some f =>
      visited fuel (run_flow (List.length (doc_flows doc)) fuel doc options taskInput)
              doc options taskInput f (initial_machine f (initial_context flowId))
  end.

(** The flows in flight after a trail of events, the innermost first: a
    flow is in flight from the moment it is entered to the moment it is
    left. *)
Definition track (stack : list string) (ev : Event) : list string :=
  match ev with
  | SubflowEntered t => t :: stack
  | SubflowLeft _ => tl stack
  | _ => stack
  end.

Definition in_flight (stack : list string) (evs : list Event) : list string :=
  fold_left track evs stack.

(** Reading a trail of events from a call stack: the trail is in order
    ([Running], with the flows in flight at its end), or it ends with the
    invocation of a flow in flight ([Rejected]), or it is [Broken]: something
    follows the invocation of a flow in flight, or a flow in flight is
    entered. *)
Inductive Replay :=
| Running (stack : list string)
| Rejected (target : string)
| Broken.

Fixpoint replay (stack : list string) (evs : list Event) : Replay :=
  match evs with
  | [] => Running stack
  | SubflowCall _ t :: evs' =>
      if mem t stack then
        match evs' with
        | [] => Rejected t
        | _ => Broken
        end
      else replay stack evs'
  | SubflowEntered t :: evs' =>
      if mem t stack then Broken else replay (t :: stack) evs'
  | ev :: evs' => replay (track stack ev) evs'
  end.

(** What a handler or a run adds to the audit trail is in order: read from
    the call stack it leaves the call stack as it is, or, when the run is
    rejected for a cycle, ends with the invocation of the flow in flight. *)
Definition audited (c c' : ExecutionContext) (e : option FlowError) : Prop :=
  call_stack c' = call_stack c /\
  exists new,
    events c' = events c ++ new /\
    match e with
    | None => replay (call_stack c) new = Running (call_stack c)
    | Some err =>
        match replay (call_stack c) new with
        | Running _ => plain err
        | Rejected t => err = CycleDetected t
        | Broken => False
        end
    end.

(** The call stack lists the flows in flight, the innermost first: each
    was invoked by the one below it. *)
Fixpoint in_flight_chain (doc : FlowDocument) (stack : list string) : Prop :=
  match stack with
  | callee :: rest =>
      match rest with
      | caller :: _ => invokes doc caller callee /\ in_flight_chain doc rest
      | [] => True
      end
  | [] => True
  end.

(** The flow [f] runs with call stack [stack]: it is the innermost flow in
    flight. *)
Definition framed (doc : FlowDocument) (f : FlowDefinition) (stack : list string)
    : Prop :=
  In f (doc_flows doc) /\
  (exists rest, stack = flow_id f :: rest) /\
  in_flight_chain doc stack.

(** The measure of the interpreter loop on a flow whose nodes are ranked
    below [R]: a triggered node weighs [width ^ (R - rank)], the load of a
    list of triggered nodes is the sum of their weights. *)
Definition width (f : FlowDefinition) : nat := S (List.length (flow_edges f)).

Definition weight (f : FlowDefinition) (rank : string -> nat) (R : nat)
    (id : string) : nat :=
  width f ^ (R - rank id).

Definition load (f : FlowDefinition) (rank : string -> nat) (R : nat)
    (ids : list string) : nat :=
  list_sum (map (weight f rank R) ids).

(** A cycle error names a flow that invokes itself, directly or
    transitively. *)
Definition cycle_sound (doc : FlowDocument) (f : FlowDefinition)
    (c c' : ExecutionContext) (e : option FlowError) : Prop :=
  framed doc f (call_stack c) ->
  call_stack c' = call_stack c /\
  forall t, e = Some (CycleDetected t) -> invokes_transitively doc t t.

(** [N] units of fuel are enough for the loop of the flow [f]. *)
Definition enough_for (N : nat) (f : FlowDefinition) : Prop :=
  exists (rank : string -> nat) (R : nat),
    (forall e, In e (flow_edges f) -> enters_body f e = false ->
       rank (edge_source e) < rank (edge_to e)) /\
    (forall e, In e (flow_edges f) -> rank (edge_to e) <= R) /\
    load f rank R [flow_entry f] < N.

(** Whether the run is complete in a state: an Output node was reached and
    every detached branch has reached one. *)
Definition complete (m : Machine) : bool :=
  negb (List.length (reached m) =? 0)%nat && forallb (branch_closed m) (detached m).

(** A relation between the context a handler or a run of a flow starts
    from, the context it ends with and its error, if any, that the context
    updates keep and that is kept across the entry into a subflow and the
    return from it. *)
Record Kept (doc : FlowDocument)
    (Q : FlowDefinition -> ExecutionContext -> ExecutionContext ->
         option FlowError -> Prop) : Prop := {
  kept_refl : forall f c, Q f c c None;
  kept_trans : forall f a b c e, Q f a b None -> Q f b c e -> Q f a c e;
  kept_bind : forall f k v c, Q f c (bind_output k v c) None;
  kept_turns : forall f ts c, Q f c (append_turns ts c) None;
  kept_count : forall f k n c, Q f c (set_iterations k n c) None;
  kept_model : forall f id c, Q f c (log_events [ModelCall id] c) None;
  kept_tool : forall f id t c, Q f c (log_events [ToolCall id t] c) None;
  kept_fail : forall f c err, plain err -> Q f c c (Some err);
  kept_cycle :
    forall f n target c,
      In n (flow_nodes f) -> kind n = SubflowNode target ->
      mem target (call_stack c) = true ->
      Q f c (log_events [SubflowCall (node_id (base n)) target] c)
        (Some (CycleDetected target));
  kept_call :
    forall f n target c,
      mem target (call_stack c) = false ->
      Q f c (log_events [SubflowCall (node_id (base n)) target] c) None;
  kept_child :
    forall f n target c child cc e,
      In n (flow_nodes f) -> kind n = SubflowNode target ->
      mem target (call_stack c) = false ->
      find_flow doc target = Some child ->
      Q child (child_context target c) cc e ->
      Q f c (match e with
             | None => log_events [SubflowLeft target] (adopt cc c)
             | Some _ => adopt cc c
             end) e;
}.

(** A handler or a run keeps the call stack and only appends to the
    transcript and to the audit trail. *)
Definition grows (c c' : ExecutionContext) : Prop :=
  call_stack c' = call_stack c /\
  transcript c `prefix_of` transcript c' /\
  events c `prefix_of` events c'.

(** A state of a run that goes on: the run is not complete, and the
    Output nodes reached are Output nodes of the flow that fired. *)
Definition outputs_fired (f : FlowDefinition) (m : Machine) : Prop :=
  forall o v, In (o, v) (reached m) ->
    In o (fired m) /\
    exists n, find_node (flow_nodes f) o = Some n /\ kind n = OutputNode.

Definition sound (f : FlowDefinition) (m : Machine) : Prop :=
  complete m = false /\ outputs_fired f m.

(** The outcome of a run of the flow [f] that went through [states]: the
    transcript of every state is part of the final transcript; a completed
    run has reached an Output node, and every detached branch has; when no
    branch was detached it has reached exactly one Output node, the last
    node that fired, picked from the ready set with its inputs satisfied, and
    the value that arrived there is the result; an aborted run is not
    complete. *)
Definition outcome (f : FlowDefinition) (states : list Machine) (res : RunResult)
    : Prop :=
  (forall m0, In m0 states ->
     transcript (ctx m0) `prefix_of` transcript (ctx (result_machine res))) /\
  outputs_fired f (result_machine res) /\
  match res with
  | Completed m =>
      reached m <> [] /\
      (forall root, In root (detached m) -> branch_closed m root = true) /\
      (detached m = [] ->
       exists o n m0,
         reached m = [(o, passed f (ctx m) n)] /\
         find_node (flow_nodes f) o = Some n /\ kind n = OutputNode /\
         last (fired m) = Some o /\
         last states = Some m0 /\ ctx m0 = ctx m /\
         In o (triggered m0) /\ satisfied f m0 n = true)
  | Aborted err m =>
      reached m = [] \/
      exists root, In root (detached m) /\ branch_closed m root = false
  end.

(** ** A checker of validity *)

(** The position of an id in a list of ids. *)
Fixpoint position (order : list string) (id : string) : nat :=
  match order with
  | [] => 0
  | x :: order' => if String.eqb x id then 0 else S (position order' id)
  end.

(** The nodes the entry node leads to along the edges of the flow. *)
Definition spread_along (f : FlowDefinition) (ids : list string) : list string :=
  ids ++ map edge_to (List.filter (fun e => mem (edge_source e) ids) (flow_edges f)).

Definition closure (f : FlowDefinition) : list string :=
  Nat.iter (List.length (flow_nodes f)) (spread_along f) [flow_entry f].

(** Whether a flow is valid, its nodes ranked by their position in
    [order]. *)
Definition check_flow (order : list string) (f : FlowDefinition) : bool :=
  bool_decide (NoDup (map (fun n => node_id (base n)) (flow_nodes f)))
  && bool_decide (is_Some (find_node (flow_nodes f) (flow_entry f)))
  && forallb (fun e => negb (String.eqb (edge_to e) (flow_entry f))) (flow_edges f)
  && forallb (fun e =>
                bool_decide (is_Some (find_node (flow_nodes f) (edge_source e)))
                && bool_decide (is_Some (find_node (flow_nodes f) (edge_to e))))
             (flow_edges f)
  && forallb (fun n => mem (node_id (base n)) (closure f)) (flow_nodes f)
  && forallb (fun e =>
                enters_body f e
                || (position order (edge_source e) <? position order (edge_to e))%nat)
             (flow_edges f).

(** The step of the driver loop in state [m] fires the node [id]. *)
Definition fires_at `{Collaborators}
    (sub : FlowDefinition -> ExecutionContext -> option RunResult)
    (doc : FlowDocument) (opts : Options) (task : string) (f : FlowDefinition)
    (m : Machine) (id : string) : Prop :=
  exists s, step sub doc opts task f m = Some s /\
            fired (step_machine s) = fired m ++ [id].

(** The node [id] is the first of the triggered nodes that is ready. *)
Definition first_ready (f : FlowDefinition) (m : Machine) (id : string) : Prop :=
  exists pre post,
    triggered m = pre ++ id :: post /\
    (forall x, In x pre -> eligible f m x = false) /\
    eligible f m id = true.

(** * More of the front end

    The remaining functions of the files embedded above: the node grid and
    the canvas nodes (frontend/src/utils/flowNodes.ts, unnamed/part_005), the
    flow kinds (frontend/src/utils/flowConfig.ts), the other actions of the
    application (unnamed/part_010), the node editor (unnamed/part_005), the
    API key, the request headers and the URLs of the API client
    (frontend/src/services/apiClient.ts), and the history of the flow
    manager hook (unnamed/part_001).

    The actions of [App] read the state of the render in which they were
    created and queue their updates; the functions below map that state to
    the state of the next render. *)

(** ** frontend/src/utils/flowNodes.ts *)

(** [defaultPosition(index)] for an array index: four columns, 220 apart,
    rows 180 apart. *)
Definition defaultPosition (index : nat) : NodeLayout :=
  {| layout_x := (120 + (Z.of_nat index mod 4) * 220)%Z;
     layout_y := (120 + (Z.of_nat index / 4) * 180)%Z |}.

(** ** frontend/src/utils/flowConfig.ts *)

Inductive FlowKind := Sequential | Handoff | ParallelKind | Group.

Definition allowedByKind (k : FlowKind) : list FlowNodeKindType :=
  match k with
  | Sequential => [TInput; TAgent; TDecision; TTool; TSubflow; TLoop; TOutput]
  | Handoff => [TInput; TAgent; TDecision; TOutput]
  | ParallelKind => [TInput; TAgent; TParallel; TMerge; TTool; TOutput]
  | Group => [TInput; TAgent; TDecision; TMerge; TOutput]
  end.

(** The kinds of [typeButtons], in order. *)
Definition typeButtons : list FlowNodeKindType :=
  [TAgent; TDecision; TTool; TMerge; TParallel; TLoop; TOutput; TSubflow].

(** [allowed.includes(type)]: the tags are compared as strings. *)
Definition includes (allowed : list FlowNodeKindType) (type : FlowNodeKindType) : bool :=
  existsb (fun k => String.eqb (type_literal k) (type_literal type)) allowed.

(** ** The canvas nodes (unnamed/part_005) *)

(** [ToInt32]: the integer wrapped into the signed 32-bit range. *)
Definition to_int32 (z : Z) : Z :=
  let m := (z mod 2 ^ 32)%Z in
  if (m <? 2 ^ 31)%Z then m else (m - 2 ^ 32)%Z.

(** [a << k] on integers. *)
Definition shl32 (a k : Z) : Z :=
  to_int32 (Z.shiftl (to_int32 a) (Z.land k 31)).

(** [stringToHue]: a rolling hash of the code units, reduced to a hue.  The
    sum [charCode + ((hash << 5) - hash)] is exact in floating point as long
    as it stays below 2^53, as it does for strings of a few million code
    units. *)
Definition stringToHue (str : string) : Z :=
  let hash :=
    fold_left (fun hash c => (Z.of_nat (nat_of_ascii c) + (shl32 hash 5 - hash))%Z)
              (list_ascii_of_string str) 0%Z in
  Z.abs (Z.rem hash 360%Z).

Record NodeStyle := {
  style_background : string;
  style_border : string;
  style_color : string;
}.

Definition getAgentStyle (agentId : string) : NodeStyle * string :=
  let hue := pretty (stringToHue agentId) in
  ({| style_background :=
        "linear-gradient(145deg, hsl(" +:+ hue +:+ ", 40%, 20%), hsl(" +:+ hue
        +:+ ", 40%, 10%))";
      style_border := "1px solid hsl(" +:+ hue +:+ ", 70%, 60%)";
      style_color := "hsl(" +:+ hue +:+ ", 90%, 90%)" |},
   "hsl(" +:+ hue +:+ ", 70%, 60%)").

Definition styleForKind (kind : FlowNodeKindType) (enabled : bool) : NodeStyle :=
  let disabled :=
    {| style_background := "linear-gradient(145deg, #11131c, #0d0f16)";
       style_border := "1px dashed rgba(255,255,255,0.15)";
       style_color := "#99a0b8" |} in
  if negb enabled then disabled
  else
    match kind with
    | TInput =>
        {| style_background := "linear-gradient(145deg, #0f2e1b, #0a1f12)";
           style_border := "1px solid rgba(74, 222, 128, 0.4)";
           style_color := "#d6f8e1" |}
    | TOutput =>
        {| style_background := "linear-gradient(145deg, #2d1b3a, #201329)";
           style_border := "1px solid rgba(255, 149, 233, 0.4)";
           style_color := "#ffe1f7" |}
    | TAgent =>
        {| style_background := "linear-gradient(145deg, #1e293b, #0f172a)";
           style_border := "1px solid rgba(96, 165, 250, 0.4)";
           style_color := "#e6e9f8" |}
    | TDecision =>
        {| style_background := "linear-gradient(145deg, #2e2a10, #1f1c0b)";
           style_border := "1px solid rgba(253, 224, 71, 0.4)";
           style_color := "#fef9c3" |}
    | TTool =>
        {| style_background := "linear-gradient(145deg, #132e2b, #0d1f1d)";
           style_border := "1px solid rgba(45, 212, 191, 0.4)";
           style_color := "#ccfbf1" |}
    | TMerge =>
        {| style_background := "linear-gradient(145deg, #1d1a2c, #161325)";
           style_border := "1px solid rgba(167, 139, 250, 0.4)";
           style_color := "#ede9fe" |}
    | TParallel =>
        {| style_background := "linear-gradient(145deg, #14202d, #0f1a26)";
           style_border := "1px solid rgba(56, 189, 248, 0.4)";
           style_color := "#e0f2fe" |}
    | TLoop =>
        {| style_background := "linear-gradient(145deg, #2e1e10, #1f140b)";
           style_border := "1px solid rgba(251, 146, 60, 0.4)";
           style_color := "#ffedd5" |}
    | TSubflow =>
        {| style_background := "linear-gradient(145deg, #1a1d2d, #121625)";
           style_border := "1px solid rgba(129, 140, 248, 0.4)";
           style_color := "#e0e7ff" |}
    end.

(** [FlowNodeData] and the fields of a reactflow [Node] that [mapNodes]
    computes; the remaining style fields (padding, radius, shadow) are
    constants. *)
Record FlowNodeData := {
  data_label : string;
  data_kind : FlowNodeKindType;
  data_outputs : list NodeOutput;
}.

Record RFNode := {
  rn_id : string;
  rn_position : NodeLayout;
  rn_data : FlowNodeData;
  rn_type : string;
  rn_style : NodeStyle;
}.

(** [a || b] on an optional string: an absent or empty [a] gives [b]. *)
Definition or_else (a : option string) (b : string) : string :=
  match a with
  | Some s => if String.eqb s "" then b else s
  | None => b
  end.

Definition agent_of (k : NodeKind) : option string :=
  match k with
  | AgentNode agent _ _ _ => Some agent
  | _ => None
  end.

Definition mapNodes (nodes : list FlowNode) (allowed : list FlowNodeKindType)
    : list RFNode :=
  imap (fun idx node =>
          let style0 :=
            styleForKind (kind_type (kind node))
                         (includes allowed (kind_type (kind node))) in
          let style :=
            match agent_of (kind node) with
            | Some agent =>
                if includes allowed TAgent then fst (getAgentStyle agent) else style0
            | None => style0
            end in
          {| rn_id := node_id (base node);
             rn_position := default (defaultPosition idx) (node_layout (base node));
             rn_data :=
               {| data_label := or_else (node_name (base node)) (node_id (base node));
                  data_kind := kind_type (kind node);
                  data_outputs := declared_outputs node |};
             rn_type := "flowNode";
             rn_style := style |})
       nodes.

(** The source handles a canvas node shows: one per output, with the label
    as id ([FlowNodeComponent]). *)
Definition source_handles (n : RFNode) : list string :=
  map output_label (data_outputs (rn_data n)).

Definition with_nodes (flow : FlowDefinition) (nodes : list FlowNode) : FlowDefinition :=
  {| flow_id := flow_id flow; flow_entry := flow_entry flow;
     flow_nodes := nodes; flow_edges := flow_edges flow |}.

Definition with_layout (b : NodeBase) (layout : NodeLayout) : NodeBase :=
  {| node_id := node_id b; node_name := node_name b;
     node_description := node_description b; node_inputs := node_inputs b;
     node_outputs := node_outputs b; node_layout := Some layout |}.

(** [handleNodeDragStop]: the flow handed to [onUpdateFlow] when the canvas
    node [id] is dropped at [position]. *)
Definition handleNodeDragStop (flow : FlowDefinition) (id : string)
    (position : NodeLayout) : FlowDefinition :=
  with_nodes flow
    (map (fun n =>
            if String.eqb (node_id (base n)) id
            then {| base := with_layout (base n)
                              {| layout_x := layout_x position;
                                 layout_y := layout_y position |};
                    kind := kind n |}
            else n)
         (flow_nodes flow)).

(** [quickConnectToNew]: the flow handed to [onUpdateFlow] and the node id
    handed to [onSelectNode], or [None] when agents are not allowed.  [rnd]
    are the random digits of the new node's id. *)
Definition quickConnectToNew (rnd : string) (flowKind : FlowKind)
    (flow : FlowDefinition) (sourceId : string)
    : option (FlowDefinition * string) :=
  if negb (includes (allowedByKind flowKind) TAgent) then None
  else
    let newNode := createFlowNode rnd TAgent None in
    let from := sourceId +:+ "/" +:+ getDefaultOutput (flow_nodes flow) sourceId in
    let nextFlow :=
      {| flow_id := flow_id flow; flow_entry := flow_entry flow;
         flow_nodes := flow_nodes flow ++ [newNode];
         flow_edges :=
           flow_edges flow ++
           [{| edge_from := from; edge_to := node_id (base newNode);
               edge_condition := None; edge_label := None |}] |} in
    Some (nextFlow, node_id (base newNode)).

(** [promptEdge]: [target] is what [window.prompt] returns (null when the
    dialog is cancelled). *)
Definition promptEdge (flow : FlowDefinition) (sourceId : string)
    (target : option string) : option FlowDefinition :=
  if falsy target then None
  else
    match target with
    | Some target =>
        let from := sourceId +:+ "/" +:+ getDefaultOutput (flow_nodes flow) sourceId in
        let to := trim target in
        if String.eqb to "" then None
        else
          Some (with_edges flow
                  (flow_edges flow ++
                   [{| edge_from := from; edge_to := to;
                       edge_condition := None; edge_label := None |}]))
    | None => None
    end.

(** ** The other actions of the application (unnamed/part_010) *)

(** [l.filter((_, i) => keep(i))] *)
Definition filter_index {A : Type} (keep : nat -> bool) (l : list A) : list A :=
  map snd (List.filter (fun ix => keep (fst ix)) (imap (fun i x => (i, x)) l)).

(** The four state cells of [App]: the document, the active flow id and the
    selected node ([AppState]), and the kind chosen for each flow. *)
Record Editor := {
  editor_state : AppState;
  flowKinds : gmap string FlowKind;
}.

(** The property names every plain object inherits from
    [Object.prototype]. *)
Definition object_prototype_names : list string :=
  ["constructor"; "__defineGetter__"; "__defineSetter__"; "hasOwnProperty";
   "__lookupGetter__"; "__lookupSetter__"; "isPrototypeOf";
   "propertyIsEnumerable"; "toString"; "valueOf"; "__proto__";
   "toLocaleString"].

Definition inherited (key : string) : bool :=
  existsb (String.eqb key) object_prototype_names.

(** What [flowKinds[id] ?? "sequential"] gives on the plain object
    [flowKinds]: the kind stored under the id, "sequential" when there is
    none, or, for an id that is no own key but an inherited name, the
    inherited function or object. *)
Inductive KindLookup :=
| KnownKind (kind : FlowKind)
| InheritedValue.

Definition activeFlowKind (ed : Editor) : KindLookup :=
  match activeFlow (editor_state ed) with
  | Some f =>
      match flowKinds ed !! flow_id f with
      | Some kind => KnownKind kind
      | None =>
          if inherited (flow_id f) then InheritedValue else KnownKind Sequential
      end
  | None => KnownKind Sequential
  end.

(** The flow [updateNode] hands to [updateFlow]. *)
Definition updateNode_flow (active : FlowDefinition) (nodeId : string)
    (nextNode : FlowNode) : FlowDefinition :=
  with_nodes active
    (map (fun n => if String.eqb (node_id (base n)) nodeId then nextNode else n)
         (flow_nodes active)).

Definition updateEdge_flow (active : FlowDefinition) (index : nat)
    (nextEdge : FlowEdge) : FlowDefinition :=
  with_edges active
    (imap (fun i edge => if Nat.eqb i index then nextEdge else edge)
          (flow_edges active)).

Definition removeEdge_flow (active : FlowDefinition) (index : nat) : FlowDefinition :=
  with_edges active
    (filter_index (fun i => negb (Nat.eqb i index)) (flow_edges active)).

Definition setFlowEntry_flow (active : FlowDefinition) (entry : string)
    : FlowDefinition :=
  {| flow_id := flow_id active; flow_entry := entry;
     flow_nodes := flow_nodes active; flow_edges := flow_edges active |}.

(** An action that only replaces the active flow. *)
Definition on_active_flow (st : AppState)
    (change : FlowDefinition -> FlowDefinition) : AppState :=
  match activeFlow st with
  | None => st
  | Some active =>
      {| flowDoc := updateFlow (flow_id active) (change active) (flowDoc st);
         activeFlowId := activeFlowId st;
         selectedNodeId := selectedNodeId st |}
  end.

Definition updateNode (st : AppState) (nodeId : string) (nextNode : FlowNode)
    : AppState :=
  on_active_flow st (fun active => updateNode_flow active nodeId nextNode).

Definition updateEdge (st : AppState) (index : nat) (nextEdge : FlowEdge) : AppState :=
  on_active_flow st (fun active => updateEdge_flow active index nextEdge).

Definition removeEdge (st : AppState) (index : nat) : AppState :=
  on_active_flow st (fun active => removeEdge_flow active index).

Definition setFlowEntry (st : AppState) (entry : string) : AppState :=
  on_active_flow st (fun active => setFlowEntry_flow active entry).

(** [addNode]: refused when no flow is active or the kind is not allowed
    for the kind of the active flow; otherwise the new node is appended and
    selected.  When the lookup of the flow kind gave an inherited value,
    [allowedByKind[activeFlowKind]] is undefined and [allowed.includes]
    throws. *)
Definition addNode (rnd : string) (ed : Editor) (type : FlowNodeKindType)
    : Outcome Editor :=
  match activeFlow (editor_state ed) with
  | None => Ok ed
  | Some active =>
      match activeFlowKind ed with
      | InheritedValue => TypeError
      | KnownKind flowKind =>
          if negb (includes (allowedByKind flowKind) type) then Ok ed
          else
            let node := createFlowNode rnd type None in
            Ok {| editor_state :=
                    {| flowDoc :=
                         updateFlow (flow_id active)
                           (with_nodes active (flow_nodes active ++ [node]))
                           (flowDoc (editor_state ed));
                       activeFlowId := activeFlowId (editor_state ed);
                       selectedNodeId := Some (node_id (base node)) |};
                  flowKinds := flowKinds ed |}
      end
  end.

(** The flow [addFlow] creates. *)
Definition newFlow (rnd : string) : FlowDefinition :=
  {| flow_id := uid rnd "flow";
     flow_entry := "start";
     flow_nodes := [createFlowNode rnd TInput (Some "start");
                    createFlowNode rnd TOutput (Some "finish")];
     flow_edges := [{| edge_from := "start/out"; edge_to := "finish";
                       edge_condition := None; edge_label := None |}] |}.

Definition addFlow (rnd : string) (ed : Editor) : Editor :=
  let st := editor_state ed in
  {| editor_state :=
       {| flowDoc := with_flows (flowDoc st) (doc_flows (flowDoc st) ++ [newFlow rnd]);
          activeFlowId := flow_id (newFlow rnd);
          selectedNodeId := selectedNodeId st |};
     flowKinds := <[flow_id (newFlow rnd) := Sequential]> (flowKinds ed) |}.

(** ** The node editor (unnamed/part_005) *)

(** A [Partial<NodeOutput>] as the editor builds it: the properties that
    are present, each with a string as its value. *)
Record PartialOutput := {
  partial_label : option string;
  partial_condition : option string;
}.

(** [{ ...out, ...next }] *)
Definition merge_output (out : NodeOutput) (next : PartialOutput) : NodeOutput :=
  {| output_label := default (output_label out) (partial_label next);
     output_condition :=
       match partial_condition next with
       | Some c => Some c
       | None => output_condition out
       end |}.

Definition setOutputs (node : FlowNode) (outputs : list NodeOutput) : FlowNode :=
  {| base :=
       {| node_id := node_id (base node); node_name := node_name (base node);
          node_description := node_description (base node);
          node_inputs := node_inputs (base node);
          node_outputs := Some outputs;
          node_layout := node_layout (base node) |};
     kind := kind node |}.

Definition updateOutput (node : FlowNode) (idx : nat) (next : PartialOutput)
    : FlowNode :=
  setOutputs node
    (imap (fun i out => if Nat.eqb i idx then merge_output out next else out)
          (declared_outputs node)).

Definition addOutput (node : FlowNode) : FlowNode :=
  setOutputs node (declared_outputs node ++ [out_slot]).

Definition removeOutput (node : FlowNode) (idx : nat) : FlowNode :=
  setOutputs node (filter_index (fun i => negb (Nat.eqb i idx)) (declared_outputs node)).

(** [toggleTool]: the node handed to [onChange], or [None] for a node that
    is not an agent. *)
Definition toggleTool (node : FlowNode) (toolId : string) : option FlowNode :=
  match kind node with
  | AgentNode agent prompt tools parameters =>
      let currentTools := default [] tools in
      let newTools :=
        if existsb (String.eqb toolId) currentTools
        then List.filter (fun t => negb (String.eqb t toolId)) currentTools
        else currentTools ++ [toolId] in
      Some {| base := base node;
              kind := AgentNode agent prompt (Some newTools) parameters |}
  | _ => None
  end.

(** [s.split(/\n|,/)]: the pieces between the code units that satisfy
    [sep], as the first piece and the list of the others. *)
Fixpoint split_where (sep : ascii -> bool) (s : string) : string * list string :=
  match s with
  | EmptyString => (EmptyString, [])
  | String c s' =>
      let '(h, t) := split_where sep s' in
      if sep c then (EmptyString, h :: t) else (String c h, t)
  end.

Definition newline : ascii := "010"%char.
Definition comma : ascii := ","%char.

Definition newline_or_comma (c : ascii) : bool :=
  Ascii.eqb c newline || Ascii.eqb c comma.

(** [setInputs] of the editor with an inputs text area. *)
Definition setInputs (node : FlowNode) (inputs : string) : FlowNode :=
  let '(h, t) := split_where newline_or_comma inputs in
  {| base :=
       {| node_id := node_id (base node); node_name := node_name (base node);
          node_description := node_description (base node);
          node_inputs :=
            Some (map (fun from => {| input_from := from |})
                      (List.filter (fun x => negb (String.eqb x ""))
                                   (map trim (h :: t))));
          node_outputs := node_outputs (base node);
          node_layout := node_layout (base node) |};
     kind := kind node |}.

(** The text the inputs area shows:
    [(base.inputs ?? []).map((i) => i.from).join("\n")]. *)
Definition inputs_text (node : FlowNode) : string :=
  String.concat (String newline EmptyString) (map input_from (declared_inputs node)).

(** ** The API key and the request headers (frontend/src/services/apiClient.ts) *)

Definition api_key_item : string := "denkwerk_api_key".

(** The client with the browser's [localStorage]. *)
Record ApiClient := {
  baseURL : string;
  apiKey : option string;
  localStorage : gmap string string;
}.

Definition setApiKey (key : string) (c : ApiClient) : ApiClient :=
  {| baseURL := baseURL c; apiKey := Some key;
     localStorage := <[api_key_item := key]> (localStorage c) |}.

(** [getApiKey] returns the key and caches what it reads from the
    storage. *)
Definition getApiKey (c : ApiClient) : option string * ApiClient :=
  if falsy (apiKey c) then
    let stored := localStorage c !! api_key_item in
    (stored,
     {| baseURL := baseURL c; apiKey := stored; localStorage := localStorage c |})
  else (apiKey c, c).

Definition clearApiKey (c : ApiClient) : ApiClient :=
  {| baseURL := baseURL c; apiKey := None;
     localStorage := delete api_key_item (localStorage c) |}.

(** The [RequestInit] fields the client uses. *)
Record RequestInit := {
  init_method : option string;
  init_headers : option JProps;
  init_body : option string;
}.

(** The call [request] makes to [fetch]: the URL and the options. *)
Record FetchCall := {
  fetch_url : string;
  fetch_init : RequestInit;
}.

Definition fetch_call_of_request (endpoint : string) (options : RequestInit)
    (c : ApiClient) : FetchCall * ApiClient :=
  let url := baseURL c +:+ endpoint in
  let headers :=
    spread [("Content-Type", JStr "application/json")]
           (default [] (init_headers options)) in
  let '(key, c1) := getApiKey c in
  let '(headers, c2) :=
    if falsy key then (headers, c1)
    else
      let '(key', c2) := getApiKey c1 in
      (obj_set headers "Authorization"
               (JStr ("Bearer " +:+ default "null" key')),
       c2) in
  ({| fetch_url := url;
      fetch_init :=
        {| init_method := init_method options;
           init_headers := Some headers;
           init_body := init_body options |} |},
   c2).

(** [uploadFlow]: the body is the form data with the file. *)
Definition uploadFlow (formData : string) (c : ApiClient) : FetchCall * ApiClient :=
  fetch_call_of_request "/flows/upload"
    {| init_method := Some "POST"; init_headers := Some []; init_body := Some formData |}
    c.

(** [downloadFlow] calls [fetch] itself; the Authorization header is spread
    in only when the key is truthy. *)
Definition downloadFlow (id format : string) (c : ApiClient) : FetchCall * ApiClient :=
  let url := baseURL c +:+ "/flows/" +:+ id +:+ "/download?format=" +:+ format in
  let '(key, c1) := getApiKey c in
  let '(headers, c2) :=
    if falsy key then ([], c1)
    else
      let '(key', c2) := getApiKey c1 in
      ([("Authorization", JStr ("Bearer " +:+ default "null" key'))], c2) in
  ({| fetch_url := url;
      fetch_init :=
        {| init_method := None; init_headers := Some headers; init_body := None |} |},
   c2).

(** [s.replace(/^http/, "ws")] *)
Definition replace_leading_http (s : string) : string :=
  if String.prefix "http" s
  then "ws" +:+ String.substring 4 (String.length s - 4) s
  else s.

(** The URL [createWebSocket] opens. *)
Definition createWebSocket_url (path : string) (c : ApiClient) : string :=
  replace_leading_http (baseURL c) +:+ path.

(** ** The flow manager hook (unnamed/part_001)

    The state of [useFlowManager] and the functions it passes to
    [setState]: each maps the previous state to the next one.  The canvas
    nodes, the canvas edges and the document are kept abstract. *)

(** [l.slice(0, end)] for an integer [end]: a negative [end] counts from
    the end of the array. *)
Definition slice_to {A : Type} (end_ : Z) (l : list A) : list A :=
  let len := Z.of_nat (List.length l) in
  let k := if (end_ <? 0)%Z then Z.max (len + end_) 0 else Z.min end_ len in
  take (Z.to_nat k) l.

(** [l[i]] for an integer [i]: undefined outside the array. *)
Definition at_index {A : Type} (l : list A) (i : Z) : option A :=
  if (i <? 0)%Z then None else l !! Z.to_nat i.

Section FlowManager.
Context {N E D : Type}.

Record History := {
  history_nodes : list (list N);
  history_edges : list (list E);
}.

(** [nodes] and [edges] are [None] when they are undefined, as after
    reading the history past its end. *)
Record FlowManagerState := {
  fm_nodes : option (list N);
  fm_edges : option (list E);
  fm_document : D;
  fm_selectedNode : option string;
  fm_history : History;
  fm_historyIndex : Z;
}.

Definition saveToHistory (newNodes : list N) (newEdges : list E)
    (prev : FlowManagerState) : FlowManagerState :=
  let newHistory :=
    {| history_nodes :=
         slice_to (fm_historyIndex prev + 1) (history_nodes (fm_history prev))
         ++ [newNodes];
       history_edges :=
         slice_to (fm_historyIndex prev + 1) (history_edges (fm_history prev))
         ++ [newEdges] |} in
  {| fm_nodes := Some newNodes;
     fm_edges := Some newEdges;
     fm_document := fm_document prev;
     fm_selectedNode := fm_selectedNode prev;
     fm_history := newHistory;
     fm_historyIndex := (Z.of_nat (List.length (history_nodes newHistory)) - 1)%Z |}.

Definition undo (prev : FlowManagerState) : FlowManagerState :=
  if (0 <? fm_historyIndex prev)%Z then
    let newIndex := (fm_historyIndex prev - 1)%Z in
    {| fm_nodes := at_index (history_nodes (fm_history prev)) newIndex;
       fm_edges := at_index (history_edges (fm_history prev)) newIndex;
       fm_document := fm_document prev;
       fm_selectedNode := fm_selectedNode prev;
       fm_history := fm_history prev;
       fm_historyIndex := newIndex |}
  else prev.

Definition redo (prev : FlowManagerState) : FlowManagerState :=
  if (fm_historyIndex prev
      <? Z.of_nat (List.length (history_nodes (fm_history prev))) - 1)%Z then
    let newIndex := (fm_historyIndex prev + 1)%Z in
    {| fm_nodes := at_index (history_nodes (fm_history prev)) newIndex;
       fm_edges := at_index (history_edges (fm_history prev)) newIndex;
       fm_document := fm_document prev;
       fm_selectedNode := fm_selectedNode prev;
       fm_history := fm_history prev;
       fm_historyIndex := newIndex |}
  else prev.

(** [resetFlow]: [defaultDocument] is the result of [getDefaultDocument],
    whose only flow has no nodes and no edges. *)
Definition resetFlow (defaultDocument : D) (prev : FlowManagerState)
    : FlowManagerState :=
  {| fm_nodes := Some [];
     fm_edges := Some [];
     fm_document := defaultDocument;
     fm_selectedNode := None;
     fm_history := {| history_nodes := [[]]; history_edges := [[]] |};
     fm_historyIndex := 0 |}.

End FlowManager.
Arguments History : clear implicits.
Arguments FlowManagerState : clear implicits.

(** ** Sample values for the rest of the front end *)

(** A state whose active flow id names no flow: the first flow is the
    active one. *)
Definition ex_state : AppState :=
  {| flowDoc :=
       {| doc_version := "0.1"; doc_metadata := None; doc_agents := [];
          doc_tools := []; doc_prompts := []; doc_flows := [ex_prefix_flow] |};
     activeFlowId := "missing"; selectedNodeId := None |}.


(** Every node of the active flow has a kind its flow kind allows. *)
Definition kinds_allowed (ed : Editor) : Prop :=
  forall f flowKind,
    activeFlow (editor_state ed) = Some f ->
    activeFlowKind ed = KnownKind flowKind ->
    Forall (fun n => includes (allowedByKind flowKind) (kind_type (kind n)) = true)
           (flow_nodes f).

Definition ex_editor : Editor :=
  {| editor_state := ex_state; flowKinds := {["f" := Handoff]} |}.

(** An editor whose only flow has the id "constructor", which is no key
    of the flow kinds. *)
Definition ex_inherited_editor : Editor :=
  {| editor_state :=
       {| flowDoc :=
            {| doc_version := "0.1"; doc_metadata := None; doc_agents := [];
               doc_tools := []; doc_prompts := [];
               doc_flows := [{| flow_id := "constructor"; flow_entry := "a";
                                flow_nodes := flow_nodes ex_prefix_flow;
                                flow_edges := flow_edges ex_prefix_flow |}] |};
          activeFlowId := "constructor"; selectedNodeId := None |};
     flowKinds := {["f" := Handoff]} |}.

(** No code unit of the string satisfies [sep]. *)
Fixpoint free_of (sep : ascii -> bool) (s : string) : bool :=
  match s with
  | EmptyString => true
  | String c s' => negb (sep c) && free_of sep s'
  end.

(** An input as [setInputs] leaves it: not empty, trimmed, and without a
    line break or a comma. *)
Definition input_settled (i : NodeInput) : Prop :=
  input_from i <> "" /\ trim (input_from i) = input_from i /\
  free_of newline_or_comma (input_from i) = true.

Definition ex_merge : FlowNode :=
  setInputs (createFlowNode "" TMerge (Some "join")) " a/out, b/out ".

(** The Authorization header built from a key. *)
Definition bearer (key : string) : JValue := JStr ("Bearer " +:+ key).

(** The headers of a call to [fetch]. *)
Definition call_headers (call : FetchCall) : JProps :=
  default [] (init_headers (fetch_init call)).

Definition ex_client : ApiClient :=
  {| baseURL := "https://api.denkwerk.com"; apiKey := None;
     localStorage := {[api_key_item := "secret"]} |}.

(** A value that is dropped from an array or object once it is cleaned:
    undefined, null, a blank string, or an array or object of such values
    only; an own property "__proto__" of an object does not count, since the
    cleaned object does not keep it. *)
#[local] Unset Elimination Schemes.
Fixpoint vanishes (v : JValue) : bool :=
  match v with
  | JUndefined | JNull => true
  | JStr s => String.eqb (trim s) ""
  | JArr items => forallb vanishes items
  | JObj props =>
      forallb (fun kv => String.eqb (fst kv) proto_key || vanishes (snd kv)) props
  | _ => false
  end.
#[local] Set Elimination Schemes.

(** A boolean or a number. *)
Definition flag_or_number (v : JValue) : Prop :=
  (exists b, v = JBool b) \/ (exists n, v = JNum n).

(** The history has as many node lists as edge lists and the index points
    into it. *)
Definition history_consistent {N E D : Type} (s : FlowManagerState N E D) : Prop :=
  List.length (history_nodes (fm_history s))
    = List.length (history_edges (fm_history s)) /\
  (0 <= fm_historyIndex s
   < Z.of_nat (List.length (history_nodes (fm_history s))))%Z.

(** The canvas shows the history entry at the index. *)
Definition shows_history {N E D : Type} (s : FlowManagerState N E D) : Prop :=
  fm_nodes s = at_index (history_nodes (fm_history s)) (fm_historyIndex s) /\
  fm_edges s = at_index (history_edges (fm_history s)) (fm_historyIndex s).

Definition ex_manager : FlowManagerState string string unit :=
  saveToHistory ["a"; "b"] ["a-b"]
    (saveToHistory ["a"] [] (resetFlow tt (resetFlow tt
       {| fm_nodes := None; fm_edges := None; fm_document := tt;
          fm_selectedNode := None;
          fm_history := {| history_nodes := []; history_edges := [] |};
          fm_historyIndex := 0 |}))).

(** * Properties of the front end *)

(** C3: for every node kind, createFlowNode returns a node of that kind
    that satisfies the arity rule of the terminals; a node created for kind
    "input" declares zero inputs and exactly one output, a node created for
    kind "output" declares at least one input (exactly one) and zero
    outputs. *)
Theorem createFlowNode_terminal_arity :
  forall (rnd : string) (type : FlowNodeKindType) (id : option string),
    kind_type (kind (createFlowNode rnd type id)) = type /\
    terminal_arity_ok (createFlowNode rnd type id) /\
    declared_inputs (createFlowNode rnd TInput id) = [] /\
    declared_outputs (createFlowNode rnd TInput id) = [out_slot] /\
    declared_inputs (createFlowNode rnd TOutput id) = [empty_input] /\
    declared_outputs (createFlowNode rnd TOutput id) = [].
Proof.
  intros rnd type id.
  destruct type; cbn; repeat split; auto.
Qed.

(** C5: FlowNode is a closed tagged variant: every node carries one kind,
    which is one of nine variants; the tags of the variants are exactly
    "input", "output", "agent", "decision", "tool", "merge", "parallel",
    "loop" and "subflow", pairwise distinct; the tag of every node is one of
    them, and each of them is the tag of some node. *)
Theorem FlowNode_closed_variant :
  (forall n : FlowNode,
     In (node_tag n)
        ["input"; "output"; "agent"; "decision"; "tool"; "merge"; "parallel";
         "loop"; "subflow"]) /\
  (forall n : FlowNode, In (kind_type (kind n)) all_kind_types) /\
  (forall t : FlowNodeKindType, In t all_kind_types) /\
  List.length all_kind_types = 9 /\
  map type_literal all_kind_types =
    ["input"; "output"; "agent"; "decision"; "tool"; "merge"; "parallel";
     "loop"; "subflow"] /\
  NoDup (map type_literal all_kind_types) /\
  (forall t : FlowNodeKindType, exists n : FlowNode, kind_type (kind n) = t).
Proof.
  split; [|split; [|split; [|split; [|split; [|split]]]]].
  - intros [b k]. unfold node_tag. destruct k; cbn; tauto.
  - intros [b k]. destruct k; cbn; tauto.
  - intros t. destruct t; cbn; tauto.
  - reflexivity.
  - reflexivity.
  - apply (bool_decide_unpack _). vm_compute. reflexivity.
  - intros t. exists (createFlowNode "" t None). destruct t; reflexivity.
Qed.

(** ** Splitting at a separator *)

Lemma split_no_sep (sep : ascii) (s : string) :
  occurs sep s = false -> split sep s = (s, []).
Proof.
  induction s as [|c s IH]; cbn; [reflexivity|].
  intros H. apply orb_false_elim in H as [Hc Hs].
  rewrite (IH Hs), Hc. reflexivity.
Qed.

Lemma split_append_sep (sep : ascii) (s t : string) :
  occurs sep s = false ->
  split sep (s +:+ String sep t) = (s, fst (split sep t) :: snd (split sep t)).
Proof.
  induction s as [|c s IH]; intros H.
  - change ("" +:+ String sep t) with (String sep t). cbn.
    rewrite Ascii.eqb_refl. destruct (split sep t) as [h tl]. reflexivity.
  - change (String c s +:+ String sep t) with (String c (s +:+ String sep t)).
    cbn in H |- *. apply orb_false_elim in H as [Hc Hs].
    rewrite (IH Hs), Hc. reflexivity.
Qed.

Lemma split_fst_prefix (sep : ascii) (s : string) :
  String.prefix (fst (split sep s)) s = true.
Proof.
  induction s as [|c s IH]; cbn; [reflexivity|].
  destruct (split sep s) as [h tl]. cbn in IH.
  destruct (Ascii.eqb c sep); cbn; [reflexivity|].
  destruct (ascii_dec c c); [exact IH | congruence].
Qed.

Example split_two_slashes : split slash "a/x/y" = ("a", ["x"; "y"]).
Proof. reflexivity. Qed.

Example split_trailing_slash : split slash "a/" = ("a", [""]).
Proof. reflexivity. Qed.

Example split_empty : split slash "" = ("", []).
Proof. reflexivity. Qed.

(** ** handleConnect and mapEdges *)

Lemma handleConnect_inv (flow : FlowDefinition) (connection : Connection)
    (flow' : FlowDefinition) :
  handleConnect flow connection = Some flow' ->
  exists source target,
    conn_source connection = Some source /\ source <> "" /\
    conn_target connection = Some target /\ target <> "" /\
    flow' = with_edges flow
              (flow_edges flow ++
               [{| edge_from :=
                     source +:+ "/" +:+
                     connect_label flow source (conn_sourceHandle connection);
                   edge_to := target;
                   edge_condition := None; edge_label := None |}]).
Proof.
  unfold handleConnect, falsy.
  destruct (conn_source connection) as [source|]; [|discriminate].
  destruct (conn_target connection) as [target|];
    [|rewrite orb_true_r; discriminate].
  destruct (String.eqb_spec source ""); [discriminate|].
  destruct (String.eqb_spec target ""); [discriminate|].
  cbn. intros [= <-]. exists source, target. auto.
Qed.

(** C2 as stated fails: a connection whose sourceHandle is "nope" is
    accepted, and the edge names "nope", which the source node (declaring
    the single output "out") does not declare. *)
Lemma handleConnect_undeclared_handle :
  exists flow',
    handleConnect ex_flow_a (ex_conn (Some "nope")) = Some flow' /\
    map edge_from (flow_edges flow') = ["a/nope"] /\
    ~ declared_or_implicit (flow_nodes ex_flow_a) "a" "nope".
Proof.
  eexists. split; [reflexivity|]. split; [reflexivity|].
  unfold declared_or_implicit. cbn.
  intros [[H|[]]|[H _]]; discriminate H.
Qed.

(** C2, amended: for every connection accepted by handleConnect (source and
    target neither null nor empty), the appended edge goes to the target and
    its [from] is the source id, a slash and a label; the label is the
    connection's sourceHandle if present, otherwise the first declared output
    label of the source node, otherwise "out".  When the sourceHandle is
    absent, or is a declared output label of the source node, that label is
    a declared output of the source node, or the implicit "out" when the node
    declares none (or no node of the flow has the source id). *)
Theorem handleConnect_edge_label :
  forall (flow : FlowDefinition) (connection : Connection) (flow' : FlowDefinition),
    handleConnect flow connection = Some flow' ->
    exists source target label,
      conn_source connection = Some source /\ source <> "" /\
      conn_target connection = Some target /\ target <> "" /\
      label =
        match conn_sourceHandle connection with
        | Some h => h
        | None =>
            match find_node (flow_nodes flow) source with
            | Some n =>
                match declared_labels n with l :: _ => l | [] => "out" end
            | None => "out"
            end
        end /\
      flow_nodes flow' = flow_nodes flow /\
      flow_edges flow' =
        flow_edges flow ++
        [{| edge_from := source +:+ "/" +:+ label; edge_to := target;
            edge_condition := None; edge_label := None |}] /\
      ((forall h, conn_sourceHandle connection = Some h ->
          exists n, find_node (flow_nodes flow) source = Some n /\
                    In h (declared_labels n)) ->
       declared_or_implicit (flow_nodes flow) source label).
Proof.
  intros flow connection flow' H.
  apply handleConnect_inv in H as (source & target & Hs & Hs' & Ht & Ht' & ->).
  exists source, target,
    (connect_label flow source (conn_sourceHandle connection)).
  repeat (split; [assumption || reflexivity|]).
  assert (Hdef : getDefaultOutput (flow_nodes flow) source =
                 match find_node (flow_nodes flow) source with
                 | Some n =>
                     match declared_labels n with l :: _ => l | [] => "out" end
                 | None => "out"
                 end).
  { unfold getDefaultOutput, find_node, declared_labels, declared_outputs.
    destruct (List.find _ _) as [n|]; [|reflexivity].
    destruct (node_outputs (base n)) as [[|o os]|]; reflexivity. }
  split.
  { unfold connect_label. destruct (conn_sourceHandle connection); [reflexivity|].
    exact Hdef. }
  split; [reflexivity|]. split; [reflexivity|].
  intros Hh. unfold connect_label, declared_or_implicit.
  destruct (conn_sourceHandle connection) as [h|]; cbn.
  - destruct (Hh h eq_refl) as (n & -> & Hin). left. exact Hin.
  - rewrite Hdef. destruct (find_node (flow_nodes flow) source) as [n|];
      [|reflexivity].
    destruct (declared_labels n) as [|l ls]; [right; auto | left; left; reflexivity].
Qed.

Lemma handleConnect_edge_label_witness :
  exists source target label,
    conn_source (ex_conn None) = Some source /\ source <> "" /\
    conn_target (ex_conn None) = Some target /\ target <> "" /\
    label =
      match conn_sourceHandle (ex_conn None) with
      | Some h => h
      | None =>
          match find_node (flow_nodes ex_flow_a) source with
          | Some n =>
              match declared_labels n with l :: _ => l | [] => "out" end
          | None => "out"
          end
      end /\
    flow_nodes (with_edges ex_flow_a
                  [{| edge_from := "a/out"; edge_to := "b";
                      edge_condition := None; edge_label := None |}]) =
      flow_nodes ex_flow_a /\
    flow_edges (with_edges ex_flow_a
                  [{| edge_from := "a/out"; edge_to := "b";
                      edge_condition := None; edge_label := None |}]) =
      flow_edges ex_flow_a ++
      [{| edge_from := source +:+ "/" +:+ label; edge_to := target;
          edge_condition := None; edge_label := None |}] /\
    ((forall h, conn_sourceHandle (ex_conn None) = Some h ->
        exists n, find_node (flow_nodes ex_flow_a) source = Some n /\
                  In h (declared_labels n)) ->
     declared_or_implicit (flow_nodes ex_flow_a) source label).
Proof.
  apply (handleConnect_edge_label ex_flow_a (ex_conn None)). reflexivity.
Defined.

(** What [mapEdges] reads off an edge whose [from] is a node id without a
    slash, a slash, and a label without a slash. *)
Lemma mapEdges_lookup_encoded (edges : list FlowEdge) (i : nat) (e : FlowEdge)
    (source label : string) :
  edges !! i = Some e ->
  edge_from e = source +:+ "/" +:+ label ->
  occurs slash source = false ->
  occurs slash label = false ->
  exists r, mapEdges edges !! i = Some r /\
            rf_source r = source /\ rf_sourceHandle r = Some label /\
            rf_target r = edge_target e.
Proof.
  intros Hi Hfrom Hs Hl. unfold mapEdges.
  rewrite list_lookup_imap, Hi. cbn. eexists. split; [reflexivity|].
  rewrite Hfrom.
  change (source +:+ "/" +:+ label) with (source +:+ String slash label).
  rewrite (split_append_sep _ _ _ Hs), (split_no_sep _ _ Hl).
  unfold edge_target. destruct (split slash (edge_to e)); cbn. auto.
Qed.

(** C4 as stated fails: the source id "a" has no slash, the label "x/y" is
    an output label, and mapEdges recovers the sourceHandle "x". *)
Lemma mapEdges_slash_label_not_recovered :
  exists flow',
    handleConnect ex_flow_a (ex_conn (Some "x/y")) = Some flow' /\
    occurs slash "a" = false /\
    map edge_from (flow_edges flow') = ["a" +:+ "/" +:+ "x/y"] /\
    map rf_source (mapEdges (flow_edges flow')) = ["a"] /\
    map rf_sourceHandle (mapEdges (flow_edges flow')) = [Some "x"] /\
    Some "x" <> Some "x/y".
Proof.
  eexists. split; [reflexivity|]. repeat split; discriminate.
Qed.

(** C4, amended: the edge appended by handleConnect has [from] equal to the
    source id, a slash and the output label; when neither the source id nor
    the label contains a slash, mapEdges recovers exactly that id as the
    source and that label as the sourceHandle of the edge. *)
Theorem mapEdges_handleConnect_roundtrip :
  forall (flow : FlowDefinition) (connection : Connection)
         (flow' : FlowDefinition) (source : string),
    handleConnect flow connection = Some flow' ->
    conn_source connection = Some source ->
    let label := connect_label flow source (conn_sourceHandle connection) in
    occurs slash source = false ->
    occurs slash label = false ->
    exists e r,
      flow_edges flow' = flow_edges flow ++ [e] /\
      edge_from e = source +:+ "/" +:+ label /\
      mapEdges (flow_edges flow') !! List.length (flow_edges flow) = Some r /\
      rf_source r = source /\
      rf_sourceHandle r = Some label.
Proof.
  intros flow connection flow' source H Hsrc label Hs Hl.
  apply handleConnect_inv in H as (source' & target & Hs1 & _ & _ & _ & ->).
  rewrite Hsrc in Hs1. injection Hs1 as <-.
  set (e := {| edge_from := _ |}).
  destruct (mapEdges_lookup_encoded (flow_edges flow ++ [e])
              (List.length (flow_edges flow)) e source label)
    as (r & Hr & Hrs & Hrh & _); auto.
  { rewrite lookup_app_r by reflexivity. rewrite Nat.sub_diag. reflexivity. }
  exists e, r. auto.
Qed.

Lemma mapEdges_handleConnect_roundtrip_witness :
  exists e r,
    flow_edges (with_edges ex_flow_a
                  [{| edge_from := "a/out"; edge_to := "b";
                      edge_condition := None; edge_label := None |}]) =
      flow_edges ex_flow_a ++ [e] /\
    edge_from e = "a" +:+ "/" +:+ "out" /\
    mapEdges (flow_edges (with_edges ex_flow_a
                  [{| edge_from := "a/out"; edge_to := "b";
                      edge_condition := None; edge_label := None |}]))
      !! List.length (flow_edges ex_flow_a) = Some r /\
    rf_source r = "a" /\
    rf_sourceHandle r = Some "out".
Proof.
  apply (mapEdges_handleConnect_roundtrip ex_flow_a (ex_conn None) _ "a");
    reflexivity.
Defined.

Example getDefaultOutput_no_outputs :
  getDefaultOutput (flow_nodes ex_prefix_flow) "c" = "out" /\
  getDefaultOutput (flow_nodes ex_prefix_flow) "missing" = "out" /\
  getDefaultOutput (flow_nodes ex_prefix_flow) "ab" = "out".
Proof. repeat split. Qed.

Example mapEdges_sample :
  mapEdges (flow_edges ex_prefix_flow) =
  [{| rf_id := "a/out-ab-0"; rf_source := "a"; rf_target := "ab";
      rf_sourceHandle := Some "out"; rf_label := None |};
   {| rf_id := "ab/out-c-1"; rf_source := "ab"; rf_target := "c";
      rf_sourceHandle := Some "out"; rf_label := None |}].
Proof. reflexivity. Qed.

(** ** removeNode *)

(** The node entries: exactly the nodes whose id is not [nodeId] remain, in
    their order. *)
Lemma removeNode_flow_nodes (f : FlowDefinition) (nodeId : string) (n : FlowNode) :
  In n (flow_nodes (removeNode_flow f nodeId)) <->
  In n (flow_nodes f) /\ node_id (base n) <> nodeId.
Proof.
  cbn. rewrite filter_In. split; intros [H1 H2]; split; auto.
  - destruct (String.eqb_spec (node_id (base n)) nodeId); [discriminate|assumption].
  - destruct (String.eqb_spec (node_id (base n)) nodeId); [contradiction|reflexivity].
Qed.

(** The edges: an edge remains exactly when neither its [from] nor its [to]
    starts with [nodeId]. *)
Lemma removeNode_flow_edges (f : FlowDefinition) (nodeId : string) (e : FlowEdge) :
  In e (flow_edges (removeNode_flow f nodeId)) <->
  In e (flow_edges f) /\
  String.prefix nodeId (edge_from e) = false /\
  String.prefix nodeId (edge_to e) = false.
Proof.
  cbn. rewrite filter_In, andb_true_iff, !negb_true_iff. tauto.
Qed.

(** Every edge that leaves or enters the removed node is deleted. *)
Lemma removeNode_flow_deletes_incident (f : FlowDefinition) (nodeId : string)
    (e : FlowEdge) :
  edge_source e = nodeId \/ edge_target e = nodeId ->
  ~ In e (flow_edges (removeNode_flow f nodeId)).
Proof.
  intros H Hin. apply removeNode_flow_edges in Hin as (_ & Hf & Ht).
  destruct H as [<-|<-]; unfold edge_source, edge_target in *.
  - rewrite split_fst_prefix in Hf. discriminate.
  - rewrite split_fst_prefix in Ht. discriminate.
Qed.

(** C8 at the failing input: removing node "a" from a flow with the nodes
    "a", "ab" and "c" also deletes the edge from "ab" to "c", which connects
    two nodes other than "a" (both of which are still in the flow). *)
Theorem removeNode_deletes_edge_of_other_nodes :
  let e := {| edge_from := "ab/out"; edge_to := "c";
              edge_condition := None; edge_label := None |} in
  In e (flow_edges ex_prefix_flow) /\
  edge_source e = "ab" /\ edge_target e = "c" /\
  "ab" <> "a" /\ "c" <> "a" /\
  map (fun n => node_id (base n)) (flow_nodes (removeNode_flow ex_prefix_flow "a"))
    = ["ab"; "c"] /\
  flow_edges (removeNode_flow ex_prefix_flow "a") = [] /\
  ~ In e (flow_edges (removeNode_flow ex_prefix_flow "a")).
Proof.
  cbn. repeat split; auto; try discriminate.
Qed.

(** The application state after the removal: the flow is replaced in the
    document and the first remaining node is selected. *)
Example removeNode_state :
  let st := {| flowDoc :=
                 {| doc_version := "0.1"; doc_metadata := None; doc_agents := [];
                    doc_tools := []; doc_prompts := [];
                    doc_flows := [ex_prefix_flow] |};
               activeFlowId := "f"; selectedNodeId := Some "a" |} in
  map flow_edges (doc_flows (flowDoc (removeNode st "a"))) = [[]] /\
  selectedNodeId (removeNode st "a") = Some "ab" /\
  map edge_from (flow_edges (removeNode_flow ex_prefix_flow "c")) = ["a/out"].
Proof. repeat split. Qed.

(** ** Induction on JavaScript values *)

Section JValue_induction.
Variable P : JValue -> Prop.
Hypothesis Hundefined : P JUndefined.
Hypothesis Hnull : P JNull.
Hypothesis Hbool : forall b, P (JBool b).
Hypothesis Hnum : forall n, P (JNum n).
Hypothesis Hstr : forall s, P (JStr s).
Hypothesis Harr : forall items, Forall P items -> P (JArr items).
Hypothesis Hobj :
  forall props, Forall (fun kv => P (snd kv)) props -> P (JObj props).

Fixpoint JValue_nested_ind (v : JValue) : P v :=
  match v with
  | JUndefined => Hundefined
  | JNull => Hnull
  | JBool b => Hbool b
  | JNum n => Hnum n
  | JStr s => Hstr s
  | JArr items =>
      Harr items
        ((fix go (l : list JValue) : Forall P l :=
            match l with
            | [] => @List.Forall_nil _ P
            | x :: l' => @List.Forall_cons _ P x l' (JValue_nested_ind x) (go l')
            end) items)
  | JObj props =>
      Hobj props
        ((fix go (l : JProps) : Forall (fun kv => P (snd kv)) l :=
            match l with
            | [] => List.Forall_nil _
            | kv :: l' =>
                @List.Forall_cons _ (fun kv => P (snd kv)) kv l'
                  (JValue_nested_ind (snd kv)) (go l')
            end) props)
  end.
End JValue_induction.

(** ** trim *)

Lemma trim_start_empty_iff (s : string) :
  trim_start s = "" <-> whitespace_only s.
Proof.
  unfold whitespace_only. induction s as [|c s IH]; cbn.
  - split; [constructor | reflexivity].
  - destruct (is_whitespace c) eqn:Hc.
    + rewrite IH. split; [intros H; constructor; assumption|].
      intros H. inversion H; assumption.
    + split; [discriminate|]. intros H. inversion H; congruence.
Qed.

Lemma trim_end_empty_iff (s : string) :
  trim_end s = "" <-> whitespace_only s.
Proof.
  unfold whitespace_only. induction s as [|c s IH]; cbn.
  - split; [constructor | reflexivity].
  - destruct (trim_end s) as [|c' t] eqn:Ht.
    + destruct (is_whitespace c) eqn:Hc.
      * split; [|reflexivity]. intros _. constructor; [assumption|].
        apply IH. reflexivity.
      * split; [discriminate|]. intros H. inversion H; congruence.
    + split; [discriminate|]. intros H. inversion H as [|? ? _ Hs].
      apply IH in Hs. discriminate Hs.
Qed.

Lemma trim_start_whitespace_only (s : string) :
  whitespace_only (trim_start s) <-> whitespace_only s.
Proof.
  unfold whitespace_only. induction s as [|c s IH]; cbn; [reflexivity|].
  destruct (is_whitespace c) eqn:Hc; [|reflexivity].
  rewrite IH. split; [intros H; constructor; assumption|].
  intros H. inversion H; assumption.
Qed.

Lemma trim_empty_iff (s : string) : trim s = "" <-> whitespace_only s.
Proof.
  unfold trim. rewrite trim_end_empty_iff. apply trim_start_whitespace_only.
Qed.

Lemma trim_end_cons (c : ascii) (s : string) :
  trim_end (String c s) =
  match trim_end s with
  | EmptyString => if is_whitespace c then EmptyString else String c EmptyString
  | t => String c t
  end.
Proof. reflexivity. Qed.

Lemma trim_end_idempotent (s : string) : trim_end (trim_end s) = trim_end s.
Proof.
  induction s as [|c s IH]; [reflexivity|].
  rewrite trim_end_cons.
  destruct (trim_end s) as [|c' t] eqn:Ht.
  - destruct (is_whitespace c) eqn:Hc; [reflexivity|].
    rewrite trim_end_cons. cbn. rewrite Hc. reflexivity.
  - rewrite trim_end_cons, IH. reflexivity.
Qed.

(** A string that does not start with white space keeps its first code
    unit under [trim_end]. *)
Lemma trim_end_head (c : ascii) (s : string) :
  is_whitespace c = false -> exists t, trim_end (String c s) = String c t.
Proof.
  intros Hc. cbn. destruct (trim_end s); [rewrite Hc|]; eauto.
Qed.

Lemma trim_start_head (s : string) :
  trim_start s = "" \/
  exists c t, trim_start s = String c t /\ is_whitespace c = false.
Proof.
  induction s as [|c s IH]; cbn; [left; reflexivity|].
  destruct (is_whitespace c) eqn:Hc; [exact IH|]. right. eauto.
Qed.

Lemma trim_idempotent (s : string) : trim (trim s) = trim s.
Proof.
  unfold trim. destruct (trim_start_head s) as [->|(c & t & -> & Hc)];
    [reflexivity|].
  destruct (trim_end_head c t Hc) as [t' Ht']. rewrite Ht'.
  cbn [trim_start]. rewrite Hc, <- Ht'. apply trim_end_idempotent.
Qed.

(** ** Objects: property assignment and spread *)

Lemma obj_set_fresh (o : JProps) (k : string) (v : JValue) :
  ~ In k (map fst o) -> obj_set o k v = o ++ [(k, v)].
Proof.
  induction o as [|[k0 v0] o IH]; cbn; [reflexivity|].
  intros H. destruct (String.eqb_spec k0 k) as [->|Hne]; [tauto|].
  rewrite IH by tauto. reflexivity.
Qed.

Lemma obj_set_same (o : JProps) (k : string) (v : JValue) :
  obj_get o k = Some v -> obj_set o k v = o.
Proof.
  induction o as [|[k0 v0] o IH]; cbn; [discriminate|].
  destruct (String.eqb_spec k0 k) as [->|Hne].
  - intros [= ->]. reflexivity.
  - intros H. rewrite (IH H). reflexivity.
Qed.

Lemma obj_set_keys (o : JProps) (k k' : string) (v : JValue) :
  In k' (map fst (obj_set o k v)) <-> k' = k \/ In k' (map fst o).
Proof.
  induction o as [|[k0 v0] o IH]; cbn; [intuition congruence|].
  destruct (String.eqb_spec k0 k) as [->|Hne]; cbn; [intuition congruence|].
  rewrite IH. tauto.
Qed.

Lemma obj_set_NoDup (o : JProps) (k : string) (v : JValue) :
  List.NoDup (map fst o) -> List.NoDup (map fst (obj_set o k v)).
Proof.
  induction o as [|[k0 v0] o IH]; cbn; intros H.
  - constructor; [intros []|constructor].
  - inversion H as [|? ? Hnotin Hnd]; subst.
    destruct (String.eqb_spec k0 k) as [->|Hne]; cbn; [exact H|].
    constructor; [|auto].
    rewrite obj_set_keys. intros [->|Hin]; tauto.
Qed.

Lemma obj_set_Forall (Q : JValue -> Prop) (o : JProps) (k : string) (v : JValue) :
  Forall (fun kv => Q (snd kv)) o -> Q v ->
  Forall (fun kv => Q (snd kv)) (obj_set o k v).
Proof.
  intros Ho Hv. induction Ho as [|[k0 v0] o H0 Ho IH]; cbn.
  - constructor; [exact Hv|constructor].
  - destruct (String.eqb k0 k); constructor; auto.
Qed.

Lemma obj_get_set (o : JProps) (k k' : string) (v : JValue) :
  obj_get (obj_set o k v) k' = if String.eqb k k' then Some v else obj_get o k'.
Proof.
  induction o as [|[k0 v0] o IH]; cbn.
  - reflexivity.
  - destruct (String.eqb_spec k0 k) as [->|Hne]; cbn.
    + destruct (String.eqb k k'); reflexivity.
    + rewrite IH. destruct (String.eqb_spec k0 k') as [->|Hne'];
        [|reflexivity].
      destruct (String.eqb_spec k k'); [congruence|reflexivity].
Qed.

Lemma spread_NoDup (target source : JProps) :
  List.NoDup (map fst target) -> List.NoDup (map fst (spread target source)).
Proof.
  unfold spread. revert target.
  induction source as [|[k v] source IH]; cbn; intros target H; [exact H|].
  apply IH, obj_set_NoDup, H.
Qed.

Lemma spread_Forall (Q : JValue -> Prop) (target source : JProps) :
  Forall (fun kv => Q (snd kv)) target ->
  Forall (fun kv => Q (snd kv)) source ->
  Forall (fun kv => Q (snd kv)) (spread target source).
Proof.
  unfold spread. intros Ht Hs. revert target Ht.
  induction Hs as [|[k v] source Hv Hs IH]; cbn; intros target Ht; [exact Ht|].
  apply IH, obj_set_Forall; assumption.
Qed.

Lemma spread_fresh (target source : JProps) :
  List.NoDup (map fst (target ++ source)) -> spread target source = target ++ source.
Proof.
  unfold spread. revert target.
  induction source as [|[k v] source IH]; cbn; intros target H.
  - rewrite app_nil_r. reflexivity.
  - assert (Hfresh : ~ In k (map fst target)).
    { rewrite map_app in H. cbn in H. apply NoDup_remove_2 in H.
      intros Hin. apply H, in_or_app. left. exact Hin. }
    rewrite (obj_set_fresh _ _ _ Hfresh), IH.
    + rewrite <- app_assoc. reflexivity.
    + rewrite <- app_assoc. exact H.
Qed.

(** A spread reads like its source where the source has the key, and like
    its target elsewhere. *)
Lemma obj_get_spread (target source : JProps) (k : string) :
  List.NoDup (map fst source) ->
  obj_get (spread target source) k =
  match obj_get source k with
  | Some v => Some v
  | None => obj_get target k
  end.
Proof.
  unfold spread. revert target.
  induction source as [|[k0 v0] source IH]; cbn; intros target H; [reflexivity|].
  inversion H as [|? ? Hnotin Hnd]; subst.
  rewrite (IH _ Hnd), obj_get_set.
  destruct (String.eqb_spec k0 k) as [->|Hne]; [|reflexivity].
  destruct (obj_get source k) eqn:Hg; [|reflexivity].
  exfalso. apply Hnotin. clear -Hg.
  induction source as [|[k1 v1] source IH]; cbn in *; [discriminate|].
  destruct (String.eqb_spec k1 k); [left; assumption | right; auto].
Qed.

Lemma obj_set_pairs (Q : string * JValue -> Prop) (o : JProps) (k : string)
    (v : JValue) :
  Forall Q o -> Q (k, v) -> Forall Q (obj_set o k v).
Proof.
  intros Ho Hv. induction Ho as [|[k0 v0] o H0 Ho IH]; cbn.
  - constructor; [exact Hv|constructor].
  - destruct (String.eqb_spec k0 k) as [->|]; constructor; auto.
Qed.

Lemma spread_pairs (Q : string * JValue -> Prop) (target source : JProps) :
  Forall Q target -> Forall Q source -> Forall Q (spread target source).
Proof.
  unfold spread. intros Ht Hs. revert target Ht.
  induction Hs as [|[k v] source Hv Hs IH]; cbn; intros target Ht; [exact Ht|].
  apply IH, obj_set_pairs; assumption.
Qed.

Lemma from_entries_own (entries : JProps) :
  from_entries entries = spread [] (own_entries entries).
Proof.
  unfold from_entries, spread, own_entries.
  generalize (@nil (string * JValue)) as acc.
  induction entries as [|[k v] entries IH]; intros acc; [reflexivity|].
  cbn [fold_left List.filter fst snd].
  rewrite IH. unfold assign.
  destruct (String.eqb k proto_key); reflexivity.
Qed.

Lemma own_entries_keys (entries : JProps) (k : string) :
  In k (map fst (own_entries entries)) <->
  In k (map fst entries) /\ k <> proto_key.
Proof.
  unfold own_entries. induction entries as [|[k0 v] entries IH]; cbn; [tauto|].
  destruct (String.eqb_spec k0 proto_key) as [->|Hne]; cbn; rewrite IH.
  - intuition congruence.
  - intuition congruence.
Qed.

Lemma own_entries_NoDup (entries : JProps) :
  List.NoDup (map fst entries) -> List.NoDup (map fst (own_entries entries)).
Proof.
  induction entries as [|[k v] entries IH]; cbn; intros H; [constructor|].
  inversion H as [|? ? Hnotin Hnd]; subst.
  unfold own_entries in *. cbn.
  destruct (String.eqb k proto_key); cbn; [auto|].
  constructor; [|auto]. intros Hin. apply Hnotin.
  apply (proj1 (own_entries_keys entries k) Hin).
Qed.

Lemma own_entries_id (entries : JProps) :
  Forall (fun kv => fst kv <> proto_key) entries -> own_entries entries = entries.
Proof.
  unfold own_entries. induction 1 as [|[k v] entries Hk _ IH]; [reflexivity|].
  cbn in *. destruct (String.eqb_spec k proto_key); [contradiction|].
  cbn. rewrite IH. reflexivity.
Qed.

Lemma own_entries_Forall (Q : string * JValue -> Prop) (entries : JProps) :
  Forall Q entries -> Forall Q (own_entries entries).
Proof.
  unfold own_entries. induction 1 as [|kv entries Hkv _ IH]; cbn; [constructor|].
  destruct (String.eqb (fst kv) proto_key); cbn; [exact IH|].
  constructor; assumption.
Qed.

Lemma from_entries_fresh (entries : JProps) :
  List.NoDup (map fst entries) -> from_entries entries = own_entries entries.
Proof.
  intros H. rewrite from_entries_own.
  apply (spread_fresh [] (own_entries entries)), own_entries_NoDup, H.
Qed.

(** ** deepClean *)

Lemma settled_arr (items : list JValue) :
  settled (JArr items) = true <-> Forall kept items.
Proof.
  unfold kept. cbn. rewrite forallb_forall, List.Forall_forall. reflexivity.
Qed.

Lemma settled_obj (props : JProps) :
  settled (JObj props) = true <->
  List.NoDup (map fst props) /\
  Forall (fun kv => fst kv <> proto_key /\ kept (snd kv)) props.
Proof.
  unfold kept. cbn. rewrite andb_true_iff, bool_decide_eq_true, forallb_forall,
    List.Forall_forall, NoDup_ListNoDup.
  split; intros [Hnd H]; (split; [exact Hnd|]); intros kv Hin;
    specialize (H kv Hin).
  - apply andb_true_iff in H as [Hk Hv]. split; [|exact Hv].
    destruct (String.eqb_spec (fst kv) proto_key); [discriminate|assumption].
  - destruct H as [Hk Hv]. rewrite Hv.
    destruct (String.eqb_spec (fst kv) proto_key); [contradiction|reflexivity].
Qed.

(** deepClean leaves a settled value as it is. *)
Lemma deepClean_settled (v : JValue) : settled v = true -> deepClean v = v.
Proof.
  induction v as [| | | | |items IH|props IH] using JValue_nested_ind;
    try reflexivity.
  - rewrite settled_arr. intros H. cbn. f_equal.
    induction H as [|x items Hx H IH']; [reflexivity|].
    inversion IH as [|? ? IHx IHitems]; subst. cbn.
    unfold kept in Hx. apply andb_true_iff in Hx as [Hd Hs].
    rewrite (IHx Hs), Hd. f_equal. auto.
  - rewrite settled_obj. intros [Hnd H]. cbn [deepClean]. f_equal.
    assert (E : List.filter (fun kv => negb (shouldDrop (snd kv)))
                  (map (fun kv => (fst kv, deepClean (snd kv))) props) = props).
    { clear Hnd. induction H as [|[k x] props [_ Hx] H IH']; [reflexivity|].
      inversion IH as [|? ? IHx IHprops]; subst. cbn in *.
      unfold kept in Hx. apply andb_true_iff in Hx as [Hd Hs].
      rewrite (IHx Hs), Hd. f_equal. auto. }
    rewrite E, (from_entries_fresh _ Hnd). apply own_entries_id.
    eapply Forall_impl; [exact H|]. intros kv [Hk _]. exact Hk.
Qed.

(** The result of deepClean is settled. *)
Lemma deepClean_is_settled (v : JValue) : settled (deepClean v) = true.
Proof.
  induction v as [| | | | |items IH|props IH] using JValue_nested_ind;
    try reflexivity.
  - cbn [deepClean]. apply settled_arr.
    induction IH as [|x items Hx IH IH']; cbn; [constructor|].
    destruct (shouldDrop (deepClean x)) eqn:Hd; cbn; [exact IH'|].
    constructor; [|exact IH']. unfold kept. rewrite Hd, Hx. reflexivity.
  - cbn [deepClean]. rewrite from_entries_own. apply settled_obj. split.
    + apply (spread_NoDup [] _). constructor.
    + assert (Forall (fun kv => kept (snd kv))
                (List.filter (fun kv => negb (shouldDrop (snd kv)))
                   (map (fun kv => (fst kv, deepClean (snd kv))) props))) as Hkept.
      { induction IH as [|[k x] props Hx IH IH']; cbn; [constructor|].
        cbn in Hx. destruct (shouldDrop (deepClean x)) eqn:Hd; cbn; [exact IH'|].
        constructor; [|exact IH']. unfold kept. cbn. rewrite Hd, Hx. reflexivity. }
      set (entries := List.filter _ _) in *.
      assert (Forall (fun kv => fst kv <> proto_key /\ kept (snd kv))
                     (own_entries entries)) as Hown.
      { unfold own_entries. clear -Hkept.
        induction Hkept as [|kv entries Hkv _ IH]; cbn; [constructor|].
        destruct (String.eqb_spec (fst kv) proto_key); cbn; [exact IH|].
        constructor; [split; assumption | exact IH]. }
      apply spread_pairs; [constructor | exact Hown].
Qed.

Lemma shouldDrop_empty_value (v : JValue) : empty_value v -> shouldDrop v = true.
Proof.
  intros [->|[->|[(s & -> & Hs)|[->| ->]]]]; try reflexivity.
  cbn. apply trim_empty_iff in Hs. rewrite Hs. reflexivity.
Qed.

Lemma empty_value_shouldDrop (v : JValue) : shouldDrop v = true -> empty_value v.
Proof.
  unfold empty_value. destruct v as [| | | |s|items|props]; cbn; try discriminate; auto.
  - intros H. apply String.eqb_eq, trim_empty_iff in H. eauto 6.
  - destruct items; [auto|discriminate].
  - destruct props; [auto 6|discriminate].
Qed.

(** Whatever lies inside a settled value is kept by deepClean. *)
Lemma inside_settled (x v : JValue) :
  inside x v -> settled v = true -> kept x.
Proof.
  induction 1 as [x items Hin|k x props Hin|x y z _ IHxy _ IHyz]; intros Hs.
  - apply settled_arr in Hs. rewrite List.Forall_forall in Hs. auto.
  - apply settled_obj in Hs as [_ Hs]. rewrite List.Forall_forall in Hs.
    apply (proj2 (Hs (k, x) Hin)).
  - specialize (IHyz Hs). unfold kept in IHyz.
    apply andb_true_iff in IHyz as [_ Hy]. auto.
Qed.

Lemma kept_entries_keys (props : JProps) (k : string) :
  In k (map fst (kept_entries props)) -> In k (map fst props).
Proof.
  unfold kept_entries. induction props as [|[k0 x] props IH]; cbn; [tauto|].
  destruct (shouldDrop (deepClean x)); cbn; tauto.
Qed.

Lemma kept_entries_NoDup (props : JProps) :
  List.NoDup (map fst props) -> List.NoDup (map fst (kept_entries props)).
Proof.
  induction props as [|[k0 x] props IH]; cbn; intros H; [constructor|].
  inversion H as [|? ? Hnotin Hnd]; subst.
  unfold kept_entries in *. cbn.
  destruct (shouldDrop (deepClean x)); cbn; [auto|].
  constructor; [|auto]. intros Hin. apply Hnotin, kept_entries_keys, Hin.
Qed.

Lemma clean_entries_keys (props : JProps) (k : string) :
  In k (map fst (clean_entries props)) -> In k (map fst props) /\ k <> proto_key.
Proof.
  unfold clean_entries. rewrite own_entries_keys. intros [Hin Hk].
  split; [apply kept_entries_keys, Hin | exact Hk].
Qed.

Lemma clean_entries_NoDup (props : JProps) :
  List.NoDup (map fst props) -> List.NoDup (map fst (clean_entries props)).
Proof.
  intros H. apply own_entries_NoDup, kept_entries_NoDup, H.
Qed.

Lemma obj_get_absent (o : JProps) (k : string) :
  ~ In k (map fst o) -> obj_get o k = None.
Proof.
  induction o as [|[k0 x] o IH]; cbn; [reflexivity|].
  intros H. destruct (String.eqb_spec k0 k); [tauto|]. apply IH. tauto.
Qed.

Lemma obj_get_own_entries (o : JProps) (k : string) :
  obj_get (own_entries o) k = if String.eqb k proto_key then None else obj_get o k.
Proof.
  unfold own_entries. induction o as [|[k0 x] o IH]; cbn.
  - destruct (String.eqb k proto_key); reflexivity.
  - destruct (String.eqb_spec k0 proto_key) as [Hk0|Hk0]; cbn; rewrite IH.
    + destruct (String.eqb_spec k proto_key) as [Hk|Hk]; [reflexivity|].
      destruct (String.eqb_spec k0 k); [congruence|reflexivity].
    + destruct (String.eqb_spec k0 k) as [Hkk|Hkk]; [|reflexivity].
      destruct (String.eqb_spec k proto_key); [congruence|reflexivity].
Qed.

Lemma obj_get_kept_entries (props : JProps) (k : string) :
  List.NoDup (map fst props) ->
  obj_get (kept_entries props) k =
  match obj_get props k with
  | Some x => if shouldDrop (deepClean x) then None else Some (deepClean x)
  | None => None
  end.
Proof.
  induction props as [|[k0 x] props IH]; cbn; intros H; [reflexivity|].
  inversion H as [|? ? Hnotin Hnd]; subst.
  change (kept_entries ((k0, x) :: props))
    with (if negb (shouldDrop (deepClean x))
          then (k0, deepClean x) :: kept_entries props
          else kept_entries props).
  destruct (String.eqb_spec k0 k) as [->|Hne].
  - destruct (shouldDrop (deepClean x)); cbn.
    + apply obj_get_absent. intros Hin. apply Hnotin, kept_entries_keys, Hin.
    + rewrite String.eqb_refl. reflexivity.
  - destruct (shouldDrop (deepClean x)); cbn; [auto|].
    destruct (String.eqb_spec k0 k); [contradiction|auto].
Qed.

(** The properties of a cleaned object: "__proto__" is none of them. *)
Lemma obj_get_clean_entries (props : JProps) (k : string) :
  List.NoDup (map fst props) ->
  obj_get (clean_entries props) k =
  if String.eqb k proto_key then None
  else match obj_get props k with
       | Some x => if shouldDrop (deepClean x) then None else Some (deepClean x)
       | None => None
       end.
Proof.
  intros H. unfold clean_entries.
  rewrite obj_get_own_entries, (obj_get_kept_entries props k H). reflexivity.
Qed.

Lemma deepClean_obj (props : JProps) :
  List.NoDup (map fst props) -> deepClean (JObj props) = JObj (clean_entries props).
Proof.
  intros H. cbn [deepClean]. fold (kept_entries props).
  rewrite from_entries_fresh; [reflexivity|]. apply kept_entries_NoDup, H.
Qed.

(** The value itself is returned as it is; only what it contains is
    filtered. *)
Example deepClean_root :
  deepClean JNull = JNull /\
  deepClean (JStr "  ") = JStr "  " /\
  deepClean (JArr [JNull; JArr [JStr " "]]) = JArr [] /\
  deepClean (JArr [JArr [JNull]; JStr " a "; JObj [("k", JArr [])]; JBool false])
    = JArr [JStr " a "; JBool false].
Proof. repeat split. Qed.

(** The version normalizeDocument writes is trimmed and not empty. *)
Lemma normalized_version_trimmed (doc : JProps) (version : string) :
  normalized_version doc = Ok version -> trim version = version /\ version <> "".
Proof.
  unfold normalized_version.
  destruct (obj_get doc "version") as [[| | | |s| |]|]; try discriminate;
    try (intros [= <-]; split; [reflexivity|discriminate]).
  destruct (String.eqb_spec (trim s) "") as [E|E]; intros [= <-].
  - split; [reflexivity|discriminate].
  - split; [apply trim_idempotent|exact E].
Qed.

Lemma normalizeDocument_again (doc : JProps) (d1 : JValue) :
  normalizeDocument doc = Ok d1 ->
  exists p1, d1 = JObj p1 /\ normalizeDocument p1 = Ok d1.
Proof.
  unfold normalizeDocument.
  destruct (normalized_version doc) as [version|] eqn:Hv; [|discriminate].
  apply normalized_version_trimmed in Hv as [Htrim Hne].
  set (o := obj_set (spread [] doc) "version" (JStr version)).
  intros H. assert (Hd1 : d1 = deepClean (JObj o)) by congruence.
  clear H. subst d1.
  assert (Ho : List.NoDup (map fst o)).
  { apply obj_set_NoDup, spread_NoDup. constructor. }
  rewrite (deepClean_obj o Ho).
  exists (clean_entries o). split; [reflexivity|].
  assert (Hkeep : shouldDrop (JStr version) = false).
  { cbn. rewrite Htrim. destruct (String.eqb_spec version ""); congruence. }
  assert (Hget : obj_get (clean_entries o) "version" = Some (JStr version)).
  { rewrite (obj_get_clean_entries o _ Ho). unfold o.
    rewrite obj_get_set. cbn [String.eqb Ascii.eqb Bool.eqb deepClean].
    rewrite Hkeep. reflexivity. }
  unfold normalized_version. rewrite Hget, Htrim.
  destruct (String.eqb_spec version ""); [contradiction|].
  rewrite (spread_fresh [] _ (clean_entries_NoDup o Ho)). cbn [app].
  rewrite (obj_set_same _ _ _ Hget), <- (deepClean_obj o Ho).
  rewrite (deepClean_settled _ (deepClean_is_settled (JObj o))). reflexivity.
Qed.

(** C10: deepClean is idempotent; no element or property value inside its
    result, at any depth, is undefined, null, a whitespace-only string, an
    empty array or an empty object; and normalizing a normalized document
    gives the same document. *)
Theorem deepClean_idempotent :
  (forall v : JValue, deepClean (deepClean v) = deepClean v) /\
  (forall v x : JValue, inside x (deepClean v) -> ~ empty_value x) /\
  (forall (doc : JProps) (d1 : JValue),
     normalizeDocument doc = Ok d1 ->
     exists p1, d1 = JObj p1 /\ normalizeDocument p1 = Ok d1).
Proof.
  split; [|split].
  - intros v. apply deepClean_settled, deepClean_is_settled.
  - intros v x Hin Hempty.
    pose proof (inside_settled x _ Hin (deepClean_is_settled v)) as Hk.
    unfold kept in Hk. apply andb_true_iff in Hk as [Hd _].
    rewrite (shouldDrop_empty_value x Hempty) in Hd. discriminate Hd.
  - apply normalizeDocument_again.
Qed.

Lemma deepClean_idempotent_witness :
  exists p1, ex_doc_normalized = JObj p1 /\
             normalizeDocument p1 = Ok ex_doc_normalized.
Proof.
  apply (proj2 (proj2 deepClean_idempotent) ex_doc ex_doc_normalized).
  reflexivity.
Defined.

(** An own property "__proto__" of an object, as JSON.parse creates it, is
    not kept: [acc[key] = val] creates no property for that key. *)
Example deepClean_proto_key :
  deepClean (JObj [("__proto__", JObj [("a", JNum 1%Z)]); ("c", JNum 1%Z)])
  = JObj [("c", JNum 1%Z)].
Proof. reflexivity. Qed.

(** ** executeFlow *)

Lemma props_of_base_NoDup (b : NodeBase) : List.NoDup (map fst (props_of_base b)).
Proof.
  apply NoDup_ListNoDup. unfold props_of_base.
  destruct (node_name b), (node_description b), (node_inputs b),
    (node_outputs b), (node_layout b); cbn;
    apply (bool_decide_unpack _); vm_compute; reflexivity.
Qed.

Lemma props_of_kind_NoDup (k : NodeKind) : List.NoDup (map fst (props_of_kind k)).
Proof.
  apply NoDup_ListNoDup.
  destruct k as [| |a [p|] [t|] [ps|]|[p|] [s|]|t| |[c|]|[m|] [c|]|f]; cbn;
    apply (bool_decide_unpack _); vm_compute; reflexivity.
Qed.

(** No kind interface has an [id] field. *)
Lemma props_of_kind_no_id (k : NodeKind) : obj_get (props_of_kind k) "id" = None.
Proof.
  destruct k as [| |a [p|] [t|] [ps|]|[p|] [s|]|t| |[c|]|[m|] [c|]|f]; reflexivity.
Qed.

(** The flat object is the union of the base and the kind properties. *)
Lemma flatten_node_get (n : FlowNode) (key : string) :
  obj_get (flatten_node n) key =
  match obj_get (props_of_kind (kind n)) key with
  | Some v => Some v
  | None => obj_get (props_of_base (base n)) key
  end.
Proof.
  unfold flatten_node.
  rewrite (obj_get_spread _ _ _ (props_of_kind_NoDup _)).
  rewrite (obj_get_spread _ _ _ (props_of_base_NoDup _)).
  destruct (obj_get (props_of_kind (kind n)) key); [reflexivity|].
  destruct (obj_get (props_of_base (base n)) key); reflexivity.
Qed.

Lemma flatten_node_keys (n : FlowNode) (key : string) :
  In key (map fst (flatten_node n)) <->
  In key (map fst (props_of_base (base n))) \/
  In key (map fst (props_of_kind (kind n))).
Proof.
  unfold flatten_node, spread.
  generalize (props_of_kind (kind n)) as ks.
  generalize (props_of_base (base n)) as bs.
  assert (G : forall (src tgt : JProps),
             In key (map fst (fold_left
                       (fun acc kv => obj_set acc (fst kv) (snd kv)) src tgt)) <->
             In key (map fst tgt) \/ In key (map fst src)).
  { induction src as [|[k v] src IH]; cbn; intros tgt; [tauto|].
    rewrite IH, obj_set_keys. intuition congruence. }
  intros bs ks. rewrite !G. cbn. tauto.
Qed.

Example flatten_node_agent :
  flatten_node {| base := mk_base "work" [{| input_from := "start/out" |}] [out_slot];
                  kind := AgentNode "writer" None (Some ["search"]) None |} =
  [("id", JStr "work");
   ("inputs", JArr [JObj [("from", JStr "start/out")]]);
   ("outputs", JArr [JObj [("label", JStr "out")]]);
   ("type", JStr "agent"); ("agent", JStr "writer");
   ("tools", JArr [JStr "search"])].
Proof. reflexivity. Qed.

Lemma Forall2_map_self {A B : Type} (P : A -> B -> Prop) (f : A -> B) (l : list A) :
  (forall x, P x (f x)) -> Forall2 P l (map f l).
Proof. intros H. induction l; cbn; constructor; auto. Qed.

(** C9: the payload built by executeFlow carries the document's agents,
    tools and prompts unchanged, and as many flows, each with its id, entry
    and edges unchanged; the nodes of a flow are replaced, one for one and in
    order, by flat objects whose properties are those of the node's base and
    of its kind, with the node's id under "id". *)
Theorem executeFlow_payload :
  forall (flow : FlowDocument) (input : string) (context : option JProps),
    let payload := body_flow (executeFlow flow input context) in
    bd_agents payload = doc_agents flow /\
    bd_tools payload = doc_tools flow /\
    bd_prompts payload = doc_prompts flow /\
    Forall2
      (fun (f : FlowDefinition) (bf : BackendFlow) =>
         bf_id bf = flow_id f /\
         bf_entry bf = flow_entry f /\
         bf_edges bf = flow_edges f /\
         List.length (bf_nodes bf) = List.length (flow_nodes f) /\
         Forall2
           (fun (n : FlowNode) (flat : JProps) =>
              obj_get flat "id" = Some (JStr (node_id (base n))) /\
              (forall key,
                 In key (map fst flat) <->
                 In key (map fst (props_of_base (base n))) \/
                 In key (map fst (props_of_kind (kind n)))) /\
              (forall key v,
                 obj_get flat key = Some v <->
                 obj_get (props_of_kind (kind n)) key = Some v \/
                 (obj_get (props_of_kind (kind n)) key = None /\
                  obj_get (props_of_base (base n)) key = Some v)))
           (flow_nodes f) (bf_nodes bf))
      (doc_flows flow) (bd_flows payload).
Proof.
  intros flow input context payload. subst payload.
  unfold executeFlow, backendFlow. cbn [body_flow bd_agents bd_tools bd_prompts bd_flows].
  repeat (split; [reflexivity|]).
  apply Forall2_map_self. intros f.
  cbn [bf_id bf_entry bf_edges bf_nodes].
  repeat (split; [reflexivity|]). split; [apply length_map|].
  apply Forall2_map_self. intros n.
  split; [|split].
  - rewrite flatten_node_get, props_of_kind_no_id. reflexivity.
  - apply flatten_node_keys.
  - intros key v. rewrite flatten_node_get.
    destruct (obj_get (props_of_kind (kind n)) key) as [w|].
    + split; [intros H; left; exact H|].
      intros [H|[H _]]; [exact H|discriminate H].
    + split; [intros H; right; split; [reflexivity|exact H]|].
      intros [H|[_ H]]; [discriminate H|exact H].
Qed.

(** * Properties of the engine model *)

(** ** The graph of a flow *)

Lemma find_node_some (nodes : list FlowNode) (id : string) (n : FlowNode) :
  find_node nodes id = Some n -> In n nodes /\ node_id (base n) = id.
Proof.
  unfold find_node. intros Hn. apply find_some in Hn as [Hin Heq].
  split; [exact Hin|]. apply String.eqb_eq, Heq.
Qed.

Lemma find_flow_some (doc : FlowDocument) (id : string) (f : FlowDefinition) :
  find_flow doc id = Some f -> In f (doc_flows doc) /\ flow_id f = id.
Proof.
  unfold find_flow. intros Hf. apply find_some in Hf as [Hin Heq].
  split; [exact Hin|]. apply String.eqb_eq, Heq.
Qed.

Lemma mem_In (id : string) (l : list string) : mem id l = true <-> In id l.
Proof.
  unfold mem. rewrite existsb_exists. split.
  - intros (x & Hx & Heq). apply String.eqb_eq in Heq. subst x. exact Hx.
  - intros Hin. exists id. split; [exact Hin|apply String.eqb_refl].
Qed.

Lemma mem_not_In (id : string) (l : list string) : mem id l = false -> ~ In id l.
Proof. intros Hm Hin. apply mem_In in Hin. congruence. Qed.

Lemma out_edges_In (f : FlowDefinition) (id : string) (e : FlowEdge) :
  In e (out_edges f id) -> In e (flow_edges f) /\ edge_source e = id.
Proof.
  unfold out_edges. intros He. apply filter_In in He as [Hin Heq].
  split; [exact Hin|]. apply String.eqb_eq, Heq.
Qed.

(** The nodes of a chain are nodes of the flow. *)
Lemma chain_from_nodes (f : FlowDefinition) (loop : string) :
  forall fuel id n, In n (fst (chain_from fuel f loop id)) -> In n (flow_nodes f).
Proof.
  induction fuel as [|fuel IH]; intros id n; cbn; [intros []|].
  destruct (String.eqb id loop); [intros []|].
  destruct (find_node (flow_nodes f) id) as [x|] eqn:Hx; [|intros []].
  destruct (chainable f x); [|intros []].
  destruct (out_edges f id) as [|e es]; [intros []|].
  destruct (chain_from fuel f loop (edge_to e)) as [rest closed] eqn:Hrest.
  cbn. intros [<-|Hin].
  - apply (find_node_some _ _ _ Hx).
  - apply (IH (edge_to e)). rewrite Hrest. exact Hin.
Qed.

Lemma loop_body_nodes (f : FlowDefinition) (loop n : FlowNode) :
  In n (fst (loop_body f loop)) -> In n (flow_nodes f).
Proof.
  unfold loop_body. destruct (List.find _ _) as [e|].
  - apply chain_from_nodes.
  - destruct (out_edges f _) as [|e [|e' es]]; cbn; try (intros []).
    apply chain_from_nodes.
Qed.

Lemma conclude_cases (m : Machine) :
  (complete m = true /\ conclude m = Stop (Completed m)) \/
  (complete m = false /\ conclude m = Continue m).
Proof.
  unfold conclude, complete.
  destruct (negb _ && forallb _ _); [left|right]; split; reflexivity.
Qed.

Lemma conclude_machine (m : Machine) :
  step_machine (conclude m) = m /\ step_error (conclude m) = None.
Proof.
  destruct (conclude_cases m) as [[_ ->]|[_ ->]]; split; reflexivity.
Qed.

(** ** What every handler and every run keeps

    A relation [Q f c c' e] between the context [c] a handler or a run of
    the flow [f] starts from, the context [c'] it ends with and its error
    [e], if any, holds of every handler and every run once it holds of the
    context updates and is kept by the entry into a subflow and the return
    from it. *)

Section Schema.
Context `{Collaborators}.
Variables (doc : FlowDocument) (opts : Options) (task : string).
Variable Q : FlowDefinition -> ExecutionContext -> ExecutionContext ->
             option FlowError -> Prop.
Hypothesis HQ : Kept doc Q.

Local Abbreviation Q_refl := (kept_refl doc Q HQ).
Local Abbreviation Q_trans := (kept_trans doc Q HQ).
Local Abbreviation Q_bind := (kept_bind doc Q HQ).
Local Abbreviation Q_turns := (kept_turns doc Q HQ).
Local Abbreviation Q_count := (kept_count doc Q HQ).
Local Abbreviation Q_model := (kept_model doc Q HQ).
Local Abbreviation Q_tool := (kept_tool doc Q HQ).
Local Abbreviation Q_fail := (kept_fail doc Q HQ).
Local Abbreviation Q_cycle := (kept_cycle doc Q HQ).
Local Abbreviation Q_call := (kept_call doc Q HQ).
Local Abbreviation Q_child := (kept_child doc Q HQ).

Ltac plainly := let t := fresh in intros t; discriminate.

Ltac chain :=
  repeat first
    [ apply Q_refl
    | eapply Q_trans; [|apply Q_bind]
    | eapply Q_trans; [|apply Q_turns]
    | eapply Q_trans; [|apply Q_count]
    | eapply Q_trans; [|apply Q_model]
    | eapply Q_trans; [|apply Q_tool]
    | eapply Q_trans; [|apply Q_fail; plainly] ].

Lemma Q_parallel (f : FlowDefinition) (n : FlowNode) (v : Value)
    (labels : list string) (c : ExecutionContext) :
  Q f c (fold_right (fun l c' => bind_output (output_key n l) v c') c labels) None.
Proof.
  induction labels as [|l ls IH]; cbn; [apply Q_refl|].
  eapply Q_trans; [exact IH|apply Q_bind].
Qed.

Lemma handle_agent_Q (f : FlowDefinition) (n : FlowNode) (agent : string)
    (prompt : option string) (tools : option (list string))
    (parameters : option CallSettings) (c : ExecutionContext) :
  let r := handle_agent doc opts n agent prompt tools parameters c in
  Q f c (handler_ctx r) (handler_error r).
Proof.
  unfold handle_agent. destruct (List.find _ _); [|cbn; chain].
  destruct (agent_turn _ _ _ _ _); cbn; chain.
Qed.

Lemma handle_tool_Q (f g : FlowDefinition) (n : FlowNode) (tool : string)
    (c : ExecutionContext) :
  let r := handle_tool doc g n tool c in
  Q f c (handler_ctx r) (handler_error r).
Proof.
  unfold handle_tool. destruct (List.find _ _); [|cbn; chain].
  destruct (invoke _ _); cbn; chain.
Qed.

Lemma handle_decision_Q (f g : FlowDefinition) (n : FlowNode)
    (prompt : option string) (strategy : option DecisionStrategy)
    (c : ExecutionContext) :
  let r := handle_decision g n prompt strategy c in
  Q f c (handler_ctx r) (handler_error r).
Proof.
  unfold handle_decision. destruct strategy as [[|]|].
  - destruct (classify _ _ _); [|cbn; chain].
    destruct (mem _ _); cbn; chain.
  - destruct (List.find _ _); cbn; chain.
  - destruct (classify _ _ _); [|cbn; chain].
    destruct (mem _ _); cbn; chain.
Qed.

Section Handlers.
Variable sub : FlowDefinition -> ExecutionContext -> option RunResult.
Hypothesis Hsub :
  forall child cc res,
    sub child cc = Some res -> Q child cc (ctx (result_machine res)) (result_error res).

Lemma handle_subflow_Q (f : FlowDefinition) (n : FlowNode) (target : string)
    (c : ExecutionContext) (r : HandlerResult) :
  In n (flow_nodes f) -> kind n = SubflowNode target ->
  handle_subflow sub doc n target c = Some r ->
  Q f c (handler_ctx r) (handler_error r).
Proof.
  intros Hin Hkind. unfold handle_subflow.
  destruct (mem target (call_stack c)) eqn:Hmem.
  - intros [= <-]. cbn. apply Q_cycle; assumption.
  - pose proof (Q_call f n target c Hmem) as Hcall.
    destruct (find_flow doc target) as [child|] eqn:Hchild.
    + destruct (sub child _) as [res|] eqn:Hres; [|discriminate].
      pose proof (Hsub _ _ _ Hres) as Hq.
      pose proof (Q_child f n target
                    (log_events [SubflowCall (node_id (base n)) target] c)
                    child _ _ Hin Hkind Hmem Hchild Hq) as Hc.
      destruct res as [cm|err cm]; intros [= <-]; cbn in *.
      * eapply Q_trans; [exact Hcall|]. eapply Q_trans; [exact Hc|apply Q_bind].
      * eapply Q_trans; [exact Hcall|exact Hc].
    + intros [= <-]. cbn. eapply Q_trans; [exact Hcall|apply Q_fail; plainly].
Qed.

Lemma exec_chain_node_Q (f : FlowDefinition) (n : FlowNode) (c : ExecutionContext)
    (r : HandlerResult) :
  In n (flow_nodes f) ->
  exec_chain_node sub doc opts f n c = Some r ->
  Q f c (handler_ctx r) (handler_error r).
Proof.
  intros Hin. unfold exec_chain_node.
  destruct (kind n) eqn:Hkind; try solve [intros [= <-]; cbn; chain].
  - intros [= <-]. apply handle_agent_Q.
  - intros [= <-]. apply handle_tool_Q.
  - apply handle_subflow_Q; assumption.
Qed.

Lemma run_chain_Q (f : FlowDefinition) (closed : bool) (body : list FlowNode) :
  (forall n, In n body -> In n (flow_nodes f)) ->
  forall c r,
    run_chain (exec_chain_node sub doc opts f) f closed body c = Some r ->
    Q f c (body_ctx r) (body_error r).
Proof.
  induction body as [|n rest IH]; intros Hbody c r.
  - intros [= <-]. cbn. apply Q_refl.
  - cbn [run_chain].
    destruct (exec_chain_node sub doc opts f n c) as [hr|] eqn:Hhr; [|discriminate].
    pose proof (exec_chain_node_Q f n c hr (Hbody n (or_introl eq_refl)) Hhr) as Hq.
    destruct hr as [from sel c'|v c'|err c']; cbn in Hq.
    + match goal with |- context [if ?b then _ else _] => destruct b end.
      * intros Hr. eapply Q_trans; [exact Hq|].
        apply IH; [|exact Hr]. intros x Hx. apply Hbody. right. exact Hx.
      * intros [= <-]. cbn. eapply Q_trans; [exact Hq|apply Q_fail; plainly].
    + intros [= <-]. cbn. eapply Q_trans; [exact Hq|apply Q_fail; plainly].
    + intros [= <-]. cbn. exact Hq.
Qed.

Lemma iterate_Q (f : FlowDefinition) (closed : bool) (body : list FlowNode)
    (loop : FlowNode) (condition : option string) :
  (forall n, In n body -> In n (flow_nodes f)) ->
  forall remaining done c r,
    iterate (exec_chain_node sub doc opts f) f closed body remaining done loop
            condition c = Some r ->
    Q f c (body_ctx r) (body_error r).
Proof.
  intros Hbody. induction remaining as [|k IH]; intros done c r.
  - intros [= <-]. cbn. apply Q_refl.
  - cbn [iterate].
    destruct (run_chain _ f closed body c) as [br|] eqn:Hbr; [|discriminate].
    pose proof (run_chain_Q f closed body Hbody c br Hbr) as Hq.
    destruct br as [c1|err c1]; cbn in Hq.
    + match goal with |- context [if ?b then _ else _] => destruct b end.
      * intros [= <-]. cbn. eapply Q_trans; [exact Hq|apply Q_count].
      * intros Hr. eapply Q_trans; [exact Hq|].
        eapply Q_trans; [apply Q_count|]. apply IH with (1 := Hr).
    + intros [= <-]. cbn. exact Hq.
Qed.

Lemma handle_loop_Q (f : FlowDefinition) (n : FlowNode)
    (max_iterations : option number) (condition : option string)
    (c : ExecutionContext) (r : HandlerResult) :
  handle_loop (exec_chain_node sub doc opts f) f n max_iterations condition c
  = Some r ->
  Q f c (handler_ctx r) (handler_error r).
Proof.
  unfold handle_loop. pose proof (loop_body_nodes f n) as Hbody.
  destruct (loop_body f n) as [body closed]. cbn in Hbody.
  destruct (iterate _ f closed body _ 0 n condition _) as [br|] eqn:Hbr;
    [|discriminate].
  apply iterate_Q in Hbr; [|exact Hbody].
  destruct br as [c'|err c']; intros [= <-]; cbn in *;
    (eapply Q_trans; [|exact Hbr]); chain.
Qed.

Lemma exec_node_Q (f : FlowDefinition) (n : FlowNode) (c : ExecutionContext)
    (r : HandlerResult) :
  In n (flow_nodes f) ->
  exec_node sub doc opts task f n c = Some r ->
  Q f c (handler_ctx r) (handler_error r).
Proof.
  intros Hin. unfold exec_node.
  destruct (kind n) eqn:Hkind; try solve [intros [= <-]; cbn; chain].
  - intros [= <-]. apply handle_agent_Q.
  - intros [= <-]. apply handle_decision_Q.
  - intros [= <-]. apply handle_tool_Q.
  - intros [= <-]. cbn. apply Q_parallel.
  - apply handle_loop_Q.
  - apply handle_subflow_Q; assumption.
Qed.

Lemma fire_Q (f : FlowDefinition) (m : Machine) (id : string) (n : FlowNode)
    (r : HandlerResult) (c0 : ExecutionContext) :
  Q f c0 (ctx m) None ->
  Q f (ctx m) (handler_ctx r) (handler_error r) ->
  Q f c0 (ctx (step_machine (fire f m id n r))) (step_error (fire f m id n r)).
Proof.
  intros H0 Hr. unfold fire. destruct r as [from sel c'|v c'|err c']; cbn in Hr.
  - match goal with |- context [conclude ?x] =>
      destruct (conclude_machine x) as [-> ->] end.
    cbn. eapply Q_trans; eassumption.
  - match goal with |- context [conclude ?x] =>
      destruct (conclude_machine x) as [-> ->] end.
    cbn. eapply Q_trans; eassumption.
  - cbn. eapply Q_trans; eassumption.
Qed.

Lemma step_Q (f : FlowDefinition) (m : Machine) (s : Step) (c0 : ExecutionContext) :
  Q f c0 (ctx m) None ->
  step sub doc opts task f m = Some s ->
  Q f c0 (ctx (step_machine s)) (step_error s).
Proof.
  intros H0. unfold step. destruct (pick f m) as [id|].
  - destruct (find_node (flow_nodes f) id) as [n|] eqn:Hn.
    + destruct (exec_node sub doc opts task f n (ctx m)) as [r|] eqn:Hr;
        [|discriminate].
      intros [= <-]. apply fire_Q; [exact H0|].
      apply (exec_node_Q f n); [apply (find_node_some _ _ _ Hn)|exact Hr].
    + intros [= <-]. cbn. eapply Q_trans; [exact H0|apply Q_fail; plainly].
  - intros [= <-]. cbn. eapply Q_trans; [exact H0|apply Q_fail; plainly].
Qed.

Lemma drive_Q (f : FlowDefinition) (c0 : ExecutionContext) :
  forall fuel m res,
    Q f c0 (ctx m) None ->
    drive fuel sub doc opts task f m = Some res ->
    Q f c0 (ctx (result_machine res)) (result_error res).
Proof.
  induction fuel as [|fuel IH]; intros m res H0; [discriminate|].
  cbn [drive]. destruct (step sub doc opts task f m) as [s|] eqn:Hs; [|discriminate].
  pose proof (step_Q f m s c0 H0 Hs) as Hq.
  destruct s as [m'|r].
  - apply IH. exact Hq.
  - intros [= <-]. exact Hq.
Qed.

Lemma visited_Q (f : FlowDefinition) (c0 : ExecutionContext) :
  forall fuel m m0,
    Q f c0 (ctx m) None ->
    In m0 (visited fuel sub doc opts task f m) ->
    Q f c0 (ctx m0) None.
Proof.
  induction fuel as [|fuel IH]; intros m m0 H0; [intros []|].
  cbn [visited]. intros [<-|Hin]; [exact H0|].
  destruct (step sub doc opts task f m) as [[m'|r]|] eqn:Hs; try destruct Hin.
  apply (IH m'); [|exact Hin]. apply (step_Q f m _ c0 H0 Hs).
Qed.

End Handlers.

Lemma run_flow_Q :
  forall depth fuel f c res,
    run_flow depth fuel doc opts task f c = Some res ->
    Q f c (ctx (result_machine res)) (result_error res).
Proof.
  induction depth as [|depth IH]; intros fuel f c res; [discriminate|].
  cbn [run_flow]. apply drive_Q.
  - intros child cc r. apply IH.
  - apply Q_refl.
Qed.

End Schema.

(** ** The context only grows *)

Lemma grows_refl (c : ExecutionContext) : grows c c.
Proof. repeat split; reflexivity. Qed.

Lemma grows_trans (a b c : ExecutionContext) : grows a b -> grows b c -> grows a c.
Proof.
  intros (H1 & H2 & H3) (H4 & H5 & H6).
  split; [congruence|]. split; etrans; eassumption.
Qed.

Lemma grows_kept (doc : FlowDocument) : Kept doc (fun _ c c' _ => grows c c').
Proof.
  split; unfold grows; cbn.
  - intros _ c. repeat split; reflexivity.
  - intros _ a b c _ (H1 & H2 & H3) (H4 & H5 & H6).
    split; [congruence|]. split; etrans; eassumption.
  - intros _ k v c. repeat split; reflexivity.
  - intros _ ts c. repeat split; try reflexivity. apply prefix_app_r. reflexivity.
  - intros _ k n c. repeat split; reflexivity.
  - intros _ id c. repeat split; try reflexivity. apply prefix_app_r. reflexivity.
  - intros _ id t c. repeat split; try reflexivity. apply prefix_app_r. reflexivity.
  - intros _ c err _. repeat split; reflexivity.
  - intros _ n target c _ _ _. repeat split; try reflexivity.
    apply prefix_app_r. reflexivity.
  - intros _ n target c _. repeat split; try reflexivity.
    apply prefix_app_r. reflexivity.
  - intros _ n target c child cc e _ _ _ _ (_ & H2 & H3).
    assert (He : events c `prefix_of` events cc).
    { etrans; [|exact H3]. apply prefix_app_r. reflexivity. }
    destruct e; cbn; repeat split; try assumption.
    apply prefix_app_r. exact He.
Qed.

Section Grows.
Context `{Collaborators}.
Variables (doc : FlowDocument) (opts : Options) (task : string).

Lemma run_flow_grows (depth fuel : nat) (f : FlowDefinition) (c : ExecutionContext)
    (res : RunResult) :
  run_flow depth fuel doc opts task f c = Some res ->
  grows c (ctx (result_machine res)).
Proof. apply (run_flow_Q doc opts task _ (grows_kept doc)). Qed.

End Grows.

(** ** Termination of the interpreter loop

    The nodes of a valid flow are ranked so that every edge goes up, but for
    the edges into the body of a loop.  A triggered node weighs
    [width ^ (R - rank)]: more than all the targets it can trigger together.
    The load of the triggered nodes decreases with every step. *)

Lemma pick_In (f : FlowDefinition) (m : Machine) (id : string) :
  pick f m = Some id -> In id (triggered m) /\ eligible f m id = true.
Proof. unfold pick. intros Hp. apply find_some in Hp. exact Hp. Qed.

Section Termination.
Context `{Collaborators}.
Variable f : FlowDefinition.
Variable rank : string -> nat.
Variable R : nat.
Hypothesis Hrank :
  forall e, In e (flow_edges f) -> enters_body f e = false ->
            rank (edge_source e) < rank (edge_to e).
Hypothesis HR : forall e, In e (flow_edges f) -> rank (edge_to e) <= R.

Lemma weight_pos (id : string) : 0 < weight f rank R id.
Proof.
  unfold weight, width.
  pose proof (Nat.pow_nonzero (S (List.length (flow_edges f))) (R - rank id)).
  lia.
Qed.

Lemma weight_mono (a b : string) :
  rank a <= rank b -> weight f rank R b <= weight f rank R a.
Proof.
  intros Hab. unfold weight. apply Nat.pow_le_mono_r; [unfold width|]; lia.
Qed.

Lemma load_app (a b : list string) :
  load f rank R (a ++ b) = load f rank R a + load f rank R b.
Proof. unfold load. rewrite map_app, list_sum_app. reflexivity. Qed.

Lemma load_cons (a : string) (l : list string) :
  load f rank R (a :: l) = weight f rank R a + load f rank R l.
Proof. reflexivity. Qed.

Lemma load_without_le (id : string) (l : list string) :
  load f rank R (without id l) <= load f rank R l.
Proof.
  induction l as [|a l IH]; [reflexivity|].
  unfold without in *. cbn [List.filter].
  destruct (negb (String.eqb a id)); rewrite ?load_cons; lia.
Qed.

Lemma load_without (id : string) (l : list string) :
  In id l -> load f rank R (without id l) + weight f rank R id <= load f rank R l.
Proof.
  induction l as [|a l IH]; [intros []|].
  pose proof (load_without_le id l) as Hle.
  unfold without in *. cbn [List.filter]. intros [->|Hin].
  - rewrite String.eqb_refl. cbn [negb]. rewrite load_cons. lia.
  - specialize (IH Hin).
    destruct (negb (String.eqb a id)); rewrite ?load_cons; lia.
Qed.

Lemma load_dedupe (l seen : list string) :
  load f rank R (dedupe seen l) <= load f rank R l.
Proof.
  revert seen. induction l as [|a l IH]; intros seen; [reflexivity|].
  cbn [dedupe]. destruct (mem a seen).
  - specialize (IH seen). rewrite load_cons. lia.
  - specialize (IH (a :: seen)). rewrite !load_cons. lia.
Qed.

Lemma chainable_not_loop (id : string) (n : FlowNode) :
  find_node (flow_nodes f) id = Some n -> chainable f n = true ->
  is_loop f id = false.
Proof.
  intros Hn Hc. unfold is_loop. rewrite Hn. unfold chainable in Hc.
  destruct (kind n); try discriminate; reflexivity.
Qed.

(** Along a chain the ranks go up. *)
Lemma chain_from_rank (loop : string) :
  forall fuel id x,
    last (fst (chain_from fuel f loop id)) = Some x ->
    rank id <= rank (node_id (base x)).
Proof.
  induction fuel as [|fuel IH]; intros id x; cbn; [discriminate|].
  destruct (String.eqb id loop); [discriminate|].
  destruct (find_node (flow_nodes f) id) as [n|] eqn:Hn; [|discriminate].
  destruct (chainable f n) eqn:Hc; [|discriminate].
  destruct (out_edges f id) as [|e es] eqn:He; [discriminate|].
  destruct (chain_from fuel f loop (edge_to e)) as [rest closed] eqn:Hrest.
  cbn [fst]. destruct rest as [|y rest].
  - intros [= <-]. destruct (find_node_some _ _ _ Hn) as [_ ->]. lia.
  - change (last (n :: y :: rest)) with (last (y :: rest)). intros Hl.
    specialize (IH (edge_to e) x). rewrite Hrest in IH. specialize (IH Hl).
    assert (Hin : In e (out_edges f id)) by (rewrite He; left; reflexivity).
    apply out_edges_In in Hin as [Hin Hsrc].
    assert (Hlt : rank (edge_source e) < rank (edge_to e)).
    { apply Hrank; [exact Hin|]. unfold enters_body. rewrite Hsrc.
      rewrite (chainable_not_loop id n Hn Hc). reflexivity. }
    rewrite Hsrc in Hlt. lia.
Qed.

(** The node behind which the flow goes on when a loop is left is ranked
    at least as high as the loop node. *)
Lemma loop_exit_rank (n : FlowNode) :
  rank (node_id (base n))
  <= rank (node_id (base (if snd (loop_body f n) then n
                          else default n (last (fst (loop_body f n)))))).
Proof.
  unfold loop_body.
  destruct (List.find _ _) as [e0|] eqn:Hfind; [cbn; lia|].
  destruct (out_edges f (node_id (base n))) as [|e [|e' es]] eqn:He;
    cbn [fst snd]; try (cbn; lia).
  destruct (last _) as [x|] eqn:Hl; [|cbn; lia].
  change (default n (Some x)) with x.
  apply chain_from_rank in Hl.
  assert (Hin : In e (out_edges f (node_id (base n)))) by (rewrite He; left; reflexivity).
  pose proof (find_none _ _ Hfind e (or_introl eq_refl)) as Hclose.
  apply out_edges_In in Hin as [Hin Hsrc].
  assert (Hlt : rank (edge_source e) < rank (edge_to e)).
  { apply Hrank; [exact Hin|]. unfold enters_body. rewrite Hsrc, Hclose.
    apply andb_false_r. }
  rewrite Hsrc in Hlt. lia.
Qed.

(** The edges a node resolves are its outgoing edges, a loop's entry into
    its body apart. *)
Lemma exec_node_from
    (sub : FlowDefinition -> ExecutionContext -> option RunResult)
    (doc : FlowDocument) (opts : Options) (task : string) (n : FlowNode)
    (c : ExecutionContext) (from : FlowNode) (sel : Selection)
    (c' : ExecutionContext) :
  exec_node sub doc opts task f n c = Some (Fired from sel c') ->
  rank (node_id (base n)) <= rank (node_id (base from)).
Proof.
  unfold exec_node. destruct (kind n).
  - intros [= <- _ _]. lia.
  - intros [=].
  - unfold handle_agent. intros Hr. repeat case_match; simplify_eq. lia.
  - unfold handle_decision. intros Hr. repeat case_match; simplify_eq; lia.
  - unfold handle_tool. intros Hr. repeat case_match; simplify_eq. lia.
  - intros [= <- _ _]. lia.
  - intros [= <- _ _]. lia.
  - unfold handle_loop. pose proof (loop_exit_rank n) as Hexit.
    destruct (loop_body f n) as [body closed]. cbn [fst snd] in Hexit.
    destruct (iterate _ _ _ _ _ _ _ _ _) as [[c1|err c1]|]; intros [= <- _ _].
    exact Hexit.
  - unfold handle_subflow. intros Hr. repeat case_match; simplify_eq. lia.
Qed.

Lemma targets_load (l : list FlowEdge) (id : string) :
  (forall e, In e l ->
     In e (flow_edges f) /\ edge_source e = id /\ enters_body f e = false) ->
  load f rank R (map edge_to l) <= List.length l * width f ^ (R - S (rank id)).
Proof.
  induction l as [|e l IH]; intros Hl; [cbn; lia|].
  destruct (Hl e (or_introl eq_refl)) as (Hin & Hsrc & Hbody).
  pose proof (Hrank e Hin Hbody) as Hlt. pose proof (HR e Hin) as Hle.
  rewrite Hsrc in Hlt.
  assert (Hw : weight f rank R (edge_to e) <= width f ^ (R - S (rank id))).
  { unfold weight. apply Nat.pow_le_mono_r; [unfold width|]; lia. }
  specialize (IH (fun e' He' => Hl e' (or_intror He'))).
  change (map edge_to (e :: l)) with (edge_to e :: map edge_to l).
  rewrite load_cons. cbn [List.length]. lia.
Qed.

Lemma resolved_load (from : FlowNode) (sel : Selection) (c : ExecutionContext) :
  load f rank R (map edge_to (resolved_edges f from sel c))
  < weight f rank R (node_id (base from)).
Proof.
  unfold resolved_edges.
  set (p := fun e => resolves f e from sel && holds (edge_condition e) c).
  assert (Hl : forall e, In e (List.filter p (flow_edges f)) ->
                 In e (flow_edges f) /\ edge_source e = node_id (base from) /\
                 enters_body f e = false).
  { intros e He. apply filter_In in He as [Hin Hp]. split; [exact Hin|].
    unfold p, resolves in Hp.
    apply andb_true_iff in Hp as [Hp _]. apply andb_true_iff in Hp as [Hp _].
    apply andb_true_iff in Hp as [Hsrc Hbody].
    split; [apply String.eqb_eq, Hsrc|]. apply negb_true_iff, Hbody. }
  pose proof (targets_load _ _ Hl) as Hload.
  pose proof (filter_length_le p (flow_edges f)) as Hlen.
  destruct (List.filter p (flow_edges f)) as [|e l] eqn:El.
  - cbn. apply weight_pos.
  - destruct (Hl e (or_introl eq_refl)) as (Hin & Hsrc & Hbody).
    pose proof (Hrank e Hin Hbody) as Hlt. pose proof (HR e Hin) as Hle.
    rewrite Hsrc in Hlt.
    unfold weight at 1.
    replace (R - rank (node_id (base from)))
      with (S (R - S (rank (node_id (base from))))) by lia.
    rewrite Nat.pow_succ_r'.
    assert (Hpos : 0 < width f ^ (R - S (rank (node_id (base from))))).
    { pose proof (Nat.pow_nonzero (width f) (R - S (rank (node_id (base from))))).
      unfold width in *. lia. }
    unfold width at 1. rewrite <- El in *. nia.
Qed.

(** A step that goes on leaves a smaller load. *)
Lemma fire_load (m : Machine) (id : string) (n : FlowNode) (r : HandlerResult)
    (m' : Machine) :
  In id (triggered m) ->
  (forall from sel c', r = Fired from sel c' ->
     rank id <= rank (node_id (base from))) ->
  fire f m id n r = Continue m' ->
  load f rank R (triggered m') < load f rank R (triggered m).
Proof.
  intros Hin Hfrom. pose proof (load_without id _ Hin) as Hw.
  pose proof (weight_pos id) as Hpos.
  unfold fire. destruct r as [from sel c'|v c'|err c']; [| |discriminate].
  - match goal with |- context [conclude ?x] =>
      destruct (conclude_cases x) as [[_ ->]|[_ ->]] end; [discriminate|].
    intros [= <-]. cbn [triggered]. rewrite load_app.
    pose proof (load_dedupe (map edge_to (resolved_edges f from sel c'))
                  (without id (triggered m))) as Hd.
    pose proof (resolved_load from sel c') as Hr.
    pose proof (weight_mono _ _ (Hfrom from sel c' eq_refl)) as Hm.
    lia.
  - match goal with |- context [conclude ?x] =>
      destruct (conclude_cases x) as [[_ ->]|[_ ->]] end; [discriminate|].
    intros [= <-]. cbn [triggered]. lia.
Qed.

(** With enough fuel the loop returns, provided the handlers do. *)
Lemma drive_total
    (sub : FlowDefinition -> ExecutionContext -> option RunResult)
    (doc : FlowDocument) (opts : Options) (task : string) (stack : list string) :
  (forall n c, In n (flow_nodes f) -> call_stack c = stack ->
     exists r, exec_node sub doc opts task f n c = Some r /\
               call_stack (handler_ctx r) = stack) ->
  forall fuel m,
    call_stack (ctx m) = stack ->
    load f rank R (triggered m) < fuel ->
    is_Some (drive fuel sub doc opts task f m).
Proof.
  intros Hexec. induction fuel as [|fuel IH]; intros m Hstack Hload; [lia|].
  cbn [drive]. unfold step.
  destruct (pick f m) as [id|] eqn:Hpick; [|eauto].
  destruct (find_node (flow_nodes f) id) as [n|] eqn:Hn; [|eauto].
  destruct (find_node_some _ _ _ Hn) as [Hin Hid].
  destruct (Hexec n (ctx m) Hin Hstack) as (r & Hr & Hstack'). rewrite Hr.
  destruct (fire f m id n r) as [m'|res] eqn:Hfire; [|eauto].
  apply IH.
  - unfold fire in Hfire. destruct r as [from sel c'|v c'|err c']; [| |discriminate];
      match type of Hfire with context [conclude ?x] =>
        destruct (conclude_cases x) as [[_ Hc]|[_ Hc]]; rewrite Hc in Hfire end;
      try discriminate; injection Hfire as <-; exact Hstack'.
  - apply pick_In in Hpick as [Hpick _].
    pose proof (fire_load m id n r m' Hpick) as Hl.
    assert (load f rank R (triggered m') < load f rank R (triggered m)); [|lia].
    apply Hl; [|exact Hfire]. intros from sel c' ->.
    rewrite <- Hid. eapply exec_node_from. exact Hr.
Qed.

End Termination.

(** ** The handlers return *)

Section HandlersTotal.
Context `{Collaborators}.
Variable sub : FlowDefinition -> ExecutionContext -> option RunResult.
Variables (doc : FlowDocument) (opts : Options) (task : string).
Variable f : FlowDefinition.
Variable stack : list string.
Hypothesis Hgrow :
  forall child cc res, sub child cc = Some res -> grows cc (ctx (result_machine res)).
Hypothesis Htotal :
  forall target child c,
    mem target stack = false -> find_flow doc target = Some child ->
    call_stack c = target :: stack -> is_Some (sub child c).

Lemma handle_subflow_total (n : FlowNode) (target : string) (c : ExecutionContext) :
  call_stack c = stack -> is_Some (handle_subflow sub doc n target c).
Proof.
  intros Hstack. unfold handle_subflow. rewrite Hstack.
  destruct (mem target stack) eqn:Hmem; [eauto|].
  destruct (find_flow doc target) as [child|] eqn:Hchild; [|eauto].
  destruct (Htotal target child
              (child_context target
                 (log_events [SubflowCall (node_id (base n)) target] c))
              Hmem Hchild) as [res Hres].
  - cbn. rewrite Hstack. reflexivity.
  - rewrite Hres. destruct res; eauto.
Qed.

Lemma exec_chain_node_total (n : FlowNode) (c : ExecutionContext) :
  call_stack c = stack -> is_Some (exec_chain_node sub doc opts f n c).
Proof.
  intros Hstack. unfold exec_chain_node. destruct (kind n); eauto.
  apply handle_subflow_total, Hstack.
Qed.

Lemma run_chain_total (closed : bool) (body : list FlowNode) :
  (forall n, In n body -> In n (flow_nodes f)) ->
  forall c, call_stack c = stack ->
    is_Some (run_chain (exec_chain_node sub doc opts f) f closed body c).
Proof.
  induction body as [|n rest IH]; intros Hbody c Hstack; cbn [run_chain]; [eauto|].
  destruct (exec_chain_node_total n c Hstack) as [r Hr]. rewrite Hr.
  pose proof (exec_chain_node_Q doc opts _ (grows_kept doc) sub Hgrow f n c r
                (Hbody n (or_introl eq_refl)) Hr) as (Hs & _).
  destruct r as [from sel c'|v c'|err c']; eauto.
  match goal with |- context [if ?b then _ else _] => destruct b end; [|eauto].
  apply IH; [|cbn in Hs; congruence]. intros x Hx. apply Hbody. right. exact Hx.
Qed.

Lemma iterate_total (closed : bool) (body : list FlowNode) (loop : FlowNode)
    (condition : option string) :
  (forall n, In n body -> In n (flow_nodes f)) ->
  forall remaining done c, call_stack c = stack ->
    is_Some (iterate (exec_chain_node sub doc opts f) f closed body remaining done
                     loop condition c).
Proof.
  intros Hbody. induction remaining as [|k IH]; intros done c Hstack;
    cbn [iterate]; [eauto|].
  destruct (run_chain_total closed body Hbody c Hstack) as [br Hbr]. rewrite Hbr.
  pose proof (run_chain_Q doc opts _ (grows_kept doc) sub Hgrow f closed body
                Hbody c br Hbr) as (Hs & _).
  destruct br as [c1|err c1]; [|eauto].
  match goal with |- context [if ?b then _ else _] => destruct b end; [eauto|].
  apply IH. cbn in *. congruence.
Qed.

Lemma exec_node_total (n : FlowNode) (c : ExecutionContext) :
  In n (flow_nodes f) -> call_stack c = stack ->
  exists r, exec_node sub doc opts task f n c = Some r /\
            call_stack (handler_ctx r) = stack.
Proof.
  intros Hin Hstack.
  assert (Hsome : is_Some (exec_node sub doc opts task f n c)).
  { unfold exec_node. destruct (kind n); eauto.
    - unfold handle_loop. pose proof (loop_body_nodes f n) as Hbody.
      destruct (loop_body f n) as [body closed]. cbn [fst] in Hbody.
      match goal with |- context [iterate ?e f closed body ?k 0 n ?cond ?c0] =>
        destruct (iterate_total closed body n cond Hbody k 0 c0 Hstack)
          as [br Hbr]; rewrite Hbr end.
      destruct br; eauto.
    - apply handle_subflow_total, Hstack. }
  destruct Hsome as [r Hr]. exists r. split; [exact Hr|].
  pose proof (exec_node_Q doc opts task _ (grows_kept doc) sub Hgrow f n c r Hin Hr)
    as (Hs & _).
  congruence.
Qed.

End HandlersTotal.

(** ** Termination of a run *)

Section RunTotal.
Context `{Collaborators}.

Lemma acyclic_enough (f : FlowDefinition) : acyclic f -> exists N, enough_for N f.
Proof.
  intros [rank Hrank].
  set (R := list_max (map (fun e => rank (edge_to e)) (flow_edges f))).
  exists (S (load f rank R [flow_entry f])), rank, R. split; [exact Hrank|].
  split; [|lia]. intros e He.
  assert (Hall : List.Forall (fun k => k <= R)
                   (map (fun e => rank (edge_to e)) (flow_edges f))).
  { apply list_max_le. reflexivity. }
  rewrite List.Forall_forall in Hall. apply Hall.
  apply in_map_iff. eauto.
Qed.

Lemma enough_for_mono (N N' : nat) (f : FlowDefinition) :
  N <= N' -> enough_for N f -> enough_for N' f.
Proof.
  intros Hle (rank & R & Hr & HR & Hl). exists rank, R. repeat split; auto. lia.
Qed.

Lemma acyclic_all_enough (flows : list FlowDefinition) :
  (forall f, In f flows -> acyclic f) ->
  exists N, forall f, In f flows -> enough_for N f.
Proof.
  induction flows as [|f flows IH]; intros Hall.
  - exists 0. intros f [].
  - destruct (acyclic_enough f (Hall f (or_introl eq_refl))) as [N1 H1].
    destruct (IH (fun g Hg => Hall g (or_intror Hg))) as [N2 H2].
    exists (Nat.max N1 N2). intros g [<-|Hg].
    + apply (enough_for_mono N1); [lia|exact H1].
    + apply (enough_for_mono N2); [lia|auto].
Qed.

(** A run returns when the call stack has room for the subflow runs still
    to be nested: its ids are distinct flow ids of the document. *)
Lemma run_flow_total (doc : FlowDocument) (opts : Options) (task : string) (N : nat) :
  (forall f, In f (doc_flows doc) -> enough_for N f) ->
  forall depth fuel f c,
    In f (doc_flows doc) ->
    N <= fuel ->
    List.NoDup (call_stack c) ->
    incl (call_stack c) (map flow_id (doc_flows doc)) ->
    List.length (doc_flows doc) < depth + List.length (call_stack c) ->
    is_Some (run_flow depth fuel doc opts task f c).
Proof.
  intros Henough. induction depth as [|depth IH];
    intros fuel f c Hf Hfuel Hnd Hincl Hlen.
  - pose proof (NoDup_incl_length Hnd Hincl) as Hle.
    rewrite length_map in Hle. lia.
  - cbn [run_flow].
    destruct (Henough f Hf) as (rank & R & Hrank & HR & Hload).
    apply (drive_total f rank R Hrank HR _ doc opts task (call_stack c));
      [|reflexivity|cbn [initial_machine triggered]; lia].
    intros n c' Hin Hstack.
    apply exec_node_total; [| |exact Hin|exact Hstack].
    + intros child cc res. apply run_flow_grows.
    + intros target child cc Hmem Hchild Hcc.
      apply find_flow_some in Hchild as [Hchild Hid].
      apply IH; [exact Hchild|exact Hfuel| | |]; rewrite Hcc.
      * constructor; [apply mem_not_In, Hmem|exact Hnd].
      * intros x [<-|Hx]; [|auto]. rewrite <- Hid. apply in_map, Hchild.
      * cbn. lia.
Qed.

End RunTotal.

(** ** More fuel does not change the outcome *)

Section Monotone.
Context `{Collaborators}.
Variables (doc : FlowDocument) (opts : Options) (task : string).

Section MoreFuel.
Variables sub sub' : FlowDefinition -> ExecutionContext -> option RunResult.
Hypothesis Hsub :
  forall child cc res, sub child cc = Some res -> sub' child cc = Some res.

Lemma handle_subflow_mono (n : FlowNode) (target : string) (c : ExecutionContext)
    (r : HandlerResult) :
  handle_subflow sub doc n target c = Some r ->
  handle_subflow sub' doc n target c = Some r.
Proof.
  unfold handle_subflow. destruct (mem _ _); [auto|].
  destruct (find_flow doc target) as [child|]; [|auto].
  destruct (sub child _) as [res|] eqn:Hres; [|discriminate].
  rewrite (Hsub _ _ _ Hres). auto.
Qed.

Lemma exec_chain_node_mono (f : FlowDefinition) (n : FlowNode)
    (c : ExecutionContext) (r : HandlerResult) :
  exec_chain_node sub doc opts f n c = Some r ->
  exec_chain_node sub' doc opts f n c = Some r.
Proof.
  unfold exec_chain_node. destruct (kind n); auto. apply handle_subflow_mono.
Qed.

Lemma run_chain_mono (f : FlowDefinition) (closed : bool) (body : list FlowNode) :
  forall c r,
    run_chain (exec_chain_node sub doc opts f) f closed body c = Some r ->
    run_chain (exec_chain_node sub' doc opts f) f closed body c = Some r.
Proof.
  induction body as [|n rest IH]; intros c r; cbn [run_chain]; [auto|].
  destruct (exec_chain_node sub doc opts f n c) as [hr|] eqn:Hhr; [|discriminate].
  rewrite (exec_chain_node_mono f n c hr Hhr).
  destruct hr; auto.
  match goal with |- context [if ?b then _ else _] => destruct b end; auto.
Qed.

Lemma iterate_mono (f : FlowDefinition) (closed : bool) (body : list FlowNode)
    (loop : FlowNode) (condition : option string) :
  forall remaining done c r,
    iterate (exec_chain_node sub doc opts f) f closed body remaining done loop
            condition c = Some r ->
    iterate (exec_chain_node sub' doc opts f) f closed body remaining done loop
            condition c = Some r.
Proof.
  induction remaining as [|k IH]; intros done c r; cbn [iterate]; [auto|].
  destruct (run_chain _ f closed body c) as [br|] eqn:Hbr; [|discriminate].
  rewrite (run_chain_mono f closed body c br Hbr).
  destruct br; auto.
  match goal with |- context [if ?b then _ else _] => destruct b end; auto.
Qed.

Lemma exec_node_mono (f : FlowDefinition) (n : FlowNode) (c : ExecutionContext)
    (r : HandlerResult) :
  exec_node sub doc opts task f n c = Some r ->
  exec_node sub' doc opts task f n c = Some r.
Proof.
  unfold exec_node. destruct (kind n); auto.
  - unfold handle_loop. destruct (loop_body f n) as [body closed].
    destruct (iterate _ f closed body _ 0 n _ _) as [br|] eqn:Hbr; [|discriminate].
    rewrite (iterate_mono f closed body n _ _ _ _ _ Hbr). auto.
  - apply handle_subflow_mono.
Qed.

Lemma step_mono (f : FlowDefinition) (m : Machine) (s : Step) :
  step sub doc opts task f m = Some s -> step sub' doc opts task f m = Some s.
Proof.
  unfold step. destruct (pick f m) as [id|]; [|auto].
  destruct (find_node (flow_nodes f) id) as [n|]; [|auto].
  destruct (exec_node sub doc opts task f n (ctx m)) as [r|] eqn:Hr; [|discriminate].
  rewrite (exec_node_mono f n _ r Hr). auto.
Qed.

Lemma drive_mono (f : FlowDefinition) :
  forall fuel fuel' m res,
    fuel <= fuel' ->
    drive fuel sub doc opts task f m = Some res ->
    drive fuel' sub' doc opts task f m = Some res.
Proof.
  induction fuel as [|fuel IH]; intros fuel' m res Hle Hres; [discriminate|].
  destruct fuel' as [|fuel']; [lia|]. cbn [drive] in Hres |- *.
  destruct (step sub doc opts task f m) as [s|] eqn:Hs; [|discriminate].
  rewrite (step_mono f m s Hs).
  destruct s as [m'|r]; [|exact Hres]. apply IH; [lia|exact Hres].
Qed.

End MoreFuel.

Lemma run_flow_mono :
  forall depth fuel fuel' f c res,
    fuel <= fuel' ->
    run_flow depth fuel doc opts task f c = Some res ->
    run_flow depth fuel' doc opts task f c = Some res.
Proof.
  induction depth as [|depth IH]; intros fuel fuel' f c res Hle Hres;
    [discriminate|].
  cbn [run_flow] in *. eapply drive_mono; [|exact Hle|exact Hres].
  intros child cc r Hr. eapply IH; [exact Hle|exact Hr].
Qed.

End Monotone.

(** ** Checking validity *)

Lemma spread_along_reachable (f : FlowDefinition) (ids : list string) :
  (forall id, In id ids -> reachable f id) ->
  forall id, In id (spread_along f ids) -> reachable f id.
Proof.
  intros Hids id Hin. unfold spread_along in Hin.
  apply in_app_or in Hin as [Hin|Hin]; [auto|].
  apply in_map_iff in Hin as (e & <- & He).
  apply filter_In in He as [He Hsrc].
  apply (reach_edge f e He). apply Hids, mem_In, Hsrc.
Qed.

Lemma closure_reachable (f : FlowDefinition) (id : string) :
  In id (closure f) -> reachable f id.
Proof.
  unfold closure. generalize (List.length (flow_nodes f)). intros k. revert id.
  induction k as [|k IH]; cbn [Nat.iter].
  - intros id [<-|[]]. apply reach_entry.
  - apply spread_along_reachable, IH.
Qed.

Lemma check_flow_valid (order : list string) (f : FlowDefinition) :
  check_flow order f = true -> valid_flow f.
Proof.
  unfold check_flow. intros Hc.
  apply andb_true_iff in Hc as [Hc Hrank].
  apply andb_true_iff in Hc as [Hc Hreach].
  apply andb_true_iff in Hc as [Hc Hedges].
  apply andb_true_iff in Hc as [Hc Hroot].
  apply andb_true_iff in Hc as [Hids Hentry].
  rewrite forallb_forall in Hrank, Hreach, Hedges, Hroot.
  split.
  - apply NoDup_ListNoDup. apply (bool_decide_eq_true_1 _ Hids).
  - apply (bool_decide_eq_true_1 _ Hentry).
  - intros e He Heq. specialize (Hroot e He). cbn beta in Hroot.
    rewrite Heq, String.eqb_refl in Hroot. discriminate Hroot.
  - intros e He. specialize (Hedges e He). cbn beta in Hedges.
    apply andb_true_iff in Hedges as [H1 H2].
    split; [apply (bool_decide_eq_true_1 _ H1)|apply (bool_decide_eq_true_1 _ H2)].
  - intros n Hn. apply closure_reachable, mem_In. apply (Hreach n Hn).
  - exists (position order). intros e He Hbody.
    specialize (Hrank e He). cbn beta in Hrank. rewrite Hbody in Hrank.
    apply Nat.ltb_lt. exact Hrank.
Qed.

(** ** The outcome of a run *)

Section Outcome.
Context `{Collaborators}.
Variable sub : FlowDefinition -> ExecutionContext -> option RunResult.
Variables (doc : FlowDocument) (opts : Options) (task : string).
Variable f : FlowDefinition.

(** Only an Output node is reached, and its handler leaves the context as
    it is. *)
Lemma exec_node_finished (n : FlowNode) (c : ExecutionContext) (v : Value)
    (c' : ExecutionContext) :
  exec_node sub doc opts task f n c = Some (Finished v c') ->
  kind n = OutputNode /\ c' = c /\ v = passed f c n.
Proof.
  unfold exec_node. destruct (kind n); intros Hr;
    try (unfold handle_input, handle_output, handle_agent, handle_decision,
           handle_tool, handle_merge, handle_parallel, handle_loop,
           handle_subflow in Hr;
         repeat case_match; simplify_eq; auto; fail).
Qed.

Lemma visited_drive :
  forall fuel m m0 res,
    In m0 (visited fuel sub doc opts task f m) ->
    drive fuel sub doc opts task f m = Some res ->
    exists fuel', drive fuel' sub doc opts task f m0 = Some res.
Proof.
  induction fuel as [|fuel IH]; intros m m0 res; [intros []|].
  cbn [visited drive]. intros [<-|Hin] Hres.
  - exists (S fuel). exact Hres.
  - destruct (step sub doc opts task f m) as [[m'|r]|]; try destruct Hin.
    apply (IH m'); assumption.
Qed.

(** A run that returns ends with a step that stops in the last state it
    went through. *)
Lemma drive_last :
  forall fuel m res,
    drive fuel sub doc opts task f m = Some res ->
    exists m0, last (visited fuel sub doc opts task f m) = Some m0 /\
               step sub doc opts task f m0 = Some (Stop res).
Proof.
  induction fuel as [|fuel IH]; intros m res; [discriminate|].
  cbn [visited drive].
  destruct (step sub doc opts task f m) as [[m'|r]|] eqn:Hs; [| |discriminate].
  - intros Hres. destruct (IH m' res Hres) as (m0 & Hl & Hm0).
    exists m0. split; [|exact Hm0]. rewrite last_cons, Hl. reflexivity.
  - intros [= <-]. exists m. split; [reflexivity|exact Hs].
Qed.

Lemma last_In {A : Type} (l : list A) (x : A) : last l = Some x -> In x l.
Proof.
  induction l as [|a l IH]; [discriminate|]. rewrite last_cons.
  destruct (last l) as [y|].
  - intros [= ->]. right. apply IH. reflexivity.
  - intros [= ->]. left. reflexivity.
Qed.

Lemma fire_outputs_fired (m : Machine) (id : string) (n : FlowNode)
    (r : HandlerResult) :
  find_node (flow_nodes f) id = Some n ->
  exec_node sub doc opts task f n (ctx m) = Some r ->
  outputs_fired f m ->
  outputs_fired f (step_machine (fire f m id n r)).
Proof.
  intros Hn Hr Hm. unfold fire. destruct r as [from sel c'|v c'|err c'].
  - match goal with |- context [conclude ?x] =>
      destruct (conclude_machine x) as [-> _] end.
    intros o w Hin. cbn in Hin |- *. destruct (Hm o w Hin) as [Hf Ho].
    split; [apply in_or_app; left; exact Hf|exact Ho].
  - match goal with |- context [conclude ?x] =>
      destruct (conclude_machine x) as [-> _] end.
    intros o w Hin. cbn in Hin |- *. apply in_app_or in Hin as [Hin|[[= <- <-]|[]]].
    + destruct (Hm o w Hin) as [Hf Ho].
      split; [apply in_or_app; left; exact Hf|exact Ho].
    + split; [apply in_or_app; right; left; reflexivity|].
      exists n. split; [exact Hn|]. apply (exec_node_finished _ _ _ _ Hr).
  - exact Hm.
Qed.

Lemma step_outputs_fired (m : Machine) (s : Step) :
  step sub doc opts task f m = Some s ->
  outputs_fired f m -> outputs_fired f (step_machine s).
Proof.
  unfold step. destruct (pick f m) as [id|]; [|intros [= <-]; auto].
  destruct (find_node (flow_nodes f) id) as [n|] eqn:Hn; [|intros [= <-]; auto].
  destruct (exec_node sub doc opts task f n (ctx m)) as [r|] eqn:Hr; [|discriminate].
  intros [= <-]. apply fire_outputs_fired; assumption.
Qed.

Lemma step_complete (m m' : Machine) :
  step sub doc opts task f m = Some (Continue m') -> complete m' = false.
Proof.
  unfold step. destruct (pick f m) as [id|]; [|discriminate].
  destruct (find_node (flow_nodes f) id) as [n|]; [|discriminate].
  destruct (exec_node sub doc opts task f n (ctx m)) as [r|]; [|discriminate].
  intros [= Hfire]. unfold fire in Hfire.
  destruct r as [from sel c'|v c'|err c']; [| |discriminate];
    match type of Hfire with context [conclude ?x] =>
      destruct (conclude_cases x) as [[_ Hc]|[Hx Hc]]; rewrite Hc in Hfire end;
    try discriminate; injection Hfire as <-; exact Hx.
Qed.

Lemma visited_sound :
  forall fuel m m0,
    sound f m -> In m0 (visited fuel sub doc opts task f m) -> sound f m0.
Proof.
  induction fuel as [|fuel IH]; intros m m0 Hm; [intros []|].
  cbn [visited]. intros [<-|Hin]; [exact Hm|].
  destruct (step sub doc opts task f m) as [[m'|r]|] eqn:Hs; try destruct Hin.
  apply (IH m'); [|exact Hin]. split.
  - apply (step_complete m m' Hs).
  - apply (step_outputs_fired m _ Hs), Hm.
Qed.

Lemma forallb_false {A : Type} (p : A -> bool) (l : list A) :
  forallb p l = false -> exists x, In x l /\ p x = false.
Proof.
  induction l as [|a l IH]; [discriminate|]. cbn.
  intros Hp. apply andb_false_iff in Hp as [Hp|Hp].
  - exists a. auto.
  - destruct (IH Hp) as (x & Hx & Hpx). exists x. auto.
Qed.

Lemma complete_false (m : Machine) :
  complete m = false ->
  reached m = [] \/ exists root, In root (detached m) /\ branch_closed m root = false.
Proof.
  unfold complete. intros Hc. apply andb_false_iff in Hc as [Hc|Hc].
  - left. apply negb_false_iff, Nat.eqb_eq in Hc.
    destruct (reached m); [reflexivity|discriminate].
  - right. apply forallb_false in Hc. exact Hc.
Qed.

Lemma complete_true (m : Machine) :
  complete m = true ->
  reached m <> [] /\ forall root, In root (detached m) -> branch_closed m root = true.
Proof.
  unfold complete. intros Hc. apply andb_true_iff in Hc as [Hr Hd]. split.
  - intros Heq. rewrite Heq in Hr. discriminate.
  - apply forallb_forall, Hd.
Qed.

(** The step that stops a run decides its outcome. *)
Lemma stop_outcome (m0 : Machine) (res : RunResult) :
  sound f m0 ->
  step sub doc opts task f m0 = Some (Stop res) ->
  match res with
  | Completed m =>
      complete m = true /\
      (detached m = [] ->
       exists o n,
         reached m = [(o, passed f (ctx m) n)] /\
         find_node (flow_nodes f) o = Some n /\ kind n = OutputNode /\
         last (fired m) = Some o /\ ctx m0 = ctx m /\
         In o (triggered m0) /\ satisfied f m0 n = true)
  | Aborted err m => complete m = false
  end.
Proof.
  intros [Hc Hm]. unfold step. destruct (pick f m0) as [id|] eqn:Hpick;
    [|intros [= <-]; exact Hc].
  destruct (find_node (flow_nodes f) id) as [n|] eqn:Hn; [|intros [= <-]; exact Hc].
  destruct (exec_node sub doc opts task f n (ctx m0)) as [r|] eqn:Hr; [|discriminate].
  intros [= Hfire]. unfold fire in Hfire.
  apply pick_In in Hpick as [Hin Hel]. unfold eligible in Hel. rewrite Hn in Hel.
  apply andb_true_iff in Hel as [Hsat _].
  destruct r as [from sel c'|v c'|err c'].
  - match type of Hfire with context [conclude ?x] =>
      destruct (conclude_cases x) as [[Hx Hcx]|[_ Hcx]]; rewrite Hcx in Hfire end;
      [|discriminate].
    injection Hfire as <-. split; [exact Hx|]. cbn [detached]. intros Hd.
    apply app_eq_nil in Hd as [Hd _].
    destruct (complete_false m0 Hc) as [Hre|(root & Hroot & _)].
    + apply complete_true in Hx as [Hx _]. cbn [reached] in Hx. contradiction.
    + rewrite Hd in Hroot. destruct Hroot.
  - match type of Hfire with context [conclude ?x] =>
      destruct (conclude_cases x) as [[Hx Hcx]|[_ Hcx]]; rewrite Hcx in Hfire end;
      [|discriminate].
    injection Hfire as <-. split; [exact Hx|]. cbn [detached]. intros Hd.
    destruct (exec_node_finished _ _ _ _ Hr) as (Hk & -> & ->).
    exists id, n. cbn [reached fired ctx].
    destruct (complete_false m0 Hc) as [Hre|(root & Hroot & _)].
    + rewrite Hre. repeat split; auto. apply last_snoc.
    + rewrite Hd in Hroot. destruct Hroot.
  - injection Hfire as <-. exact Hc.
Qed.

End Outcome.

Lemma valid_document_checked (order : list string) (doc : FlowDocument) :
  bool_decide (NoDup (map flow_id (doc_flows doc))) = true ->
  forallb (check_flow order) (doc_flows doc) = true ->
  valid_document doc.
Proof.
  intros Hids Hflows. split.
  - apply NoDup_ListNoDup, (bool_decide_eq_true_1 _ Hids).
  - rewrite forallb_forall in Hflows. intros f Hf.
    apply (check_flow_valid order), Hflows, Hf.
Qed.

Lemma initial_machine_sound (f : FlowDefinition) (c : ExecutionContext) :
  sound f (initial_machine f c).
Proof. split; [reflexivity|]. intros o v []. Qed.

(** ** The engine entry point *)




(** ** Subflows and the call stack *)

Lemma replay_app (a b : list Event) :
  forall stack,
    replay stack (a ++ b)
    = match replay stack a with
      | Running stack' => replay stack' b
      | Rejected t => match b with [] => Rejected t | _ => Broken end
      | Broken => Broken
      end.
Proof.
  induction a as [|ev a IH]; intros stack; [reflexivity|].
  destruct ev as [node|node tool|node t|t|t]; cbn [app replay]; try apply IH.
  - destruct (mem t stack); [|apply IH].
    destruct a as [|ev' a]; [reflexivity|]. reflexivity.
  - destruct (mem t stack); [reflexivity|apply IH].
Qed.

(** A trail in order ends with the flows in flight that [in_flight] reads
    from it. *)
Lemma replay_running (evs : list Event) :
  forall stack stack', replay stack evs = Running stack' ->
                       stack' = in_flight stack evs.
Proof.
  induction evs as [|ev evs IH]; intros stack stack'; cbn.
  - intros [= <-]. reflexivity.
  - destruct ev as [node|node tool|node t|t|t]; cbn [track]; try apply IH.
    + destruct (mem t stack); [|apply IH]. destruct evs; discriminate.
    + destruct (mem t stack); [discriminate|apply IH].
Qed.

Lemma replay_rejected (evs : list Event) :
  forall stack t, replay stack evs = Rejected t ->
    exists pre node, evs = pre ++ [SubflowCall node t] /\
                     In t (in_flight stack pre).
Proof.
  induction evs as [|ev evs IH]; intros stack t; cbn; [discriminate|].
  assert (Hstep : forall stack',
            stack' = track stack ev ->
            replay stack' evs = Rejected t ->
            exists pre node, ev :: evs = pre ++ [SubflowCall node t] /\
                             In t (in_flight stack pre)).
  { intros stack' -> Hr. destruct (IH _ _ Hr) as (pre & node & -> & Hin).
    exists (ev :: pre), node. split; [reflexivity|exact Hin]. }
  destruct ev as [node|node tool|node t'|t'|t']; try (apply Hstep; reflexivity).
  - destruct (mem t' stack) eqn:Hmem; [|apply Hstep; reflexivity].
    destruct evs; [|discriminate]. intros [= <-].
    exists [], node. split; [reflexivity|]. apply mem_In, Hmem.
  - destruct (mem t' stack); [discriminate|]. apply Hstep. reflexivity.
Qed.

(** In a trail that is not broken, nothing follows the invocation of a
    flow in flight. *)
Lemma replay_call (pre post : list Event) (node t : string) (stack : list string) :
  In t (in_flight stack pre) ->
  match replay stack (pre ++ SubflowCall node t :: post) with
  | Running _ => False
  | Rejected t' => t' = t /\ post = []
  | Broken => True
  end.
Proof.
  intros Hin. rewrite replay_app.
  destruct (replay stack pre) as [stack'|t'|] eqn:Hpre; [|exact I|exact I].
  apply replay_running in Hpre. subst stack'.
  cbn [replay]. apply mem_In in Hin. rewrite Hin.
  destruct post; [split; reflexivity|exact I].
Qed.

(** In a trail that is not broken, no flow in flight is entered. *)
Lemma replay_entered (pre post : list Event) (t : string) (stack : list string) :
  In t (in_flight stack pre) ->
  replay stack (pre ++ SubflowEntered t :: post) = Broken.
Proof.
  intros Hin. rewrite replay_app.
  destruct (replay stack pre) as [stack'|t'|] eqn:Hpre; [|reflexivity|reflexivity].
  apply replay_running in Hpre. subst stack'.
  cbn [replay]. apply mem_In in Hin. rewrite Hin. reflexivity.
Qed.

Lemma audited_kept (doc : FlowDocument) : Kept doc (fun _ => audited).
Proof.
  assert (Hsame : forall c c', call_stack c' = call_stack c ->
                    events c' = events c -> audited c c' None).
  { intros c c' Hs He. split; [exact Hs|]. exists [].
    rewrite app_nil_r. split; [exact He|reflexivity]. }
  split.
  - intros _ c. apply Hsame; reflexivity.
  - intros _ a b c e (Hs1 & n1 & He1 & Hr1) (Hs2 & n2 & He2 & Hr2).
    split; [congruence|]. exists (n1 ++ n2).
    split; [rewrite He2, He1, app_assoc; reflexivity|].
    rewrite Hs1 in Hr2. rewrite replay_app, Hr1. exact Hr2.
  - intros _ k v c. apply Hsame; reflexivity.
  - intros _ ts c. apply Hsame; reflexivity.
  - intros _ k n c. apply Hsame; reflexivity.
  - intros _ id c. split; [reflexivity|]. exists [ModelCall id].
    split; reflexivity.
  - intros _ id t c. split; [reflexivity|]. exists [ToolCall id t].
    split; reflexivity.
  - intros _ c err Hplain. split; [reflexivity|]. exists [].
    rewrite app_nil_r. split; [reflexivity|exact Hplain].
  - intros _ n target c _ _ Hmem. split; [reflexivity|].
    exists [SubflowCall (node_id (base n)) target]. split; [reflexivity|].
    cbn. rewrite Hmem. reflexivity.
  - intros _ n target c Hmem. split; [reflexivity|].
    exists [SubflowCall (node_id (base n)) target]. split; [reflexivity|].
    cbn. rewrite Hmem. reflexivity.
  - intros _ n target c child cc e _ _ Hmem _ (Hs & new & He & Hr).
    cbn in Hs, He, Hr. destruct e as [err|]; (split; [reflexivity|]).
    + exists (SubflowEntered target :: new). cbn.
      split; [rewrite He, <- app_assoc; reflexivity|]. rewrite Hmem. exact Hr.
    + exists (SubflowEntered target :: new ++ [SubflowLeft target]). cbn.
      split; [rewrite He, <- !app_assoc; reflexivity|].
      rewrite Hmem, replay_app, Hr. reflexivity.
Qed.

Section Cycle.
Variable doc : FlowDocument.

Lemma invokes_transitively_snoc (a b c : string) :
  invokes_transitively doc a b -> invokes doc b c -> invokes_transitively doc a c.
Proof.
  induction 1 as [a b Hab|a b b' Hab _ IH]; intros Hbc.
  - eapply invokes_through; [exact Hab|]. apply invokes_directly, Hbc.
  - eapply invokes_through; [exact Hab|]. apply IH, Hbc.
Qed.

(** A flow lower on the call stack invokes the innermost one, directly or
    transitively. *)
Lemma in_flight_reaches (t h : string) (rest : list string) :
  in_flight_chain doc (h :: rest) -> In t rest -> invokes_transitively doc t h.
Proof.
  revert h. induction rest as [|caller rest IH]; intros h Hchain Hin; [destruct Hin|].
  destruct Hchain as [Hinv Hchain]. destruct Hin as [<-|Hin].
  - apply invokes_directly, Hinv.
  - eapply invokes_transitively_snoc; [|exact Hinv]. apply IH; assumption.
Qed.

Lemma cycle_sound_kept : Kept doc (cycle_sound doc).
Proof.
  assert (Hsame : forall f c c', call_stack c' = call_stack c ->
                    cycle_sound doc f c c' None).
  { intros f c c' Hs _. split; [exact Hs|]. intros t [=]. }
  split; try (intros; apply Hsame; reflexivity).
  - intros f a b c e Hab Hbc Hframed.
    destruct (Hab Hframed) as [Hs1 _]. rewrite <- Hs1 in Hframed.
    destruct (Hbc Hframed) as [Hs2 He]. split; [congruence|exact He].
  - intros f c err Hplain _. split; [reflexivity|].
    intros t [= ->]. destruct (Hplain t eq_refl).
  - intros f n target c Hn Hkind Hmem (Hf & (rest & Hstack) & Hchain).
    split; [reflexivity|]. intros t [= <-].
    assert (Hinv : invokes doc (flow_id f) target).
    { exists f, n. auto. }
    apply mem_In in Hmem. rewrite Hstack in Hmem, Hchain.
    destruct Hmem as [<-|Hin]; [apply invokes_directly, Hinv|].
    eapply invokes_transitively_snoc; [|exact Hinv].
    apply (in_flight_reaches _ _ rest); assumption.
  - intros f n target c child cc e Hn Hkind Hmem Hchild Hcc
           (Hf & (rest & Hstack) & Hchain).
    apply find_flow_some in Hchild as [Hchild Hid].
    destruct Hcc as [_ He].
    { split; [exact Hchild|]. split; [exists (call_stack c); cbn; congruence|].
      cbn. rewrite Hstack in *. split; [|exact Hchain]. exists f, n. auto. }
    destruct e; (split; [reflexivity|exact He]).
Qed.

End Cycle.




(** The entry into a subflow puts the target on the call stack and in the
    audit trail at once: the flows in flight that are read from the trail are
    those on the stack. *)
Lemma child_context_in_flight (target : string) (c : ExecutionContext)
    (root : list string) :
  call_stack c = in_flight root (events c) ->
  call_stack (child_context target c)
  = in_flight root (events (child_context target c)).
Proof.
  intros Hc. unfold in_flight in *. cbn. rewrite fold_left_app. cbn.
  rewrite Hc. reflexivity.
Qed.

(** The child's turns reach the parent: the transcript of the run of
    "outer" holds the turn of the agent of the flow it invokes, and the audit
    trail the entry into that flow and the return from it. *)
Example subflow_turns_kept :
  exists m,
    @run sample_collaborators 10 (sample_document [calling_flow "worker"; worker_flow])
         "outer" "task" sample_options = Some (Completed m) /\
    transcript (ctx m)
    = [{| turn_node := "work"; turn_speaker := "writer";
          turn_text := "reply of writer" |}] /\
    events (ctx m)
    = [SubflowCall "call" "worker"; SubflowEntered "worker"; ModelCall "work";
       SubflowLeft "worker"] /\
    final_output m = VText "reply of writer" /\
    call_stack (ctx m) = ["outer"].
Proof. eexists. split; [vm_compute; reflexivity|]. repeat split. Qed.

(** ** The editor's cycle prevention

    The editor does not offer a Subflow node its own flow as target; it does
    offer a flow that invokes the node's flow, so documents in which a flow
    invokes itself transitively can be authored, and the check at run time is
    the one that rejects them. *)

Lemma subflowOptions_excludes_owner (availableFlows : list FlowDefinition)
    (b : NodeBase) (o : FlowDefinition) :
  owner_flow availableFlows b = Some o ->
  ~ In (flow_id o) (subflowOptions availableFlows b).
Proof.
  intros Ho Hin. unfold subflowOptions in Hin. rewrite Ho in Hin.
  apply in_map_iff in Hin as (f & Hid & Hf).
  apply filter_In in Hf as [_ Hf]. rewrite Hid, String.eqb_refl in Hf.
  discriminate Hf.
Qed.

Lemma subflowOptions_offers_a_cycle :
  subflowOptions [flow_a; flow_b]
    (base (sample_node "call_b" ["start/out"] ["out"] (SubflowNode ""))) = ["B"] /\
  invokes (sample_document [flow_a; flow_b]) "B" "A".
Proof.
  split; [reflexivity|].
  exists flow_b, (sample_node "call_a" ["begin/out"] ["out"] (SubflowNode "A")).
  cbn. auto 10.
Qed.

(** ** Merge and the join rule *)

Lemma find_first {A : Type} (p : A -> bool) (l : list A) (x : A) :
  List.find p l = Some x <->
  exists pre post, l = pre ++ x :: post /\
                   (forall y, In y pre -> p y = false) /\ p x = true.
Proof.
  induction l as [|a l IH]; cbn.
  - split; [discriminate|]. intros (pre & post & Heq & _). destruct pre; discriminate.
  - destruct (p a) eqn:Ha.
    + split.
      * intros [= <-]. exists [], l. split; [reflexivity|]. split; [intros y []|exact Ha].
      * intros ([|b pre] & post & Heq & Hpre & Hx).
        -- injection Heq as -> _. reflexivity.
        -- injection Heq as -> _. rewrite (Hpre b (or_introl eq_refl)) in Ha.
           discriminate Ha.
    + rewrite IH. split.
      * intros (pre & post & -> & Hpre & Hx). exists (a :: pre), post.
        split; [reflexivity|]. split; [|exact Hx].
        intros y [<-|Hy]; [exact Ha|auto].
      * intros ([|b pre] & post & Heq & Hpre & Hx).
        -- injection Heq as -> _. congruence.
        -- injection Heq as -> ->. exists pre, post.
           split; [reflexivity|]. split; [|exact Hx]. intros y Hy. apply Hpre. right. exact Hy.
Qed.

Lemma pick_first_ready (f : FlowDefinition) (m : Machine) (id : string) :
  pick f m = Some id <-> first_ready f m id.
Proof. unfold pick, first_ready. apply find_first. Qed.

Lemma not_snoc {A : Type} (l : list A) (x : A) : l <> l ++ [x].
Proof.
  intros Heq. apply (f_equal (@List.length A)) in Heq.
  rewrite length_app in Heq. cbn in Heq. lia.
Qed.

Section Merge.
Context `{Collaborators}.
Variable sub : FlowDefinition -> ExecutionContext -> option RunResult.
Variables (doc : FlowDocument) (opts : Options) (task : string).
Variable f : FlowDefinition.

(** A step leaves the fired nodes as they are, or fires the node it
    picked. *)
Lemma step_fired (m : Machine) (s : Step) :
  step sub doc opts task f m = Some s ->
  fired (step_machine s) = fired m \/
  exists id, pick f m = Some id /\ fired (step_machine s) = fired m ++ [id].
Proof.
  unfold step. destruct (pick f m) as [id|]; [|intros [= <-]; left; reflexivity].
  destruct (find_node (flow_nodes f) id) as [n|];
    [|intros [= <-]; left; reflexivity].
  destruct (exec_node sub doc opts task f n (ctx m)) as [r|]; [|discriminate].
  intros [= <-]. unfold fire. destruct r as [from sel c'|v c'|err c'].
  - right. exists id. split; [reflexivity|].
    match goal with |- context [conclude ?x] =>
      destruct (conclude_machine x) as [-> _] end. reflexivity.
  - right. exists id. split; [reflexivity|].
    match goal with |- context [conclude ?x] =>
      destruct (conclude_machine x) as [-> _] end. reflexivity.
  - left. reflexivity.
Qed.

Lemma fires_at_pick (m : Machine) (id : string) :
  fires_at sub doc opts task f m id -> pick f m = Some id.
Proof.
  intros (s & Hs & Hf). destruct (step_fired m s Hs) as [Heq|(id' & Hp & Heq)].
  - rewrite Heq in Hf. destruct (not_snoc _ _ Hf).
  - rewrite Heq in Hf. apply app_inj_tail in Hf as [_ ->]. exact Hp.
Qed.

(** The step that picks a Merge node fires it: the ordered collection of
    the values that arrive is bound to its output, and nothing else
    changes. *)
Lemma step_merge (m : Machine) (id : string) (n : FlowNode) :
  find_node (flow_nodes f) id = Some n -> kind n = MergeNode ->
  pick f m = Some id ->
  exists s,
    step sub doc opts task f m = Some s /\
    fired (step_machine s) = fired m ++ [id] /\
    ctx (step_machine s)
    = bind_output (output_key n (sole_output n)) (VList (arriving f (ctx m) n))
                  (ctx m).
Proof.
  intros Hn Hk Hp. unfold step, exec_node. rewrite Hp, Hn, Hk.
  eexists. split; [reflexivity|]. unfold handle_merge, fire.
  match goal with |- context [conclude ?x] =>
    destruct (conclude_machine x) as [-> _] end.
  split; reflexivity.
Qed.

(** The nodes a run has fired were picked in a state the run went
    through. *)
Lemma drive_fired (id : string) :
  forall fuel m res,
    drive fuel sub doc opts task f m = Some res ->
    In id (fired (result_machine res)) ->
    In id (fired m) \/
    exists m0, In m0 (visited fuel sub doc opts task f m) /\
               fires_at sub doc opts task f m0 id.
Proof.
  induction fuel as [|fuel IH]; intros m res; [discriminate|].
  cbn [drive visited].
  destruct (step sub doc opts task f m) as [s|] eqn:Hs; [|discriminate].
  assert (Hhere : In id (fired (step_machine s)) ->
                  In id (fired m) \/ fires_at sub doc opts task f m id).
  { intros Hin. destruct (step_fired m s Hs) as [Heq|(id' & Hp & Heq)].
    - left. rewrite <- Heq. exact Hin.
    - rewrite Heq in Hin. apply in_app_or in Hin as [Hin|[<-|[]]]; [left; exact Hin|].
      right. exists s. split; [exact Hs|exact Heq]. }
  destruct s as [m'|r].
  - intros Hres Hin. destruct (IH m' res Hres Hin) as [Hm'|(m0 & Hm0 & Hf)].
    + destruct (Hhere Hm') as [Hm|Hf]; [left; exact Hm|].
      right. exists m. split; [left; reflexivity|exact Hf].
    + right. exists m0. split; [right; exact Hm0|exact Hf].
  - intros [= <-] Hin. destruct (Hhere Hin) as [Hm|Hf]; [left; exact Hm|].
    right. exists m. split; [left; reflexivity|exact Hf].
Qed.

Lemma step_fired_mono (m : Machine) (s : Step) (x : string) :
  step sub doc opts task f m = Some s ->
  In x (fired m) -> In x (fired (step_machine s)).
Proof.
  intros Hs Hx. destruct (step_fired m s Hs) as [->|(id & _ & ->)]; [exact Hx|].
  apply in_or_app. left. exact Hx.
Qed.

Lemma drive_fired_mono (x : string) :
  forall fuel m res,
    drive fuel sub doc opts task f m = Some res ->
    In x (fired m) -> In x (fired (result_machine res)).
Proof.
  induction fuel as [|fuel IH]; intros m res; [discriminate|].
  cbn [drive].
  destruct (step sub doc opts task f m) as [s|] eqn:Hs; [|discriminate].
  intros Hres Hx. pose proof (step_fired_mono m s x Hs Hx) as Hx'.
  destruct s as [m'|r].
  - apply (IH m' res Hres Hx').
  - injection Hres as <-. exact Hx'.
Qed.

(** A node fired in a state the run went through is among the nodes the
    run has fired. *)
Lemma drive_fires (id : string) :
  forall fuel m res m0,
    drive fuel sub doc opts task f m = Some res ->
    In m0 (visited fuel sub doc opts task f m) ->
    fires_at sub doc opts task f m0 id ->
    In id (fired (result_machine res)).
Proof.
  intros fuel m res m0 Hres Hm0 (s & Hs & Hfired).
  destruct (visited_drive sub doc opts task f fuel m m0 res Hm0 Hres)
    as [[|fuel'] Hres']; [discriminate|].
  cbn [drive] in Hres'. rewrite Hs in Hres'.
  assert (Hid : In id (fired (step_machine s))).
  { rewrite Hfired. apply in_or_app. right. left. reflexivity. }
  destruct s as [m'|r].
  - apply (drive_fired_mono id fuel' m' res Hres' Hid).
  - injection Hres' as <-. exact Hid.
Qed.

End Merge.

Lemma satisfied_inputs (f : FlowDefinition) (m : Machine) (n : FlowNode) :
  satisfied f m n = true <->
  forall i, In i (declared_inputs n) ->
    bound (ctx m) (input_from i) = true \/ excused f m (input_from i) = true.
Proof.
  unfold satisfied. rewrite forallb_forall. split; intros Hs i Hi.
  - apply orb_true_iff, Hs, Hi.
  - apply orb_true_iff, Hs, Hi.
Qed.




(** The property test of section 8: with one input of the Merge withheld
    (the branch that produces it is not spawned) the Merge does not fire and
    the run makes no progress: it is a dead end, with the Merge still
    waiting. *)
Example run_withheld_input :
  valid_document (sample_document [withheld_flow]) /\
  exists m,
    @run sample_collaborators 10 (sample_document [withheld_flow]) "main" "task"
         sample_options = Some (Aborted (DeadEnd "main") m) /\
    fired m = ["start"; "fork"; "a"] /\
    triggered m = ["join"] /\
    bindings (ctx m) !! "b/out" = None /\
    satisfied withheld_flow m join_node = false.
Proof.
  split.
  - apply (valid_document_checked ["start"; "fork"; "a"; "b"; "join"; "finish"]);
      vm_compute; reflexivity.
  - eexists. split; [vm_compute; reflexivity|].
    repeat split; vm_compute; reflexivity.
Qed.

(** The output of a Merge is the collection of its input values in edge
    declaration order: the edge from "b" is declared before the edge from
    "a". *)
Example run_merge_order :
  exists m,
    @run sample_collaborators 10 (sample_document [sample_flow]) "main" "task"
         sample_options = Some (Completed m) /\
    fired m = ["start"; "fork"; "a"; "b"; "join"; "finish"] /\
    bindings (ctx m) !! "join/out"
    = Some (VList [VText "reply of billing"; VText "reply of tech"]).
Proof.
  eexists. split; [vm_compute; reflexivity|]. repeat split; vm_compute; reflexivity.
Qed.

(** ** Loops and parallel regions *)

(** A valid flow may come back to a Loop node (4.1): a loop with maximum 3
    and a break condition that is always false runs its body three times
    from inside the handler and is left normally (section 8). *)
Example run_loop_back :
  valid_document (sample_document [loop_back_flow (Some 3%Z) (Some "false")]) /\
  exists m,
    @run sample_collaborators 10
         (sample_document [loop_back_flow (Some 3%Z) (Some "false")])
         "main" "task" sample_options = Some (Completed m) /\
    fired m = ["start"; "again"; "finish"] /\
    map turn_node (transcript (ctx m)) = ["work"; "work"; "work"] /\
    iterations (ctx m) !! "again" = Some 3.
Proof.
  split.
  - apply (valid_document_checked ["start"; "work"; "again"; "finish"]);
      vm_compute; reflexivity.
  - eexists. split; [vm_compute; reflexivity|].
    repeat split; vm_compute; reflexivity.
Qed.

(** The break condition is evaluated after each iteration: when it holds
    after the first one, the loop is left after one iteration; the flow goes
    on behind the last node of a body that does not come back. *)
Example run_loop_break :
  exists m,
    @run sample_collaborators 10
         (sample_document [loop_chain_flow (Some 3%Z) (Some "true")])
         "main" "task" sample_options = Some (Completed m) /\
    map turn_node (transcript (ctx m)) = ["work"] /\
    iterations (ctx m) !! "again" = Some 1 /\
    final_output m = VText "reply of writer".
Proof.
  eexists. split; [vm_compute; reflexivity|]. repeat split; vm_compute; reflexivity.
Qed.

(** The converge flag matters: with converge both branches are over when
    the first Output node is reached, which ends the run; without it the run
    is complete only when each detached branch has reached an Output
    node. *)
Example run_converge :
  (exists m,
     @run sample_collaborators 10 (sample_document [two_outputs_flow (Some true)])
          "main" "task" sample_options = Some (Completed m) /\
     map fst (reached m) = ["o1"] /\
     fired m = ["start"; "fork"; "a"; "b"; "o1"] /\ detached m = []) /\
  (exists m,
     @run sample_collaborators 10 (sample_document [two_outputs_flow None])
          "main" "task" sample_options = Some (Completed m) /\
     map fst (reached m) = ["o1"; "o2"]).
Proof.
  split; eexists; (split; [vm_compute; reflexivity|]); repeat split.
Qed.

(** * Properties of the rest of the front end *)

(** ** The node grid and the canvas nodes *)

(** X1 ([defaultPosition], flowNodes.ts): two different array indices are
    never given the same default position on the canvas. *)
Theorem defaultPosition_distinct (i j : nat) :
  i <> j -> defaultPosition i <> defaultPosition j.
Proof.
  unfold defaultPosition. intros Hij [= Hx Hy]. apply Hij.
  pose proof (Z.div_mod (Z.of_nat i) 4 ltac:(lia)).
  pose proof (Z.div_mod (Z.of_nat j) 4 ltac:(lia)).
  lia.
Qed.

Lemma defaultPosition_distinct_witness :
  1 <> 5 /\ defaultPosition 1 <> defaultPosition 5.
Proof.
  split; [lia | apply (defaultPosition_distinct 1 5); lia].
Defined.

(** X2 ([stringToHue], canvas): the hue of an agent id is a whole number of
    degrees from 0 to 359, whatever the id. *)
Theorem stringToHue_range (str : string) :
  (0 <= stringToHue str < 360)%Z.
Proof.
  unfold stringToHue.
  set (hash := fold_left _ _ _).
  rewrite <- (Z.rem_abs hash 360) by lia.
  change (Z.abs 360) with 360%Z.
  apply Z.rem_bound_pos; lia.
Qed.

Lemma mapNodes_lookup (nodes : list FlowNode) (allowed : list FlowNodeKindType)
    (i : nat) (node : FlowNode) :
  nodes !! i = Some node ->
  exists rn,
    mapNodes nodes allowed !! i = Some rn /\
    rn_id rn = node_id (base node) /\
    rn_position rn = default (defaultPosition i) (node_layout (base node)) /\
    source_handles rn = declared_labels node /\
    data_kind (rn_data rn) = kind_type (kind node).
Proof.
  intros Hi. unfold mapNodes. rewrite list_lookup_imap, Hi. cbn.
  eexists. split; [reflexivity|]. cbn. auto.
Qed.

Lemma getDefaultOutput_declared (nodes : list FlowNode) (sourceId : string) :
  declared_or_implicit nodes sourceId (getDefaultOutput nodes sourceId).
Proof.
  unfold declared_or_implicit, getDefaultOutput, find_node.
  destruct (List.find _ nodes) as [n|]; [|reflexivity].
  unfold declared_labels, declared_outputs.
  destruct (node_outputs (base n)) as [[|o os]|]; cbn; auto.
Qed.

(** X3 ([mapNodes], [FlowNodeComponent], [handleConnect]): dragging from a
    source handle that the canvas shows on a node gives an edge that names
    an output the node declares.  The node is the first of the flow with
    its id, and the ids of both ends are not empty. *)
Theorem rendered_handle_connects_declared_output :
  forall (flow : FlowDefinition) (allowed : list FlowNodeKindType) (i : nat)
         (node : FlowNode) (rn : RFNode) (h target : string),
    flow_nodes flow !! i = Some node ->
    find_node (flow_nodes flow) (node_id (base node)) = Some node ->
    mapNodes (flow_nodes flow) allowed !! i = Some rn ->
    In h (source_handles rn) ->
    node_id (base node) <> "" -> target <> "" ->
    exists flow',
      handleConnect flow
        {| conn_source := Some (rn_id rn); conn_target := Some target;
           conn_sourceHandle := Some h; conn_targetHandle := None |}
      = Some flow' /\
      last (flow_edges flow') =
        Some {| edge_from := node_id (base node) +:+ "/" +:+ h; edge_to := target;
                edge_condition := None; edge_label := None |} /\
      In h (declared_labels node).
Proof.
  intros flow allowed i node rn h target Hi Hfind Hrn Hh Hid Htarget.
  destruct (mapNodes_lookup _ allowed _ _ Hi) as (rn' & Hrn' & Hrid & _ & Hhandles & _).
  rewrite Hrn in Hrn'. injection Hrn' as <-.
  rewrite Hhandles in Hh. rewrite Hrid.
  unfold handleConnect, falsy. cbn.
  destruct (String.eqb_spec (node_id (base node)) ""); [contradiction|].
  destruct (String.eqb_spec target ""); [contradiction|].
  cbn. eexists. split; [reflexivity|]. cbn.
  split; [apply last_snoc | exact Hh].
Qed.

Lemma rendered_handle_connects_declared_output_witness :
  exists flow',
    handleConnect ex_prefix_flow
      {| conn_source := Some "a"; conn_target := Some "ab";
         conn_sourceHandle := Some "out"; conn_targetHandle := None |}
    = Some flow' /\
    last (flow_edges flow') =
      Some {| edge_from := "a/out"; edge_to := "ab";
              edge_condition := None; edge_label := None |}.
Proof.
  pose proof (fun rn =>
                rendered_handle_connects_declared_output ex_prefix_flow [TAgent] 0
                  (createFlowNode "" TInput (Some "a")) rn "out" "ab"
                  eq_refl eq_refl) as H.
  specialize (H _ eq_refl).
  destruct H as (flow' & H1 & H2 & _).
  - left. reflexivity.
  - discriminate.
  - discriminate.
  - exists flow'. split; [exact H1 | exact H2].
Defined.

(** X4 ([handleNodeDragStop], [mapNodes]): after a node is dropped, the
    canvas shows every node with the dropped id at the drop position and
    every other node where it was; ids, data, styles and the edges of the
    flow are unchanged. *)
Theorem handleNodeDragStop_moves_only_that_node :
  forall (flow : FlowDefinition) (id : string) (position : NodeLayout)
         (allowed : list FlowNodeKindType) (i : nat) (node : FlowNode),
    flow_nodes flow !! i = Some node ->
    exists rn rn',
      mapNodes (flow_nodes flow) allowed !! i = Some rn /\
      mapNodes (flow_nodes (handleNodeDragStop flow id position)) allowed !! i
        = Some rn' /\
      rn_id rn' = rn_id rn /\ rn_data rn' = rn_data rn /\
      rn_style rn' = rn_style rn /\
      rn_position rn' =
        (if String.eqb (rn_id rn) id then position else rn_position rn) /\
      flow_edges (handleNodeDragStop flow id position) = flow_edges flow.
Proof.
  intros flow id position allowed i node Hi.
  unfold mapNodes, handleNodeDragStop. cbn [flow_nodes with_nodes flow_edges].
  rewrite !list_lookup_imap, list_lookup_fmap, Hi. cbn [fmap option_fmap option_map].
  eexists. eexists. split; [reflexivity|]. split; [reflexivity|].
  cbn [rn_id rn_data rn_style rn_position].
  destruct (String.eqb (node_id (base node)) id); cbn; [|tauto].
  destruct position. cbn. tauto.
Qed.

Lemma handleNodeDragStop_moves_only_that_node_witness :
  exists rn',
    mapNodes (flow_nodes (handleNodeDragStop ex_prefix_flow "ab"
                            {| layout_x := 7%Z; layout_y := 9%Z |})) [TAgent] !! 1
      = Some rn' /\
    rn_position rn' = {| layout_x := 7%Z; layout_y := 9%Z |}.
Proof.
  destruct (handleNodeDragStop_moves_only_that_node ex_prefix_flow "ab"
              {| layout_x := 7%Z; layout_y := 9%Z |} [TAgent] 1
              (createFlowNode "" TAgent (Some "ab")) eq_refl)
    as (rn & rn' & H1 & H2 & _ & _ & _ & H3 & _).
  exists rn'. split; [exact H2|].
  rewrite H3. injection H1 as <-. reflexivity.
Defined.

Lemma getDefaultOutput_first_label (nodes : list FlowNode) (sourceId : string) :
  getDefaultOutput nodes sourceId
  = match find_node nodes sourceId with
    | Some n => match declared_labels n with l :: _ => l | [] => "out" end
    | None => "out"
    end.
Proof.
  unfold getDefaultOutput, find_node.
  destruct (List.find _ nodes) as [n|]; [|reflexivity].
  unfold declared_labels, declared_outputs.
  destruct (node_outputs (base n)) as [[|o os]|]; reflexivity.
Qed.

(** X5 ([quickConnectToNew]): the quick connection is refused for no kind
    of flow, since every kind allows agents.  It appends a fresh agent node
    and one edge to it; the edge leaves the source by the first output the
    first node with the source id declares, or by "out" when that node
    declares none or no node has the id; the new node is the one selected. *)
Theorem quickConnectToNew_never_refused :
  forall (rnd : string) (flowKind : FlowKind) (flow : FlowDefinition)
         (sourceId : string),
    let label :=
      match find_node (flow_nodes flow) sourceId with
      | Some n => match declared_labels n with l :: _ => l | [] => "out" end
      | None => "out"
      end in
    quickConnectToNew rnd flowKind flow sourceId
      = Some ({| flow_id := flow_id flow; flow_entry := flow_entry flow;
                 flow_nodes := flow_nodes flow ++ [createFlowNode rnd TAgent None];
                 flow_edges :=
                   flow_edges flow ++
                   [{| edge_from := sourceId +:+ "/" +:+ label;
                       edge_to := uid rnd "agent";
                       edge_condition := None; edge_label := None |}] |},
              uid rnd "agent") /\
    declared_or_implicit (flow_nodes flow) sourceId label.
Proof.
  intros rnd flowKind flow sourceId label.
  unfold quickConnectToNew.
  assert (includes (allowedByKind flowKind) TAgent = true) as ->
    by (destruct flowKind; reflexivity).
  cbn [negb]. unfold label. rewrite <- getDefaultOutput_first_label.
  split; [reflexivity|].
  apply getDefaultOutput_declared.
Qed.

(** X6 ([promptEdge]): no edge is added exactly when the dialog is
    cancelled or the answer is blank; otherwise one edge is appended, to the
    trimmed answer, whether or not a node has that id. *)
Theorem promptEdge_refuses_blank_target :
  forall (flow : FlowDefinition) (sourceId : string) (target : option string),
    (promptEdge flow sourceId target = None <->
     target = None \/ exists t, target = Some t /\ whitespace_only t) /\
    (forall flow', promptEdge flow sourceId target = Some flow' ->
       exists t, target = Some t /\ trim t <> "" /\
         flow_nodes flow' = flow_nodes flow /\
         flow_edges flow' =
           flow_edges flow ++
           [{| edge_from :=
                 sourceId +:+ "/" +:+ getDefaultOutput (flow_nodes flow) sourceId;
               edge_to := trim t;
               edge_condition := None; edge_label := None |}]).
Proof.
  intros flow sourceId target. unfold promptEdge, falsy.
  destruct target as [t|].
  - destruct (String.eqb_spec t "") as [->|Ht].
    + split; [|discriminate].
      split; [|reflexivity]. intros _. right. exists "". split; [reflexivity|].
      apply trim_empty_iff. reflexivity.
    + destruct (String.eqb_spec (trim t) "") as [Hb|Hb].
      * split; [|discriminate].
        split; [|reflexivity]. intros _. right. exists t.
        split; [reflexivity | apply trim_empty_iff, Hb].
      * split.
        -- split; [discriminate|].
           intros [H|(t' & [= <-] & Hw)]; [discriminate|].
           apply trim_empty_iff in Hw. contradiction.
        -- intros flow' [= <-]. exists t. cbn. auto.
  - split; [|discriminate]. split; auto.
Qed.

Lemma promptEdge_refuses_blank_target_witness :
  exists t, Some " c " = Some t /\ trim t <> "" /\
    flow_nodes (with_edges ex_flow_a
                  [{| edge_from := "a/out"; edge_to := "c";
                      edge_condition := None; edge_label := None |}])
      = flow_nodes ex_flow_a /\
    flow_edges (with_edges ex_flow_a
                  [{| edge_from := "a/out"; edge_to := "c";
                      edge_condition := None; edge_label := None |}])
      = flow_edges ex_flow_a ++
        [{| edge_from := "a" +:+ "/" +:+ getDefaultOutput (flow_nodes ex_flow_a) "a";
            edge_to := trim t;
            edge_condition := None; edge_label := None |}].
Proof.
  exact (proj2 (promptEdge_refuses_blank_target ex_flow_a "a" (Some " c ")) _ eq_refl).
Defined.

(** ** The actions of the application *)

Lemma find_map_replace (flowId : string) (next : FlowDefinition) (id : string)
    (flows : list FlowDefinition) :
  flow_id next = flowId ->
  List.find (fun f => String.eqb (flow_id f) id)
            (map (fun f => if String.eqb (flow_id f) flowId then next else f) flows)
  = option_map (fun f => if String.eqb (flow_id f) flowId then next else f)
               (List.find (fun f => String.eqb (flow_id f) id) flows).
Proof.
  intros Hnext. induction flows as [|f flows IH]; [reflexivity|].
  cbn. destruct (String.eqb_spec (flow_id f) flowId) as [Hf|Hf].
  - assert (flow_id next = flow_id f) as -> by congruence.
    destruct (String.eqb (flow_id f) id); [|exact IH].
    cbn. rewrite Hf, String.eqb_refl. reflexivity.
  - destruct (String.eqb (flow_id f) id); [|exact IH].
    cbn. destruct (String.eqb_spec (flow_id f) flowId); [contradiction|reflexivity].
Qed.

Lemma activeFlow_In (st : AppState) (active : FlowDefinition) :
  activeFlow st = Some active -> In active (doc_flows (flowDoc st)).
Proof.
  unfold activeFlow.
  destruct (List.find _ _) as [f|] eqn:Hfind.
  - intros [= <-]. apply List.find_some in Hfind. tauto.
  - destruct (doc_flows (flowDoc st)); [discriminate|].
    intros [= <-]. left. reflexivity.
Qed.

Lemma activeFlow_updateFlow (st : AppState) (active next : FlowDefinition)
    (selected : option string) :
  activeFlow st = Some active ->
  flow_id next = flow_id active ->
  activeFlow {| flowDoc := updateFlow (flow_id active) next (flowDoc st);
                activeFlowId := activeFlowId st;
                selectedNodeId := selected |} = Some next.
Proof.
  intros Hactive Hnext. unfold activeFlow in *. cbn.
  rewrite (find_map_replace _ _ _ _ Hnext).
  destruct (List.find _ (doc_flows (flowDoc st))) as [f|] eqn:Hfind.
  - injection Hactive as ->. cbn. rewrite String.eqb_refl. reflexivity.
  - cbn. destruct (doc_flows (flowDoc st)) as [|f flows]; [discriminate|].
    cbn in Hactive |- *. injection Hactive as ->.
    rewrite String.eqb_refl. reflexivity.
Qed.

Lemma updateFlow_other_flows (flowId : string) (next : FlowDefinition)
    (doc : FlowDocument) (f : FlowDefinition) :
  In f (doc_flows doc) -> flow_id f <> flowId ->
  In f (doc_flows (updateFlow flowId next doc)).
Proof.
  intros Hin Hid. unfold updateFlow. cbn. apply in_map_iff.
  exists f. split; [|exact Hin].
  destruct (String.eqb_spec (flow_id f) flowId); [contradiction|reflexivity].
Qed.

(** X7 ([updateFlow] under [updateNode], [updateEdge], [removeEdge],
    [setFlowEntry]): an action on the active flow replaces it by the changed
    flow, which is the active flow afterwards; flows with another id, the
    active flow id and the selection stay as they were. *)
Theorem on_active_flow_replaces_active_flow :
  forall (st : AppState) (change : FlowDefinition -> FlowDefinition)
         (active : FlowDefinition),
    activeFlow st = Some active ->
    flow_id (change active) = flow_id active ->
    activeFlow (on_active_flow st change) = Some (change active) /\
    (forall f, In f (doc_flows (flowDoc st)) -> flow_id f <> flow_id active ->
               In f (doc_flows (flowDoc (on_active_flow st change)))) /\
    length (doc_flows (flowDoc (on_active_flow st change)))
      = length (doc_flows (flowDoc st)) /\
    activeFlowId (on_active_flow st change) = activeFlowId st /\
    selectedNodeId (on_active_flow st change) = selectedNodeId st.
Proof.
  intros st change active Hactive Hid. unfold on_active_flow. rewrite Hactive.
  split; [apply activeFlow_updateFlow; assumption|].
  split; [intros f Hin Hf; apply updateFlow_other_flows; assumption|].
  cbn. rewrite length_map. auto.
Qed.

Lemma on_active_flow_replaces_active_flow_witness :
  activeFlow (removeEdge ex_state 0) = Some (removeEdge_flow ex_prefix_flow 0).
Proof.
  exact (proj1 (on_active_flow_replaces_active_flow ex_state
                  (fun active => removeEdge_flow active 0) ex_prefix_flow
                  eq_refl eq_refl)).
Defined.

(** X8 ([updateNode]): giving a node another id does not touch the edges:
    an edge that left the node is kept, and afterwards no node of the flow has
    the id the edge names as its source. *)
Theorem updateNode_rename_leaves_edges_dangling :
  forall (active : FlowDefinition) (nodeId : string) (nextNode : FlowNode)
         (e : FlowEdge),
    In e (flow_edges active) ->
    edge_source e = nodeId ->
    node_id (base nextNode) <> nodeId ->
    In e (flow_edges (updateNode_flow active nodeId nextNode)) /\
    find_node (flow_nodes (updateNode_flow active nodeId nextNode)) (edge_source e)
      = None.
Proof.
  intros active nodeId nextNode e Hin Hsrc Hid. split; [exact Hin|].
  rewrite Hsrc. unfold find_node, updateNode_flow. cbn.
  induction (flow_nodes active) as [|n nodes IH]; [reflexivity|].
  cbn. destruct (String.eqb_spec (node_id (base n)) nodeId) as [Hn|Hn].
  - destruct (String.eqb_spec (node_id (base nextNode)) nodeId); [contradiction|].
    exact IH.
  - destruct (String.eqb_spec (node_id (base n)) nodeId); [contradiction|].
    exact IH.
Qed.

Lemma updateNode_rename_leaves_edges_dangling_witness :
  find_node
    (flow_nodes (updateNode_flow ex_prefix_flow "ab"
                   (createFlowNode "" TAgent (Some "worker"))))
    "ab" = None.
Proof.
  exact (proj2 (updateNode_rename_leaves_edges_dangling ex_prefix_flow "ab"
                  (createFlowNode "" TAgent (Some "worker"))
                  {| edge_from := "ab/out"; edge_to := "c";
                     edge_condition := None; edge_label := None |}
                  (or_intror (or_introl eq_refl)) eq_refl
                  ltac:(discriminate))).
Defined.

Lemma filter_index_shift {A : Type} (keep : nat -> bool) (g : nat -> nat)
    (l : list A) :
  map snd (List.filter (fun ix => keep (fst ix)) (imap (fun i x => (g i, x)) l))
  = filter_index (fun i => keep (g i)) l.
Proof.
  unfold filter_index. revert keep g.
  induction l as [|x l IH]; intros keep g; [reflexivity|].
  rewrite !imap_cons. cbn [List.filter fst].
  pose proof (IH keep (fun i => g (S i))) as IH1.
  pose proof (IH (fun i => keep (g i)) S) as IH2.
  cbn beta in IH1, IH2.
  destruct (keep (g 0)); cbn [map snd]; [f_equal|]; etrans; try exact IH1;
    symmetry; exact IH2.
Qed.

Lemma filter_index_cons {A : Type} (keep : nat -> bool) (x : A) (l : list A) :
  filter_index keep (x :: l)
  = (if keep 0 then [x] else []) ++ filter_index (fun i => keep (S i)) l.
Proof.
  unfold filter_index at 1. cbn.
  destruct (keep 0); cbn; [f_equal|]; apply (filter_index_shift keep S).
Qed.

Lemma filter_index_all {A : Type} (l : list A) :
  filter_index (fun _ => true) l = l.
Proof.
  induction l as [|x l IH]; [reflexivity|].
  rewrite filter_index_cons. cbn. rewrite IH. reflexivity.
Qed.

Lemma filter_index_delete {A : Type} (index : nat) (l : list A) :
  filter_index (fun i => negb (Nat.eqb i index)) l = delete index l.
Proof.
  revert index. induction l as [|x l IH]; intros index; [reflexivity|].
  rewrite filter_index_cons. destruct index as [|index]; cbn.
  - apply filter_index_all.
  - f_equal. apply IH.
Qed.

Lemma imap_insert {A : Type} (index : nat) (y : A) (l : list A) :
  imap (fun i x => if Nat.eqb i index then y else x) l = <[index := y]> l.
Proof.
  revert index. induction l as [|x l IH]; intros index; [reflexivity|].
  cbn. destruct index as [|index]; cbn.
  - f_equal. etrans; [apply (imap_const id)|]. apply list_fmap_id.
  - f_equal. apply IH.
Qed.

Lemma delete_past_end {A : Type} (l : list A) (i : nat) :
  length l <= i -> delete i l = l.
Proof.
  revert i. induction l as [|x l IH]; intros [|i] H; cbn in *;
    try reflexivity; try lia.
  f_equal. apply IH. lia.
Qed.

(** X9 ([updateEdge], [removeEdge]): they replace and delete the edge at the
    index, and do nothing when the index is past the end. *)
Theorem updateEdge_removeEdge_at_index :
  forall (active : FlowDefinition) (index : nat) (nextEdge : FlowEdge),
    flow_edges (updateEdge_flow active index nextEdge)
      = <[index := nextEdge]> (flow_edges active) /\
    flow_edges (removeEdge_flow active index) = delete index (flow_edges active) /\
    (length (flow_edges active) <= index ->
     updateEdge_flow active index nextEdge = active /\
     removeEdge_flow active index = active).
Proof.
  intros active index nextEdge.
  unfold updateEdge_flow, removeEdge_flow. cbn.
  rewrite imap_insert, filter_index_delete.
  split; [reflexivity|]. split; [reflexivity|].
  intros Hlen. rewrite list_insert_ge, delete_past_end by exact Hlen.
  destruct active; auto.
Qed.

Lemma updateEdge_removeEdge_at_index_witness :
  removeEdge_flow ex_prefix_flow 2 = ex_prefix_flow.
Proof.
  refine (proj2 (proj2 (proj2 (updateEdge_removeEdge_at_index ex_prefix_flow 2
                                 {| edge_from := "a/out"; edge_to := "c";
                                    edge_condition := None; edge_label := None |}))
                  _)).
  cbn. lia.
Defined.

(** X10 ([handleConnect], [removeEdge]): removing the edge at the index of
    the connection just made gives back the flow as it was. *)
Theorem removeEdge_undoes_handleConnect :
  forall (flow : FlowDefinition) (connection : Connection) (flow' : FlowDefinition),
    handleConnect flow connection = Some flow' ->
    removeEdge_flow flow' (length (flow_edges flow)) = flow.
Proof.
  intros flow connection flow' H.
  apply handleConnect_inv in H as (source & target & _ & _ & _ & _ & ->).
  unfold removeEdge_flow, with_edges.
  cbn [flow_edges flow_id flow_entry flow_nodes].
  rewrite filter_index_delete, delete_middle, app_nil_r.
  destruct flow; reflexivity.
Qed.

Lemma removeEdge_undoes_handleConnect_witness :
  exists flow',
    handleConnect ex_flow_a (ex_conn None) = Some flow' /\
    removeEdge_flow flow' 0 = ex_flow_a.
Proof.
  eexists. split; [reflexivity|].
  exact (removeEdge_undoes_handleConnect ex_flow_a (ex_conn None) _ eq_refl).
Defined.

Lemma prefix_fst_split (sep : ascii) (n s : string) :
  occurs sep n = false -> String.prefix n s = true ->
  String.prefix n (fst (split sep s)) = true.
Proof.
  revert s. induction n as [|a n IH]; intros s Hocc Hpre;
    [destruct (fst (split sep s)); reflexivity|].
  destruct s as [|b s]; [discriminate|].
  cbn in Hocc, Hpre |- *. apply orb_false_elim in Hocc as [Ha Hn].
  destruct (ascii_dec a b) as [<-|]; [|discriminate].
  specialize (IH s Hn Hpre).
  destruct (split sep s) as [h t]. rewrite Ha. cbn in IH |- *.
  destruct (ascii_dec a a); [exact IH | congruence].
Qed.

(** X11 ([removeNode]): when the removed id has no slash and is a proper
    prefix of no id an edge names, the edges that remain are exactly those
    that neither leave nor enter the removed node. *)
Theorem removeNode_exact_without_prefix_ids :
  forall (f : FlowDefinition) (nodeId : string) (e : FlowEdge),
    occurs slash nodeId = false ->
    (forall e' id, In e' (flow_edges f) ->
       id = edge_source e' \/ id = edge_target e' ->
       String.prefix nodeId id = true -> id = nodeId) ->
    (In e (flow_edges (removeNode_flow f nodeId)) <->
     In e (flow_edges f) /\ edge_source e <> nodeId /\ edge_target e <> nodeId).
Proof.
  intros f nodeId e Hslash Hids. rewrite removeNode_flow_edges. split.
  - intros (Hin & Hf & Ht). split; [exact Hin|].
    unfold edge_source, edge_target.
    split; intros Heq.
    + rewrite <- Heq, split_fst_prefix in Hf. discriminate.
    + rewrite <- Heq, split_fst_prefix in Ht. discriminate.
  - intros (Hin & Hs & Ht). split; [exact Hin|]. split.
    + destruct (String.prefix nodeId (edge_from e)) eqn:Hp; [|reflexivity].
      exfalso. apply Hs. apply (Hids e _ Hin (or_introl eq_refl)).
      apply prefix_fst_split; assumption.
    + destruct (String.prefix nodeId (edge_to e)) eqn:Hp; [|reflexivity].
      exfalso. apply Ht. apply (Hids e _ Hin (or_intror eq_refl)).
      apply prefix_fst_split; assumption.
Qed.

Lemma removeNode_exact_without_prefix_ids_witness :
  In {| edge_from := "a/out"; edge_to := "ab";
        edge_condition := None; edge_label := None |}
     (flow_edges (removeNode_flow ex_prefix_flow "c")).
Proof.
  apply (removeNode_exact_without_prefix_ids ex_prefix_flow "c").
  - reflexivity.
  - intros e' id [<-|[<-|[]]] [->| ->]; cbn; intros H;
      try discriminate H; reflexivity.
  - split; [left; reflexivity|]. split; discriminate.
Defined.

Lemma find_app_fresh (id : string) (flows : list FlowDefinition)
    (new : FlowDefinition) :
  (forall f, In f flows -> flow_id f <> id) -> flow_id new = id ->
  List.find (fun f => String.eqb (flow_id f) id) (flows ++ [new]) = Some new.
Proof.
  intros Hfresh Hnew. induction flows as [|f flows IH]; cbn.
  - rewrite Hnew, String.eqb_refl. reflexivity.
  - destruct (String.eqb_spec (flow_id f) id) as [Hf|_].
    + exfalso. apply (Hfresh f); [left; reflexivity | exact Hf].
    + apply IH. intros f' Hin. apply Hfresh. right. exact Hin.
Qed.

(** X12 ([addFlow]): when no flow has the new id yet, the new flow, with
    its two terminal nodes and the edge between them, is the active flow
    afterwards, and its kind is sequential. *)
Theorem addFlow_activates_new_flow :
  forall (rnd : string) (ed : Editor),
    (forall f, In f (doc_flows (flowDoc (editor_state ed))) ->
               flow_id f <> uid rnd "flow") ->
    activeFlow (editor_state (addFlow rnd ed)) = Some (newFlow rnd) /\
    activeFlowKind (addFlow rnd ed) = KnownKind Sequential /\
    map (fun n => kind_type (kind n)) (flow_nodes (newFlow rnd)) = [TInput; TOutput] /\
    map edge_source (flow_edges (newFlow rnd)) = ["start"] /\
    map edge_target (flow_edges (newFlow rnd)) = ["finish"].
Proof.
  intros rnd ed Hfresh.
  assert (activeFlow (editor_state (addFlow rnd ed)) = Some (newFlow rnd)) as Hact.
  { unfold activeFlow, addFlow.
    cbn [editor_state flowDoc activeFlowId with_flows doc_flows].
    change (flow_id (newFlow rnd)) with (uid rnd "flow").
    rewrite (find_app_fresh (uid rnd "flow") _ (newFlow rnd) Hfresh eq_refl).
    reflexivity. }
  split; [exact Hact|]. split; [|repeat split].
  unfold activeFlowKind. rewrite Hact.
  unfold addFlow. cbn [flowKinds]. rewrite lookup_insert_eq. reflexivity.
Qed.

Lemma addFlow_activates_new_flow_witness :
  activeFlow (editor_state (addFlow "1a2b" ex_editor)) = Some (newFlow "1a2b").
Proof.
  apply (addFlow_activates_new_flow "1a2b" ex_editor).
  intros f [<-|[]]. discriminate.
Defined.

Lemma createFlowNode_kind (rnd : string) (type : FlowNodeKindType)
    (id : option string) :
  kind_type (kind (createFlowNode rnd type id)) = type.
Proof. destruct type; reflexivity. Qed.

Lemma activeFlowKind_updateFlow (ed : Editor) (active next : FlowDefinition)
    (selected : option string) :
  activeFlow (editor_state ed) = Some active ->
  flow_id next = flow_id active ->
  activeFlowKind
    {| editor_state :=
         {| flowDoc := updateFlow (flow_id active) next (flowDoc (editor_state ed));
            activeFlowId := activeFlowId (editor_state ed);
            selectedNodeId := selected |};
       flowKinds := flowKinds ed |}
  = activeFlowKind ed.
Proof.
  intros Hactive Hnext. unfold activeFlowKind. cbn [editor_state flowKinds].
  rewrite (activeFlow_updateFlow _ active next selected Hactive Hnext), Hactive, Hnext.
  reflexivity.
Qed.

(** X13 ([addNode], [activeFlowKind]): adding a node throws a TypeError
    exactly when a flow is active whose id is no key of the flow kinds but a
    name that the object inherits, such as "constructor"; in every other case
    it keeps every node of the active flow within the kinds that the kind of
    the flow allows. *)
Theorem addNode_keeps_kinds_allowed :
  forall (rnd : string) (ed : Editor) (type : FlowNodeKindType),
    kinds_allowed ed ->
    (addNode rnd ed type = TypeError <->
     exists f, activeFlow (editor_state ed) = Some f /\
               flowKinds ed !! flow_id f = None /\
               inherited (flow_id f) = true) /\
    (forall ed', addNode rnd ed type = Ok ed' -> kinds_allowed ed').
Proof.
  intros rnd ed type Hinv. unfold addNode.
  destruct (activeFlow (editor_state ed)) as [active|] eqn:Hactive.
  2:{ split; [|intros ed' [= <-]; exact Hinv].
      split; [discriminate|]. intros (f & Hf & _). discriminate. }
  destruct (activeFlowKind ed) as [flowKind|] eqn:Hkind.
  - split.
    + split; [destruct (negb _); discriminate|].
      intros (f & [= <-] & Hnone & Hinh).
      unfold activeFlowKind in Hkind. rewrite Hactive, Hnone, Hinh in Hkind.
      discriminate.
    + destruct (includes (allowedByKind flowKind) type) eqn:Hallowed; cbn [negb];
        intros ed' [= <-]; [|exact Hinv].
      set (node := createFlowNode rnd type None).
      set (next := with_nodes active (flow_nodes active ++ [node])).
      intros f flowKind' Hf Hkind'. cbn [editor_state] in Hf.
      rewrite (activeFlow_updateFlow (editor_state ed) active next
                 (Some (node_id (base node))) Hactive eq_refl) in Hf.
      injection Hf as <-.
      rewrite (activeFlowKind_updateFlow ed active next _ Hactive eq_refl), Hkind
        in Hkind'.
      injection Hkind' as <-.
      unfold next. cbn [flow_nodes with_nodes]. apply Forall_app. split.
      * exact (Hinv active flowKind Hactive Hkind).
      * apply List.Forall_cons; [|apply List.Forall_nil].
        unfold node. rewrite createFlowNode_kind. exact Hallowed.
  - split; [|discriminate]. split; [|reflexivity]. intros _.
    exists active. split; [reflexivity|].
    unfold activeFlowKind in Hkind. rewrite Hactive in Hkind.
    destruct (flowKinds ed !! flow_id active); [discriminate|].
    destruct (inherited (flow_id active)); [auto|discriminate].
Qed.

Lemma addNode_keeps_kinds_allowed_witness :
  addNode "1a2b" ex_inherited_editor TAgent = TypeError /\
  forall ed', addNode "1a2b" ex_editor TDecision = Ok ed' -> kinds_allowed ed'.
Proof.
  split.
  - reflexivity.
  - apply (addNode_keeps_kinds_allowed "1a2b" ex_editor TDecision).
    intros f flowKind [= <-] [= <-]. repeat constructor.
Defined.

(** ** The node editor *)

(** X14 ([toggleTool]): toggling a tool on an agent node flips whether the
    node lists the tool and changes nothing else: the other tools, the base
    and the other agent fields stay; only agent nodes are changed. *)
Theorem toggleTool_flips_membership :
  forall (node node' : FlowNode) (toolId : string),
    toggleTool node toolId = Some node' ->
    exists agent prompt tools parameters tools',
      kind node = AgentNode agent prompt tools parameters /\
      kind node' = AgentNode agent prompt (Some tools') parameters /\
      base node' = base node /\
      (In toolId tools' <-> ~ In toolId (default [] tools)) /\
      (forall t, t <> toolId -> (In t tools' <-> In t (default [] tools))).
Proof.
  intros node node' toolId. unfold toggleTool.
  destruct (kind node) as [| |agent prompt tools parameters| | | | | |] eqn:Hkind;
    try discriminate.
  intros [= <-]. exists agent, prompt, tools, parameters. eexists.
  split; [reflexivity|]. split; [reflexivity|]. split; [reflexivity|].
  set (currentTools := default [] tools).
  destruct (existsb (String.eqb toolId) currentTools) eqn:Hex.
  - apply existsb_exists in Hex as (x & Hx & Heq).
    apply String.eqb_eq in Heq. subst x. split.
    + rewrite filter_In, String.eqb_refl. cbn. split; [intros [_ H]; discriminate|].
      intros H. contradiction.
    + intros t Ht. rewrite filter_In.
      destruct (String.eqb_spec t toolId); [contradiction|]. cbn. tauto.
  - assert (~ In toolId currentTools) as Hnot.
    { intros Hin. apply not_true_iff_false in Hex. apply Hex.
      apply existsb_exists. exists toolId. split; [exact Hin|].
      apply String.eqb_refl. }
    split.
    + rewrite in_app_iff. cbn. tauto.
    + intros t Ht. rewrite in_app_iff. cbn. split; [|tauto].
      intros [H|[H|[]]]; [exact H | congruence].
Qed.

Lemma toggleTool_flips_membership_witness :
  exists tools',
    option_map kind (toggleTool (createFlowNode "" TAgent (Some "a")) "search")
      = Some (AgentNode "" None (Some tools') None) /\
    In "search" tools'.
Proof.
  destruct (toggleTool_flips_membership (createFlowNode "" TAgent (Some "a"))
              {| base := base (createFlowNode "" TAgent (Some "a"));
                 kind := AgentNode "" None (Some ["search"]) None |}
              "search" eq_refl)
    as (agent & prompt & tools & parameters & tools' & H1 & H2 & _ & H3 & _).
  injection H1 as <- <- <- <-. injection H2 as <-.
  exists ["search"]. split; [reflexivity|]. apply H3. intros [].
Defined.

Lemma free_of_trim_start (sep : ascii -> bool) (s : string) :
  free_of sep s = true -> free_of sep (trim_start s) = true.
Proof.
  induction s as [|c s IH]; cbn; [auto|].
  intros H. apply andb_true_iff in H as [Hc Hs].
  destruct (is_whitespace c); [auto|]. cbn. rewrite Hc, Hs. reflexivity.
Qed.

Lemma free_of_trim_end (sep : ascii -> bool) (s : string) :
  free_of sep s = true -> free_of sep (trim_end s) = true.
Proof.
  induction s as [|c s IH]; [auto|].
  intros H. cbn in H. apply andb_true_iff in H as [Hc Hs].
  rewrite trim_end_cons. specialize (IH Hs).
  destruct (trim_end s) as [|c' t].
  - destruct (is_whitespace c); [reflexivity|]. cbn. rewrite Hc. reflexivity.
  - cbn in IH |- *. rewrite Hc, IH. reflexivity.
Qed.

Lemma split_where_free (sep : ascii -> bool) (s : string) :
  Forall (fun piece => free_of sep piece = true)
         (fst (split_where sep s) :: snd (split_where sep s)).
Proof.
  induction s as [|c s IH]; cbn.
  - repeat constructor.
  - destruct (split_where sep s) as [h t]. cbn in IH.
    destruct (sep c) eqn:Hc; cbn.
    + apply List.Forall_cons; [reflexivity | exact IH].
    + inversion IH as [|? ? Hh Ht]; subst.
      apply List.Forall_cons; [|exact Ht]. cbn. rewrite Hc, Hh. reflexivity.
Qed.

Lemma split_where_no_sep (sep : ascii -> bool) (s : string) :
  free_of sep s = true -> split_where sep s = (s, []).
Proof.
  induction s as [|c s IH]; cbn; [reflexivity|].
  intros H. apply andb_true_iff in H as [Hc Hs].
  rewrite (IH Hs). apply negb_true_iff in Hc. rewrite Hc. reflexivity.
Qed.

Lemma split_where_append (sep : ascii -> bool) (s : string) (c : ascii) (t : string) :
  free_of sep s = true -> sep c = true ->
  split_where sep (s +:+ String c t)
  = (s, fst (split_where sep t) :: snd (split_where sep t)).
Proof.
  intros Hs Hc. induction s as [|a s IH].
  - change ("" +:+ String c t) with (String c t). cbn.
    rewrite Hc. destruct (split_where sep t). reflexivity.
  - change (String a s +:+ String c t) with (String a (s +:+ String c t)).
    cbn in Hs |- *. apply andb_true_iff in Hs as [Ha Hs].
    rewrite (IH Hs). apply negb_true_iff in Ha. rewrite Ha. reflexivity.
Qed.

Lemma split_where_concat (sep : ascii -> bool) (c : ascii) (x : string)
    (l : list string) :
  sep c = true ->
  Forall (fun piece => free_of sep piece = true) (x :: l) ->
  split_where sep (String.concat (String c "") (x :: l)) = (x, l).
Proof.
  intros Hc. revert x. induction l as [|y l IH]; intros x H.
  - inversion H; subst. cbn. apply split_where_no_sep. assumption.
  - inversion H as [|? ? Hx Hl]; subst.
    change (String.concat (String c "") (x :: y :: l))
      with (x +:+ String c "" +:+ String.concat (String c "") (y :: l)).
    change (String c "" +:+ String.concat (String c "") (y :: l))
      with (String c (String.concat (String c "") (y :: l))).
    rewrite (split_where_append sep x c _ Hx Hc), (IH y Hl). reflexivity.
Qed.

Lemma setInputs_inputs (node : FlowNode) (text : string) :
  declared_inputs (setInputs node text)
  = map (fun from => {| input_from := from |})
        (List.filter (fun x => negb (String.eqb x ""))
                     (map trim (fst (split_where newline_or_comma text)
                                :: snd (split_where newline_or_comma text)))).
Proof.
  unfold setInputs. destruct (split_where newline_or_comma text). reflexivity.
Qed.

Lemma setInputs_settled (node : FlowNode) (text : string) :
  Forall input_settled (declared_inputs (setInputs node text)).
Proof.
  rewrite setInputs_inputs.
  pose proof (split_where_free newline_or_comma text) as Hfree.
  induction Hfree as [|piece pieces Hpiece _ IH]; [constructor|].
  cbn. destruct (String.eqb_spec (trim piece) "") as [|Hne]; cbn; [exact IH|].
  apply List.Forall_cons; [|exact IH].
  split; [exact Hne|]. split; [apply trim_idempotent|]. cbn.
  apply free_of_trim_end, free_of_trim_start, Hpiece.
Qed.

Lemma setInputs_of_settled (node : FlowNode) (inputs : list NodeInput) :
  Forall input_settled inputs ->
  declared_inputs
    (setInputs node (String.concat (String newline "") (map input_from inputs)))
  = inputs.
Proof.
  intros Hsettled. rewrite setInputs_inputs.
  destruct inputs as [|i inputs]; [reflexivity|].
  change (map input_from (i :: inputs))
    with (input_from i :: map input_from inputs).
  rewrite (split_where_concat newline_or_comma newline (input_from i)
             (map input_from inputs) eq_refl).
  - cbn [fst snd]. change (input_from i :: map input_from inputs)
      with (map input_from (i :: inputs)).
    induction Hsettled as [|j js (Hne & Htrim & _) _ IH]; [reflexivity|].
    cbn. rewrite Htrim.
    destruct (String.eqb_spec (input_from j) ""); [contradiction|].
    cbn. rewrite IH. destruct j. reflexivity.
  - change (input_from i :: map input_from inputs)
      with (map input_from (i :: inputs)).
    apply Forall_map. eapply Forall_impl; [exact Hsettled|].
    intros j (_ & _ & Hfree). exact Hfree.
Qed.

(** X15 ([setInputs] and the inputs text area): inputs that are not empty,
    trimmed and free of line breaks and commas are shown as a text that the
    editor reads back as the same inputs. *)
Theorem setInputs_reads_back_shown_inputs :
  forall (node shown : FlowNode),
    Forall input_settled (declared_inputs shown) ->
    declared_inputs (setInputs node (inputs_text shown)) = declared_inputs shown.
Proof.
  intros node shown H. apply setInputs_of_settled, H.
Qed.

Lemma setInputs_reads_back_shown_inputs_witness :
  declared_inputs (setInputs (createFlowNode "" TMerge (Some "m")) (inputs_text ex_merge))
  = [{| input_from := "a/out" |}; {| input_from := "b/out" |}].
Proof.
  apply (setInputs_reads_back_shown_inputs (createFlowNode "" TMerge (Some "m")) ex_merge).
  repeat constructor; discriminate.
Defined.

(** X16 ([setInputs]): whatever is typed, every input the editor stores is
    not empty, trimmed and free of line breaks and commas, the rest of the
    node is unchanged, and the text then shown reads back as the same
    inputs. *)
Theorem setInputs_stores_settled_inputs :
  forall (node : FlowNode) (text : string),
    Forall input_settled (declared_inputs (setInputs node text)) /\
    kind (setInputs node text) = kind node /\
    node_id (base (setInputs node text)) = node_id (base node) /\
    declared_outputs (setInputs node text) = declared_outputs node /\
    declared_inputs (setInputs node (inputs_text (setInputs node text)))
      = declared_inputs (setInputs node text).
Proof.
  intros node text. split; [apply setInputs_settled|].
  assert (kind (setInputs node text) = kind node /\
          node_id (base (setInputs node text)) = node_id (base node) /\
          declared_outputs (setInputs node text) = declared_outputs node)
    as (H1 & H2 & H3).
  { unfold setInputs. destruct (split_where newline_or_comma text). auto. }
  repeat (split; [assumption|]).
  apply setInputs_of_settled, setInputs_settled.
Qed.

Lemma split_where_whitespace (sep : ascii -> bool) (s : string) :
  whitespace_only s ->
  Forall whitespace_only (fst (split_where sep s) :: snd (split_where sep s)).
Proof.
  unfold whitespace_only. induction s as [|c s IH]; cbn.
  - intros _. repeat constructor.
  - intros H. inversion H as [|? ? Hc Hs]; subst. specialize (IH Hs).
    destruct (split_where sep s) as [h t]. cbn in IH.
    destruct (sep c); cbn.
    + apply List.Forall_cons; [constructor | exact IH].
    + inversion IH as [|? ? Hh Ht]; subst.
      apply List.Forall_cons; [|exact Ht]. cbn. constructor; assumption.
Qed.

(** X17 ([setInputs]): clearing the text area, or leaving only blanks,
    line breaks and commas in it, removes every input; on an output node
    this breaks the rule that an output node has at least one input. *)
Theorem setInputs_blank_text_removes_inputs :
  forall (node : FlowNode) (text : string),
    Forall whitespace_only
           (fst (split_where newline_or_comma text)
            :: snd (split_where newline_or_comma text)) ->
    declared_inputs (setInputs node text) = [] /\
    (kind node = OutputNode -> ~ terminal_arity_ok (setInputs node text)).
Proof.
  intros node text Hblank.
  assert (declared_inputs (setInputs node text) = []) as Hnone.
  { rewrite setInputs_inputs.
    induction Hblank as [|piece pieces Hpiece _ IH]; [reflexivity|].
    cbn. apply trim_empty_iff in Hpiece. rewrite Hpiece. exact IH. }
  split; [exact Hnone|].
  intros Hkind. unfold terminal_arity_ok.
  replace (kind (setInputs node text)) with OutputNode
    by (unfold setInputs; destruct (split_where _ text); auto).
  rewrite Hnone. cbn. lia.
Qed.

Lemma setInputs_blank_text_removes_inputs_witness :
  ~ terminal_arity_ok (setInputs (createFlowNode "" TOutput (Some "finish")) " , ").
Proof.
  apply (setInputs_blank_text_removes_inputs
           (createFlowNode "" TOutput (Some "finish")) " , ").
  - repeat constructor.
  - reflexivity.
Defined.

(** X18 ([addOutput]): the added output is always labelled "out", so on a
    node that already declares "out" two outputs share the label (and the
    canvas shows two source handles with the same id). *)
Theorem addOutput_duplicates_label :
  forall (node : FlowNode),
    In "out" (declared_labels node) ->
    declared_labels (addOutput node) = declared_labels node ++ ["out"] /\
    ~ List.NoDup (declared_labels (addOutput node)).
Proof.
  intros node Hin.
  assert (declared_labels (addOutput node) = declared_labels node ++ ["out"]) as ->.
  { unfold declared_labels, addOutput, setOutputs, declared_outputs. cbn.
    rewrite map_app. reflexivity. }
  split; [reflexivity|]. intros Hnd.
  apply List.NoDup_remove_2 in Hnd. apply Hnd.
  rewrite app_nil_r. exact Hin.
Qed.

Lemma addOutput_duplicates_label_witness :
  ~ List.NoDup (declared_labels (addOutput ex_agent_a)).
Proof.
  apply (addOutput_duplicates_label ex_agent_a). left. reflexivity.
Defined.

Lemma imap_alter {A : Type} (g : A -> A) (index : nat) (l : list A) :
  imap (fun i x => if Nat.eqb i index then g x else x) l = alter g index l.
Proof.
  revert index. induction l as [|x l IH]; intros index; [reflexivity|].
  cbn. destruct index as [|index]; cbn.
  - f_equal. etrans; [apply (imap_const id)|]. apply list_fmap_id.
  - f_equal. apply IH.
Qed.

(** X19 ([updateOutput], [removeOutput], [addOutput]): an output is edited
    and removed by its index, the other outputs, the inputs and the kind of
    the node are kept; removing the output just added gives back the
    outputs as they were. *)
Theorem outputs_edited_by_index :
  forall (node : FlowNode) (idx : nat) (next : PartialOutput),
    declared_outputs (updateOutput node idx next)
      = alter (fun out => merge_output out next) idx (declared_outputs node) /\
    declared_outputs (removeOutput node idx) = delete idx (declared_outputs node) /\
    declared_outputs (removeOutput (addOutput node) (length (declared_outputs node)))
      = declared_outputs node /\
    kind (updateOutput node idx next) = kind node /\
    kind (removeOutput node idx) = kind node /\
    declared_inputs (updateOutput node idx next) = declared_inputs node /\
    declared_inputs (removeOutput node idx) = declared_inputs node.
Proof.
  intros node idx next.
  destruct node as [[id name description inputs outputs layout] k].
  unfold updateOutput, removeOutput, addOutput, setOutputs, declared_outputs,
    declared_inputs.
  cbn [base kind node_outputs node_inputs].
  set (outs := default [] outputs).
  rewrite imap_alter, !filter_index_delete.
  change (default [] (Some (outs ++ [out_slot]))) with (outs ++ [out_slot]).
  rewrite delete_middle, app_nil_r.
  repeat split.
Qed.

(** ** The API client *)

Lemma getApiKey_stable (c : ApiClient) :
  getApiKey (snd (getApiKey c)) = getApiKey c.
Proof.
  unfold getApiKey. destruct (falsy (apiKey c)) eqn:Hc; cbn.
  - destruct (falsy (localStorage c !! api_key_item)); reflexivity.
  - rewrite Hc. reflexivity.
Qed.

(** X20 ([setApiKey], [getApiKey], [clearApiKey]): a key that was set is
    the key read, also by a new client over the same storage; after
    clearing, no key is read; reading twice gives the same key and the same
    client. *)
Theorem api_key_roundtrip :
  forall (key base : string) (c : ApiClient),
    fst (getApiKey (setApiKey key c)) = Some key /\
    fst (getApiKey {| baseURL := base; apiKey := None;
                      localStorage := localStorage (setApiKey key c) |}) = Some key /\
    fst (getApiKey (clearApiKey c)) = None /\
    fst (getApiKey {| baseURL := base; apiKey := None;
                      localStorage := localStorage (clearApiKey c) |}) = None /\
    getApiKey (snd (getApiKey c)) = getApiKey c.
Proof.
  intros key base c. unfold getApiKey, setApiKey, clearApiKey. cbn.
  rewrite lookup_insert_eq, lookup_delete_eq.
  split; [destruct (String.eqb key ""); reflexivity|].
  split; [reflexivity|]. split; [reflexivity|]. split; [reflexivity|].
  apply getApiKey_stable.
Qed.

Lemma fetch_call_of_request_headers (endpoint : string) (options : RequestInit)
    (c : ApiClient) :
  call_headers (fst (fetch_call_of_request endpoint options c))
  = let headers :=
      spread [("Content-Type", JStr "application/json")]
             (default [] (init_headers options)) in
    match fst (getApiKey c) with
    | Some key =>
        if String.eqb key "" then headers
        else obj_set headers "Authorization" (bearer key)
    | None => headers
    end.
Proof.
  unfold fetch_call_of_request, call_headers.
  pose proof (getApiKey_stable c) as Hstable.
  destruct (getApiKey c) as [key c1]. cbn [fst snd] in *.
  destruct key as [key|]; cbn [falsy].
  - destruct (String.eqb key ""); [reflexivity|].
    rewrite Hstable. reflexivity.
  - reflexivity.
Qed.

(** X21 ([request]): the headers handed to [fetch].  Content-Type is
    always there: the caller's, or application/json.  Authorization is the
    bearer key when a key is set and not empty, whatever the caller passed,
    and the caller's otherwise.  The URL is the base URL followed by the
    endpoint; method and body are the caller's. *)
Theorem request_headers :
  forall (endpoint : string) (options : RequestInit) (c : ApiClient),
    List.NoDup (map fst (default [] (init_headers options))) ->
    let call := fst (fetch_call_of_request endpoint options c) in
    let given := default [] (init_headers options) in
    obj_get (call_headers call) "Content-Type"
      = Some (default (JStr "application/json") (obj_get given "Content-Type")) /\
    obj_get (call_headers call) "Authorization"
      = (if falsy (fst (getApiKey c)) then obj_get given "Authorization"
         else Some (bearer (default "" (fst (getApiKey c))))) /\
    fetch_url call = baseURL c +:+ endpoint /\
    init_method (fetch_init call) = init_method options /\
    init_body (fetch_init call) = init_body options.
Proof.
  intros endpoint options c Hkeys call given.
  assert (fetch_url call = baseURL c +:+ endpoint /\
          init_method (fetch_init call) = init_method options /\
          init_body (fetch_init call) = init_body options) as Hrest.
  { unfold call, fetch_call_of_request.
    destruct (getApiKey c) as [key c1].
    destruct (falsy key); [auto|]. destruct (getApiKey c1). auto. }
  unfold call. rewrite fetch_call_of_request_headers. cbn zeta. fold given.
  assert (forall k, obj_get (spread [("Content-Type", JStr "application/json")] given) k
                    = match obj_get given k with
                      | Some v => Some v
                      | None => if String.eqb "Content-Type" k
                                then Some (JStr "application/json") else None
                      end) as Hget.
  { intros k. rewrite (obj_get_spread _ _ _ Hkeys). reflexivity. }
  destruct (fst (getApiKey c)) as [key|]; cbn [falsy default from_option id].
  - destruct (String.eqb key "").
    + rewrite !Hget. cbn. destruct (obj_get given "Content-Type"), (obj_get given "Authorization"); auto.
    + rewrite !obj_get_set, !Hget. cbn.
      destruct (obj_get given "Content-Type"); auto.
  - rewrite !Hget. cbn.
    destruct (obj_get given "Content-Type"), (obj_get given "Authorization"); auto.
Qed.

Lemma request_headers_witness :
  obj_get (call_headers (fst (fetch_call_of_request "/flows"
             {| init_method := Some "POST";
                init_headers := Some [("Authorization", JStr "Basic abc")];
                init_body := Some "{}" |} ex_client)))
          "Authorization"
  = Some (bearer "secret").
Proof.
  refine (proj1 (proj2 (request_headers "/flows"
             {| init_method := Some "POST";
                init_headers := Some [("Authorization", JStr "Basic abc")];
                init_body := Some "{}" |} ex_client _))).
  repeat constructor. intros [].
Defined.

(** X22 ([uploadFlow]): the upload passes empty headers so that the
    browser can set the multipart Content-Type, but [request] still puts
    Content-Type application/json on the call. *)
Theorem uploadFlow_content_type_is_json :
  forall (formData : string) (c : ApiClient),
    obj_get (call_headers (fst (uploadFlow formData c))) "Content-Type"
      = Some (JStr "application/json") /\
    init_body (fetch_init (fst (uploadFlow formData c))) = Some formData.
Proof.
  intros formData c. unfold uploadFlow. split.
  - rewrite fetch_call_of_request_headers. cbn.
    destruct (fst (getApiKey c)) as [key|]; [|reflexivity].
    destruct (String.eqb key ""); reflexivity.
  - unfold fetch_call_of_request.
    destruct (getApiKey c) as [key c1].
    destruct (falsy key); [reflexivity|]. destruct (getApiKey c1). reflexivity.
Qed.

(** X23 ([downloadFlow], [request]): the download, which calls [fetch]
    itself, carries the same Authorization header as a request to which the
    caller passes none, and no Content-Type. *)
Theorem downloadFlow_authorizes_like_request :
  forall (id format endpoint : string) (options : RequestInit) (c : ApiClient),
    List.NoDup (map fst (default [] (init_headers options))) ->
    obj_get (default [] (init_headers options)) "Authorization" = None ->
    obj_get (call_headers (fst (downloadFlow id format c))) "Authorization"
      = obj_get (call_headers (fst (fetch_call_of_request endpoint options c)))
                "Authorization" /\
    obj_get (call_headers (fst (downloadFlow id format c))) "Content-Type" = None /\
    snd (downloadFlow id format c) = snd (fetch_call_of_request endpoint options c).
Proof.
  intros id format endpoint options c Hkeys Hnone.
  rewrite fetch_call_of_request_headers. cbn zeta.
  unfold downloadFlow, fetch_call_of_request, call_headers.
  pose proof (getApiKey_stable c) as Hstable.
  destruct (getApiKey c) as [key c1]. cbn [fst snd] in *.
  assert (obj_get (spread [("Content-Type", JStr "application/json")]
                          (default [] (init_headers options))) "Authorization"
          = None) as Hplain.
  { rewrite (obj_get_spread _ _ _ Hkeys), Hnone. reflexivity. }
  destruct key as [key|]; cbn [falsy].
  - destruct (String.eqb key "") eqn:Hkey; cbn; [rewrite Hplain; auto|].
    rewrite Hstable. cbn. rewrite obj_get_set. auto.
  - cbn. rewrite Hplain. auto.
Qed.

Lemma downloadFlow_authorizes_like_request_witness :
  obj_get (call_headers (fst (downloadFlow "main" "yaml" ex_client))) "Authorization"
  = Some (bearer "secret").
Proof.
  exact (proj1 (downloadFlow_authorizes_like_request "main" "yaml" "/flows"
                  {| init_method := None; init_headers := None; init_body := None |}
                  ex_client (List.NoDup_nil _) eq_refl)).
Defined.

Lemma substring_all (s : string) : String.substring 0 (String.length s) s = s.
Proof. induction s as [|c s IH]; cbn; [reflexivity | rewrite IH; reflexivity]. Qed.

(** X24 ([createWebSocket]): for a base URL that starts with http, the
    socket URL is the base URL with http replaced by ws, so https gives wss,
    followed by the path. *)
Theorem createWebSocket_url_scheme :
  forall (rest path : string) (c : ApiClient),
    baseURL c = "http" +:+ rest ->
    createWebSocket_url path c = "ws" +:+ rest +:+ path.
Proof.
  intros rest path c Hbase. unfold createWebSocket_url, replace_leading_http.
  rewrite Hbase.
  change ("http" +:+ rest) with (String "h" (String "t" (String "t" (String "p" rest)))).
  cbn [String.prefix]. repeat (destruct (ascii_dec _ _); [|congruence]).
  replace (String.prefix "" rest) with true by (destruct rest; reflexivity).
  cbn [String.length String.substring Nat.sub].
  rewrite Nat.sub_0_r, substring_all.
  reflexivity.
Qed.

Lemma createWebSocket_url_scheme_witness :
  createWebSocket_url "/ws" ex_client = "wss://api.denkwerk.com/ws".
Proof.
  exact (createWebSocket_url_scheme "s://api.denkwerk.com" "/ws" ex_client eq_refl).
Defined.

(** ** The YAML export *)

Lemma normalized_version_spec (doc : JProps) :
  match normalized_version doc with
  | Ok version =>
      trim version = version /\ version <> "" /\
      version = match obj_get doc "version" with
                | Some (JStr s) => if String.eqb (trim s) "" then "0.1" else trim s
                | _ => "0.1"
                end
  | TypeError =>
      exists x, obj_get doc "version" = Some x /\
                x <> JUndefined /\ x <> JNull /\ forall s, x <> JStr s
  end.
Proof.
  unfold normalized_version.
  destruct (obj_get doc "version") as [[| |b|n|s|items|props]|];
    try (split; [reflexivity|]; split; [discriminate|reflexivity]);
    try (eexists; split; [reflexivity|]; repeat split; discriminate).
  destruct (String.eqb_spec (trim s) "") as [E|E].
  - split; [reflexivity|]. split; [discriminate|reflexivity].
  - split; [apply trim_idempotent|]. split; [exact E|reflexivity].
Qed.

(** X25 ([normalizeDocument]): the normalized document always has a
    version, a trimmed string that is not empty: the trimmed version of the
    document, or "0.1" when the document has no version, a null or undefined
    one or a blank one.  The call fails only for a version that is neither a
    string nor null nor undefined. *)
Theorem normalizeDocument_always_has_version :
  forall (doc : JProps),
    match normalizeDocument doc with
    | Ok cleaned =>
        exists props version,
          cleaned = JObj props /\
          obj_get props "version" = Some (JStr version) /\
          trim version = version /\ version <> "" /\
          version = match obj_get doc "version" with
                    | Some (JStr s) =>
                        if String.eqb (trim s) "" then "0.1" else trim s
                    | _ => "0.1"
                    end
    | TypeError =>
        exists x, obj_get doc "version" = Some x /\
                  x <> JUndefined /\ x <> JNull /\ forall s, x <> JStr s
    end.
Proof.
  intros doc. unfold normalizeDocument.
  pose proof (normalized_version_spec doc) as Hv.
  destruct (normalized_version doc) as [version|]; [|exact Hv].
  destruct Hv as (Htrim & Hne & Hdoc).
  set (o := obj_set (spread [] doc) "version" (JStr version)).
  assert (Ho : List.NoDup (map fst o)).
  { apply obj_set_NoDup, spread_NoDup. constructor. }
  rewrite (deepClean_obj o Ho).
  exists (clean_entries o), version. split; [reflexivity|].
  split; [|auto].
  rewrite (obj_get_clean_entries o _ Ho). unfold o.
  rewrite obj_get_set.
  change (String.eqb "version" proto_key) with false.
  cbn [String.eqb Ascii.eqb Bool.eqb deepClean shouldDrop].
  rewrite Htrim. destruct (String.eqb_spec version ""); [contradiction|reflexivity].
Qed.

Lemma obj_set_not_empty (o : JProps) (k : string) (v : JValue) :
  obj_set o k v <> [].
Proof.
  destruct o as [|[k0 v0] o]; cbn; [discriminate|].
  destruct (String.eqb k0 k); discriminate.
Qed.

Lemma from_entries_empty (entries : JProps) :
  (List.length (map fst (from_entries entries)) =? 0)%nat
  = (List.length (own_entries entries) =? 0)%nat.
Proof.
  rewrite from_entries_own. unfold spread.
  destruct (own_entries entries) as [|kv rest]; [reflexivity|].
  cbn [fold_left].
  assert (forall acc, acc <> [] ->
            fold_left (fun acc kv => obj_set acc (fst kv) (snd kv)) rest acc <> [])
    as Hfold.
  { induction rest as [|kv' rest IH]; intros acc Hacc; [exact Hacc|].
    cbn. apply IH, obj_set_not_empty. }
  specialize (Hfold _ (obj_set_not_empty [] (fst kv) (snd kv))).
  destruct (fold_left _ rest _); [contradiction|reflexivity].
Qed.

(** X26 ([deepClean], [shouldDrop]): a value is dropped from its parent
    after cleaning exactly when it is undefined, null, a blank string, or an
    array or object that holds only such values, at any depth; an own
    property "__proto__" of an object does not count, because the object
    built by deepClean does not keep it. *)
Theorem deepClean_drops_what_vanishes :
  forall (v : JValue), shouldDrop (deepClean v) = vanishes v.
Proof.
  induction v as [| | | | |items IH|props IH] using JValue_nested_ind;
    try reflexivity.
  - cbn [deepClean vanishes shouldDrop].
    induction IH as [|x items Hx _ IH']; [reflexivity|].
    cbn. rewrite Hx. destruct (vanishes x); cbn; [exact IH'|reflexivity].
  - cbn [deepClean vanishes shouldDrop]. rewrite from_entries_empty.
    unfold own_entries.
    induction IH as [|[k x] props Hx _ IH']; [reflexivity|].
    cbn in Hx |- *. rewrite Hx. destruct (vanishes x); cbn.
    + rewrite orb_true_r. exact IH'.
    + rewrite orb_false_r.
      destruct (String.eqb k proto_key); cbn; [exact IH'|reflexivity].
Qed.

Lemma deepClean_flag_or_number (x y : JValue) :
  flag_or_number y -> deepClean x = y -> x = y.
Proof.
  intros [[b ->]|[n ->]]; destruct x; cbn; congruence.
Qed.

(** X27 ([deepClean]): booleans and numbers are never dropped, so [false]
    and [0] survive the cleaning: under a key other than "__proto__", an
    object (with distinct keys) has such a property after cleaning exactly
    when it had it before; the cleaned object never has an own property
    "__proto__". *)
Theorem deepClean_keeps_flags_and_numbers :
  forall (props : JProps) (k : string) (x : JValue),
    List.NoDup (map fst props) ->
    flag_or_number x ->
    k <> proto_key ->
    (obj_get props k = Some x <->
     exists cleaned, deepClean (JObj props) = JObj cleaned /\
                     obj_get cleaned k = Some x) /\
    (exists cleaned, deepClean (JObj props) = JObj cleaned /\
                     obj_get cleaned proto_key = None).
Proof.
  intros props k x Hnd Hx Hk. rewrite (deepClean_obj props Hnd).
  assert (String.eqb k proto_key = false) as Hkb
    by (destruct (String.eqb_spec k proto_key); [contradiction|reflexivity]).
  split; [split|].
  - intros Hget. exists (clean_entries props). split; [reflexivity|].
    rewrite (obj_get_clean_entries props k Hnd), Hkb, Hget.
    destruct Hx as [[b ->]|[n ->]]; reflexivity.
  - intros (cleaned & [= <-] & Hget).
    rewrite (obj_get_clean_entries props k Hnd), Hkb in Hget.
    destruct (obj_get props k) as [y|]; [|discriminate].
    destruct (shouldDrop (deepClean y)); [discriminate|].
    injection Hget as Hy. f_equal. apply (deepClean_flag_or_number y x Hx Hy).
  - exists (clean_entries props). split; [reflexivity|].
    rewrite (obj_get_clean_entries props proto_key Hnd), String.eqb_refl.
    reflexivity.
Qed.

Lemma deepClean_keeps_flags_and_numbers_witness :
  exists cleaned,
    deepClean (JObj [("converge", JBool false); ("__proto__", JNum 0%Z)]) = JObj cleaned /\
    obj_get cleaned "converge" = Some (JBool false).
Proof.
  apply (proj1 (deepClean_keeps_flags_and_numbers
                  [("converge", JBool false); ("__proto__", JNum 0%Z)]
                  "converge" (JBool false)
                  ltac:(apply NoDup_ListNoDup; apply (bool_decide_unpack _);
                        vm_compute; reflexivity)
                  (or_introl (ex_intro _ false eq_refl))
                  ltac:(discriminate))).
  reflexivity.
Defined.

(** ** The history of the flow manager *)

Lemma slice_to_take {A : Type} (l : list A) (i : Z) :
  (0 <= i < Z.of_nat (List.length l))%Z ->
  slice_to (i + 1) l = take (S (Z.to_nat i)) l.
Proof.
  intros Hi. unfold slice_to.
  destruct (Z.ltb_spec (i + 1) 0); [lia|].
  rewrite Z.min_l by lia. f_equal. lia.
Qed.

Lemma slice_to_length {A : Type} (l : list A) (i : Z) :
  (0 <= i < Z.of_nat (List.length l))%Z ->
  Z.of_nat (List.length (slice_to (i + 1) l)) = (i + 1)%Z.
Proof.
  intros Hi. rewrite (slice_to_take l i Hi), length_take. lia.
Qed.

Lemma at_index_slice_to {A : Type} (l : list A) (i j : Z) (x : A) :
  (0 <= i < Z.of_nat (List.length l))%Z ->
  at_index (slice_to (i + 1) l ++ [x]) j
  = if (j =? i + 1)%Z then Some x
    else if (j <=? i)%Z then at_index l j else None.
Proof.
  intros Hi. pose proof (slice_to_length l i Hi) as Hlen.
  unfold at_index. destruct (Z.ltb_spec j 0) as [Hj|Hj].
  - destruct (Z.eqb_spec j (i + 1)); [lia|]. destruct (j <=? i)%Z; reflexivity.
  - destruct (Z.eqb_spec j (i + 1)) as [->|Hne].
    + rewrite lookup_app_r by lia.
      replace (Z.to_nat (i + 1) - List.length (slice_to (i + 1) l)) with 0 by lia.
      reflexivity.
    + destruct (Z.leb_spec j i) as [Hle|Hgt].
      * rewrite lookup_app_l by lia.
        rewrite (slice_to_take l i Hi). apply lookup_take_lt. lia.
      * apply lookup_ge_None. rewrite length_app. cbn. lia.
Qed.

Lemma at_index_in_range {A : Type} (l : list A) (i : Z) :
  (0 <= i < Z.of_nat (List.length l))%Z -> is_Some (at_index l i).
Proof.
  intros Hi. unfold at_index. destruct (Z.ltb_spec i 0); [lia|].
  apply lookup_lt_is_Some. lia.
Qed.

Lemma saveToHistory_index {N E D : Type} (nodes : list N) (edges : list E)
    (s : FlowManagerState N E D) :
  history_consistent s ->
  fm_historyIndex (saveToHistory nodes edges s) = (fm_historyIndex s + 1)%Z /\
  Z.of_nat (List.length (history_nodes (fm_history (saveToHistory nodes edges s))))
    = (fm_historyIndex s + 2)%Z /\
  Z.of_nat (List.length (history_edges (fm_history (saveToHistory nodes edges s))))
    = (fm_historyIndex s + 2)%Z.
Proof.
  intros [Hlen Hi]. unfold saveToHistory. cbn.
  rewrite !length_app. cbn.
  pose proof (slice_to_length (history_nodes (fm_history s)) _ Hi).
  pose proof (slice_to_length (history_edges (fm_history s)) (fm_historyIndex s)
                ltac:(lia)).
  lia.
Qed.

Lemma saveToHistory_shows {N E D : Type} (nodes : list N) (edges : list E)
    (s : FlowManagerState N E D) :
  history_consistent s -> shows_history (saveToHistory nodes edges s).
Proof.
  intros Hs. destruct (saveToHistory_index nodes edges s Hs) as (Hidx & _ & _).
  destruct Hs as [Hlen Hi]. unfold shows_history. rewrite Hidx.
  unfold saveToHistory. cbn [fm_nodes fm_edges fm_history history_nodes history_edges].
  rewrite !at_index_slice_to by lia. rewrite Z.eqb_refl. auto.
Qed.

(** X28 ([saveToHistory], [undo], [redo], [resetFlow]): from a state whose
    history index points into a history with as many node lists as edge
    lists, and whose canvas shows the entry at the index, every one of the
    four steps leads to such a state again; in particular the canvas nodes
    and edges are never undefined. *)
Theorem history_steps_keep_invariant :
  forall (N E D : Type) (s : FlowManagerState N E D) (nodes : list N)
         (edges : list E) (defaultDocument : D),
    history_consistent s -> shows_history s ->
    let ok s' :=
      history_consistent s' /\ shows_history s' /\
      is_Some (fm_nodes s') /\ is_Some (fm_edges s') in
    ok s /\ ok (saveToHistory nodes edges s) /\ ok (undo s) /\ ok (redo s) /\
    ok (resetFlow defaultDocument s).
Proof.
  intros N E D s nodes edges defaultDocument Hs Hshow ok.
  assert (forall s', history_consistent s' -> shows_history s' -> ok s') as Hok.
  { intros s' [Hlen Hi] [Hn He]. split; [split; assumption|].
    split; [split; assumption|]. rewrite Hn, He.
    split; apply at_index_in_range; lia. }
  split; [apply Hok; assumption|].
  split; [|split; [|split]].
  - apply Hok; [|apply saveToHistory_shows, Hs].
    destruct (saveToHistory_index nodes edges s Hs) as (Hidx & Hn & He).
    destruct Hs as [Hlen Hi]. split; lia.
  - unfold undo. destruct (Z.ltb_spec 0 (fm_historyIndex s)); [|apply Hok; assumption].
    destruct Hs as [Hlen Hi]. apply Hok.
    + split; cbn; [exact Hlen | lia].
    + split; reflexivity.
  - unfold redo.
    destruct (Z.ltb_spec (fm_historyIndex s)
                (Z.of_nat (List.length (history_nodes (fm_history s))) - 1));
      [|apply Hok; assumption].
    destruct Hs as [Hlen Hi]. apply Hok.
    + split; cbn; [exact Hlen | lia].
    + split; reflexivity.
  - apply Hok.
    + split; cbn; [reflexivity | lia].
    + split; reflexivity.
Qed.

Lemma history_steps_keep_invariant_witness :
  is_Some (fm_nodes (undo (undo ex_manager))).
Proof.
  assert (history_consistent (undo ex_manager) /\ shows_history (undo ex_manager))
    as [H1 H2].
  { split; [split; [reflexivity|] | split; reflexivity].
    split; [apply Z.leb_le | apply Z.ltb_lt]; reflexivity. }
  exact (proj1 (proj2 (proj2 (proj1 (proj2 (proj2
           (history_steps_keep_invariant string string unit (undo ex_manager)
              [] [] tt H1 H2))))))).
Defined.

(** X29 ([undo], [redo]): on such a state, redo takes back an undo and
    undo takes back a redo, whenever the first of the two steps is
    possible. *)
Theorem undo_redo_inverse :
  forall (N E D : Type) (s : FlowManagerState N E D),
    history_consistent s -> shows_history s ->
    ((0 < fm_historyIndex s)%Z -> redo (undo s) = s) /\
    ((fm_historyIndex s
      < Z.of_nat (List.length (history_nodes (fm_history s))) - 1)%Z ->
     undo (redo s) = s).
Proof.
  intros N E D s [Hlen Hi] [Hn He]. split; intros Hstep.
  - unfold undo. destruct (Z.ltb_spec 0 (fm_historyIndex s)); [|lia].
    unfold redo. cbn [fm_historyIndex fm_history fm_document fm_selectedNode].
    destruct (Z.ltb_spec (fm_historyIndex s - 1)
                (Z.of_nat (List.length (history_nodes (fm_history s))) - 1)); [|lia].
    replace (fm_historyIndex s - 1 + 1)%Z with (fm_historyIndex s) by lia.
    rewrite <- Hn, <- He. destruct s; reflexivity.
  - unfold redo.
    destruct (Z.ltb_spec (fm_historyIndex s)
                (Z.of_nat (List.length (history_nodes (fm_history s))) - 1)); [|lia].
    unfold undo. cbn [fm_historyIndex fm_history fm_document fm_selectedNode].
    destruct (Z.ltb_spec 0 (fm_historyIndex s + 1)); [|lia].
    replace (fm_historyIndex s + 1 - 1)%Z with (fm_historyIndex s) by lia.
    rewrite <- Hn, <- He. destruct s; reflexivity.
Qed.

Lemma undo_redo_inverse_witness :
  redo (undo ex_manager) = ex_manager.
Proof.
  refine (proj1 (undo_redo_inverse string string unit ex_manager _ _) _).
  - split; [reflexivity|].
    split; [apply Z.leb_le | apply Z.ltb_lt]; reflexivity.
  - split; reflexivity.
  - apply Z.ltb_lt. reflexivity.
Defined.

(** X30 ([saveToHistory]): a saved change is the last entry of the
    history: the entries after the index are dropped, so there is nothing to
    redo; and undoing the change shows the canvas as it was before. *)
Theorem saveToHistory_ends_history :
  forall (N E D : Type) (s : FlowManagerState N E D) (nodes : list N)
         (edges : list E),
    history_consistent s -> shows_history s ->
    redo (saveToHistory nodes edges s) = saveToHistory nodes edges s /\
    history_nodes (fm_history (saveToHistory nodes edges s))
      = take (S (Z.to_nat (fm_historyIndex s))) (history_nodes (fm_history s))
        ++ [nodes] /\
    fm_nodes (undo (saveToHistory nodes edges s)) = fm_nodes s /\
    fm_edges (undo (saveToHistory nodes edges s)) = fm_edges s /\
    fm_historyIndex (undo (saveToHistory nodes edges s)) = fm_historyIndex s.
Proof.
  intros N E D s nodes edges Hs [Hn He].
  destruct (saveToHistory_index nodes edges s Hs) as (Hidx & Hlenn & Hlene).
  pose proof Hs as [Hlen Hi].
  split; [|split].
  - unfold redo. rewrite Hidx.
    destruct (Z.ltb_spec (fm_historyIndex s + 1)
                (Z.of_nat (List.length
                   (history_nodes (fm_history (saveToHistory nodes edges s)))) - 1));
      [lia | reflexivity].
  - unfold saveToHistory. cbn. rewrite (slice_to_take _ _ Hi). reflexivity.
  - unfold undo. rewrite Hidx.
    destruct (Z.ltb_spec 0 (fm_historyIndex s + 1)); [|lia].
    cbn [fm_nodes fm_edges fm_historyIndex].
    unfold saveToHistory. cbn [fm_history history_nodes history_edges].
    rewrite !at_index_slice_to by lia.
    replace (fm_historyIndex s + 1 - 1)%Z with (fm_historyIndex s) by lia.
    destruct (Z.eqb_spec (fm_historyIndex s) (fm_historyIndex s + 1)); [lia|].
    destruct (Z.leb_spec (fm_historyIndex s) (fm_historyIndex s)); [|lia].
    auto.
Qed.

Lemma saveToHistory_ends_history_witness :
  fm_nodes (undo (saveToHistory ["c"] [] (undo ex_manager)))
  = fm_nodes (undo ex_manager).
Proof.
  refine (proj1 (proj2 (proj2
            (saveToHistory_ends_history string string unit (undo ex_manager)
               ["c"] [] _ _)))).
  - split; [reflexivity|].
    split; [apply Z.leb_le | apply Z.ltb_lt]; reflexivity.
  - split; reflexivity.
Defined.
